(** * The variable store of gotch's [nn] package

    A shallow embedding of [nn.VarStore], [nn.Path] and [nn.Entry]
    (src/example/mnist/nn.go, package nn) together with the Go objects
    they share: maps, slices with their backing arrays, the mutex and
    the tensor handles of the external tensor library. *)

From Stdlib Require Import Ascii.
From stdpp Require Import base gmap strings list fin_maps pretty.


(** ** Strings: [strings.Contains], [strings.Join], [fmt]'s [%v] of an int *)

(** [const SEP = "."] *)
Definition SEP : string := ".".

(** [strings.Contains(s, substr)]: [substr] occurs at some position of [s]. *)
Fixpoint Contains (s substr : string) : bool :=
  if String.prefix substr s then true
  else match s with
       | EmptyString => false
       | String _ s' => Contains s' substr
       end.

(** [strings.Join(elems, sep)]. *)
Definition Join (elems : list string) (sep : string) : string :=
  String.concat sep elems.

(** [fmt.Sprintf("%v", n)] for a non-negative [int]: the decimal digits. *)
Definition Itoa (n : nat) : string := pretty n.

(** ** Go slices

    A slice value is a header (array, length, capacity); the backing
    arrays live in a heap and are shared by every header that points to
    them.  No code of the package re-slices, so the offset is always 0. *)

Record slice := Slice { s_arr : nat; s_len : nat; s_cap : nat }.

(** The capacity [append] picks when it has to reallocate: the runtime
    doubles small slices (rounding to allocator size classes left out). *)
Definition growcap (old needed : nat) : nat :=
  if (2 * old <? needed)%nat then needed else 2 * old.

Section GoSlice.
Context {A : Type}.
(** the zero value of the element type, which fills fresh arrays *)
Variable zero : A.

Definition slice_elems (h : gmap nat (list A)) (s : slice) : list A :=
  take (s_len s) (h !!! s_arr s).

(** [append(s, x)]: writes in place when capacity is left, otherwise
    copies the elements to a fresh, larger array. *)
Definition slice_append (h : gmap nat (list A)) (s : slice) (x : A)
  : slice * gmap nat (list A) :=
  if s_len s <? s_cap s then
    (Slice (s_arr s) (S (s_len s)) (s_cap s),
     <[s_arr s := <[s_len s := x]> (h !!! s_arr s)]> h)
  else
    let a := fresh (dom h) in
    let c := growcap (s_cap s) (S (s_len s)) in
    (Slice a (S (s_len s)) c,
     <[a := slice_elems h s ++ x :: replicate (c - S (s_len s)) zero]> h).

(** A header is backed when its array holds at least [cap] cells. *)
Definition slice_ok (h : gmap nat (list A)) (s : slice) : Prop :=
  s_len s ≤ s_cap s ∧ s_cap s ≤ length (h !!! s_arr s).
End GoSlice.

(** The empty slices [[]T{}], [make([]T, 0)] and the nil slice. *)
Definition empty_slice : slice := Slice 0 0 0.

(** ** Tensor handles (package [ts], the external tensor library) *)

Inductive Device := CPU | Cuda (n : nat).
Inductive DType := Uint8 | Int64 | Float | Double.

Global Instance Device_eq_dec : EqDecision Device.
Proof. solve_decision. Defined.
Global Instance DType_eq_dec : EqDecision DType.
Proof. solve_decision. Defined.

(** Modelled from the spec: the storage block behind a tensor handle
    ("an arena of storage blocks with arena-indexed handles").  The
    numeric payload is opaque to the store, which only copies it. *)
Record Impl := MkImpl {
  values : list Z;
  shape : list Z;
  kind : DType;
  impl_device : Device;
  requires_grad : bool
}.

(** [ts.Tensor] is a struct around a C pointer; the zero value holds nil. *)
Record Tensor := MkTensor { ctensor : option nat }.

Global Instance Tensor_eq_dec : EqDecision Tensor.
Proof. solve_decision. Defined.

Definition nil_tensor : Tensor := MkTensor None.
Global Instance Tensor_inhabited : Inhabited Tensor := populate nil_tensor.

(** [ts.NamedTensor] *)
Record NamedTensor := MkNamed { nt_Name : string; nt_Tensor : Tensor }.

(** ** The structs of package [nn] *)

(** [type Variables struct]: a pointer to the mutex, a map (a reference)
    and a slice header (a value). *)
Record Variables := MkVariables {
  mutex : nat;
  NamedVariables : nat;
  TrainableVariables : slice
}.

Record VarStore := MkVarStore { device : Device; Vars : Variables }.

(** [type Path struct]; [varstore] is a [*VarStore]. *)
Record Path := MkPath { path : slice; varstore : nat }.

(** [type Entry struct]; [variables] points to the [Vars] field of the
    store at that address, [path] to a [Path], which no method assigns. *)
Record Entry := MkEntry { name : string; variables : nat; entry_path : Path }.

(** ** The world: every object the code shares by reference *)

Record World := MkWorld {
  stores : gmap nat VarStore;           (* VarStore variables, by address *)
  gomaps : gmap nat (gmap string Tensor);  (* map[string]ts.Tensor *)
  tensor_arrays : gmap nat (list Tensor);  (* backing arrays of []ts.Tensor *)
  string_arrays : gmap nat (list string);  (* backing arrays of []string *)
  mutexes : gmap nat bool;              (* sync.Mutex: true when held *)
  ctensors : gmap nat nat;              (* C tensor object -> storage block *)
  storage : gmap nat Impl;
  grad_enabled : bool;                  (* the library's global autograd mode *)
  copy_log : list (nat * nat * bool);   (* ghost: (dst, src, autograd mode) per copy *)
  files : gmap string (list (string * Impl));
  cuda_device_count : nat               (* what AtcCudaDeviceCount reports *)
}.

Definition upd_stores (f : gmap nat VarStore → gmap nat VarStore) (w : World) : World :=
  MkWorld (f (stores w)) (gomaps w) (tensor_arrays w) (string_arrays w) (mutexes w)
          (ctensors w) (storage w) (grad_enabled w) (copy_log w) (files w)
          (cuda_device_count w).
Definition upd_gomaps (f : gmap nat (gmap string Tensor) → gmap nat (gmap string Tensor))
    (w : World) : World :=
  MkWorld (stores w) (f (gomaps w)) (tensor_arrays w) (string_arrays w) (mutexes w)
          (ctensors w) (storage w) (grad_enabled w) (copy_log w) (files w)
          (cuda_device_count w).
Definition set_tensor_arrays (h : gmap nat (list Tensor)) (w : World) : World :=
  MkWorld (stores w) (gomaps w) h (string_arrays w) (mutexes w)
          (ctensors w) (storage w) (grad_enabled w) (copy_log w) (files w)
          (cuda_device_count w).
Definition set_string_arrays (h : gmap nat (list string)) (w : World) : World :=
  MkWorld (stores w) (gomaps w) (tensor_arrays w) h (mutexes w)
          (ctensors w) (storage w) (grad_enabled w) (copy_log w) (files w)
          (cuda_device_count w).
Definition upd_mutexes (f : gmap nat bool → gmap nat bool) (w : World) : World :=
  MkWorld (stores w) (gomaps w) (tensor_arrays w) (string_arrays w) (f (mutexes w))
          (ctensors w) (storage w) (grad_enabled w) (copy_log w) (files w)
          (cuda_device_count w).
Definition upd_ctensors (f : gmap nat nat → gmap nat nat) (w : World) : World :=
  MkWorld (stores w) (gomaps w) (tensor_arrays w) (string_arrays w) (mutexes w)
          (f (ctensors w)) (storage w) (grad_enabled w) (copy_log w) (files w)
          (cuda_device_count w).
Definition upd_storage (f : gmap nat Impl → gmap nat Impl) (w : World) : World :=
  MkWorld (stores w) (gomaps w) (tensor_arrays w) (string_arrays w) (mutexes w)
          (ctensors w) (f (storage w)) (grad_enabled w) (copy_log w) (files w)
          (cuda_device_count w).
Definition set_grad_enabled (b : bool) (w : World) : World :=
  MkWorld (stores w) (gomaps w) (tensor_arrays w) (string_arrays w) (mutexes w)
          (ctensors w) (storage w) b (copy_log w) (files w)
          (cuda_device_count w).
Definition log_copy (e : nat * nat * bool) (w : World) : World :=
  MkWorld (stores w) (gomaps w) (tensor_arrays w) (string_arrays w) (mutexes w)
          (ctensors w) (storage w) (grad_enabled w) (copy_log w ++ [e]) (files w)
          (cuda_device_count w).

Definition upd_files (f : gmap string (list (string * Impl)) → gmap string (list (string * Impl)))
    (w : World) : World :=
  MkWorld (stores w) (gomaps w) (tensor_arrays w) (string_arrays w) (mutexes w)
          (ctensors w) (storage w) (grad_enabled w) (copy_log w) (f (files w))
          (cuda_device_count w).

Definition empty_world : World :=
  MkWorld ∅ ∅ ∅ ∅ ∅ ∅ ∅ true [] ∅ 0.

(** ** Outcomes

    A call either returns to its caller (Go [error] values are ordinary
    results) or ends the process: [log.Fatalf], a nil dereference, or a
    [Lock] that can never be granted.  The world at that point is kept. *)

Inductive fatal :=
  | FatalSubName (str : string)       (* "Sub name cannot contain ..." *)
  | FatalTensor                        (* a Must* call or log.Fatal of package ts *)
  | FatalAdd                           (* "Path 'add' method error" *)
  | FatalGetOrAdd                      (* "Path - call method 'getOrAddWithLock' error" *)
  | FatalCall (fn : string)            (* "Path - '<fn>' method call error" *)
  | FatalUnlock.                       (* "sync: unlock of unlocked mutex" *)

Inductive abort :=
  | LogFatal (f : fatal)
  | NilPointer
  | Deadlock.

Inductive res (A : Type) :=
  | Ret (a : A) (w : World)
  | Abort (k : abort) (w : World).
Arguments Ret {A} a w.
Arguments Abort {A} k w.

Definition M (A : Type) : Type := World → res A.

Definition ret {A} (a : A) : M A := λ w, Ret a w.
Definition bind {A B} (m : M A) (k : A → M B) : M B :=
  λ w, match m w with
       | Ret a w' => k a w'
       | Abort e w' => Abort e w'
       end.
Definition die {A} (k : abort) : M A := λ w, Abort k w.
Definition get_world : M World := λ w, Ret w w.
Definition modify (f : World → World) : M unit := λ w, Ret tt (f w).

Notation "'let*' x ':=' m 'in' k" := (bind m (λ x, k))
  (at level 10, x pattern, m at level 100, k at level 200, only parsing).
Notation "m ';;' k" := (bind m (λ _, k))
  (at level 100, k at level 200, right associativity, only parsing).

Definition world_of {A} (r : res A) : World :=
  match r with Ret _ w => w | Abort _ w => w end.

(** Go errors, one constructor per [fmt.Errorf] site. *)
Inductive error :=
  | ErrLoadFile (filepath : string)          (* from ts.LoadMultiWithDevice *)
  | ErrCannotFindTensor (name : string)      (* Load: "Cannot find tensor with name: ..." *)
  | ErrCopyCannotFind (name : string)        (* Copy: "cannot find ... in the source var store" *)
  | ErrSetRequiresGrad
  | ErrTo.

(** Loops: [for _, x := range l] with a loop-carried value, and the
    same with a [return] inside the body ([Some r] leaves the loop). *)
Fixpoint for_each {A S} (l : list A) (body : S → A → M S) (s : S) : M S :=
  match l with
  | [] => ret s
  | x :: l' => let* s' := body s x in for_each l' body s'
  end.

Fixpoint loop_until {A R} (l : list A) (body : A → M (option R)) : M (option R) :=
  match l with
  | [] => ret None
  | x :: l' =>
      let* r := body x in
      match r with
      | Some v => ret (Some v)
      | None => loop_until l' body
      end
  end.

(** ** sync.Mutex, single goroutine: a [Lock] on a held mutex never returns *)

Definition Lock (m : nat) : M unit := λ w,
  match mutexes w !! m with
  | Some false => Ret tt (upd_mutexes <[m := true]> w)
  | Some true => Abort Deadlock w
  | None => Abort NilPointer w
  end.

Definition Unlock (m : nat) : M unit := λ w,
  match mutexes w !! m with
  | Some true => Ret tt (upd_mutexes <[m := false]> w)
  | Some false => Abort (LogFatal FatalUnlock) w
  | None => Abort NilPointer w
  end.

(** [m.Lock(); defer m.Unlock()] at the head of a function: the unlock
    runs on every return of the body, not when the process exits. *)
Definition locked {A} (m : nat) (body : M A) : M A :=
  Lock m;; let* r := body in Unlock m;; ret r.

(** ** The tensor handle contract *)

Definition impl_of (w : World) (t : Tensor) : option (nat * Impl) :=
  c ← ctensor t; s ← ctensors w !! c; i ← storage w !! s; Some (s, i).

Definition new_handle (s : nat) : M Tensor := λ w,
  let c := fresh (dom (ctensors w)) in
  Ret (MkTensor (Some c)) (upd_ctensors <[c := s]> w).

Definition new_tensor (i : Impl) : M Tensor := λ w,
  let s := fresh (dom (storage w)) in
  new_handle s (upd_storage <[s := i]> w).

Definition set_grad (b : bool) (i : Impl) : Impl :=
  MkImpl (values i) (shape i) (kind i) (impl_device i) b.
Definition set_values (v : list Z) (i : Impl) : Impl :=
  MkImpl v (shape i) (kind i) (impl_device i) (requires_grad i).
Definition on_device (d : Device) (i : Impl) : Impl :=
  MkImpl (values i) (shape i) (kind i) d (requires_grad i).

(** Modelled from the spec: the tensor library's shallow clone, "a new
    handle referencing the same underlying storage as another handle". *)
Definition MustShallowClone (t : Tensor) : M Tensor := λ w,
  match impl_of w t with
  | Some (s, _) => new_handle s w
  | None => Abort NilPointer w
  end.

Definition supports_grad (k : DType) : bool :=
  match k with Float | Double => true | _ => false end.

(** Modelled from the spec: the tensor library's gradient toggle, which
    "returns handle or fails if unsupported for that tensor".  The flag sits
    on the storage: [Freeze] drops the returned handle and relies on it. *)
Definition SetRequiresGrad (t : Tensor) (rb : bool) : M (Tensor * option error) := λ w,
  match impl_of w t with
  | Some (s, i) =>
      if rb && negb (supports_grad (kind i)) then Ret (nil_tensor, Some ErrSetRequiresGrad) w
      else (let* r := new_handle s in ret (r, None)) (upd_storage <[s := set_grad rb i]> w)
  | None => Abort NilPointer w
  end.

(** Modelled from the spec: the tensor library's in-place copy, "mutate
    target storage from source values, shapes must be compatible" (read
    here as equal shapes; the library exits on an error). *)
Definition Copy_ (dst src : Tensor) : M unit := λ w,
  match impl_of w dst, impl_of w src with
  | Some (d, di), Some (s, si) =>
      if decide (shape di = shape si) then
        Ret tt (log_copy (d, s, grad_enabled w)
                  (upd_storage <[d := set_values (values si) di]> w))
      else Abort (LogFatal FatalTensor) w
  | _, _ => Abort NilPointer w
  end.

(** Modelled from the spec: the tensor library's [NoGrad], the
    "gradient-tracking-disabled context": the mode is switched off
    around [fn] and put back afterwards. *)
Definition NoGrad (fn : M unit) : M unit :=
  let* w := get_world in
  let prev := grad_enabled w in
  modify (set_grad_enabled false);; fn;; modify (set_grad_enabled prev).

Definition device_ok (w : World) (d : Device) : bool :=
  match d with CPU => true | Cuda n => n <? cuda_device_count w end.

(** Modelled from the spec: the tensor library's [To], the "cast to this
    Store's device": a tensor with the same values on the device. *)
Definition To (t : Tensor) (dev : Device) : M (Tensor * option error) := λ w,
  match impl_of w t with
  | Some (_, i) =>
      if device_ok w dev then (let* r := new_tensor (on_device dev i) in ret (r, None)) w
      else Ret (nil_tensor, Some ErrTo) w
  | None => Abort NilPointer w
  end.

(** Modelled from the spec: the persistence format, "an ordered sequence
    of (name, handle) pairs" read back from a file onto a device. *)
Fixpoint load_entries (dev : Device) (es : list (string * Impl)) : M (list NamedTensor) :=
  match es with
  | [] => ret []
  | (n, i) :: es' =>
      let* t := new_tensor (on_device dev i) in
      let* r := load_entries dev es' in
      ret (MkNamed n t :: r)
  end.

Definition LoadMultiWithDevice (filepath : string) (dev : Device)
  : M (list NamedTensor * option error) := λ w,
  match files w !! filepath with
  | Some es => (let* r := load_entries dev es in ret (r, None)) w
  | None => Ret ([], Some (ErrLoadFile filepath)) w
  end.

(** Modelled from the spec: the initializer contract, "a pure function
    (dims, device) -> TensorHandle"; the store is agnostic to the values. *)
Record Init := MkInit { init_values : list Z → list Z }.

Definition numel (dims : list Z) : nat := Z.to_nat (foldr Z.mul 1%Z dims).

Definition InitTensor (ini : Init) (dims : list Z) (dev : Device) : M Tensor :=
  new_tensor (MkImpl (init_values ini dims) dims Float dev false).

Definition NewConstInit (v : Z) : Init := MkInit (λ dims, replicate (numel dims) v).

(** [ts.Zeros], [ts.Ones] (value and error) and their [Must] forms. *)
Definition ts_Zeros (dims : list Z) (k : DType) (dev : Device) : M (Tensor * option error) :=
  let* t := new_tensor (MkImpl (replicate (numel dims) 0%Z) dims k dev false) in ret (t, None).
Definition ts_Ones (dims : list Z) (k : DType) (dev : Device) : M (Tensor * option error) :=
  let* t := new_tensor (MkImpl (replicate (numel dims) 1%Z) dims k dev false) in ret (t, None).
Definition ts_Must (m : M (Tensor * option error)) : M Tensor :=
  let* (t, err) := m in
  match err with Some _ => die (LogFatal FatalTensor) | None => ret t end.

(** ** Access to the shared objects *)

(** [*vs]: reading through a [*VarStore]. *)
Definition deref (vs : nat) : M VarStore := λ w,
  match stores w !! vs with
  | Some v => Ret v w
  | None => Abort NilPointer w
  end.

(** Reading a map; a nil map reads as empty. *)
Definition read_map (a : nat) : M (gmap string Tensor) := λ w, Ret (gomaps w !!! a) w.

(** [m[k] = v]; assignment to an entry of a nil map panics. *)
Definition map_store (a : nat) (k : string) (v : Tensor) : M unit := λ w,
  match gomaps w !! a with
  | Some m => Ret tt (upd_gomaps <[a := <[k := v]> m]> w)
  | None => Abort NilPointer w
  end.

(** [for k, v := range m]: Go leaves the order unspecified, so the order
    in which the keys come is an argument. *)
Definition range_map (m : gmap string Tensor) (order : list string) : list (string * Tensor) :=
  omap (λ k, (λ v, (k, v)) <$> m !! k) order.

(** [order] is a possible iteration order of [m]. *)
Definition range_order (m : gmap string Tensor) (order : list string) : Prop :=
  NoDup order ∧ ∀ k, k ∈ order ↔ is_Some (m !! k).

Definition append_tensor (s : slice) (x : Tensor) : M slice := λ w,
  let '(s', h) := slice_append nil_tensor (tensor_arrays w) s x in
  Ret s' (set_tensor_arrays h w).

Definition append_string (s : slice) (x : string) : M slice := λ w,
  let '(s', h) := slice_append EmptyString (string_arrays w) s x in
  Ret s' (set_string_arrays h w).

(** [s[i]] for [i] in range, read when the loop reaches it. *)
Definition index_tensor (s : slice) (i : nat) : M Tensor := λ w,
  Ret ((tensor_arrays w !!! s_arr s) !!! i) w.

(** [vs.Vars.TrainableVariables = s], through the pointer. *)
Definition set_TrainableVariables (vs : nat) (s : slice) : M unit := λ w,
  match stores w !! vs with
  | Some v =>
      Ret tt (upd_stores
                <[vs := MkVarStore (device v)
                          (MkVariables (mutex (Vars v)) (NamedVariables (Vars v)) s)]> w)
  | None => Abort NilPointer w
  end.

(** ** VarStore *)

(** [NewVarStore(device)] returns the struct; [new_var] is the variable
    the caller keeps it in, whose address the methods receive. *)
Definition NewVarStore (dev : Device) : M VarStore := λ w,
  let mu := fresh (dom (mutexes w)) in
  let mp := fresh (dom (gomaps w)) in
  Ret (MkVarStore dev (MkVariables mu mp empty_slice))
      (upd_gomaps <[mp := ∅]> (upd_mutexes <[mu := false]> w)).

Definition new_var (v : VarStore) : M nat := λ w,
  let a := fresh (dom (stores w)) in
  Ret a (upd_stores <[a := v]> w).

Definition VarStore_Device (vs : nat) : M Device :=
  let* v := deref vs in ret (device v).

Definition VarStore_Len (vs : nat) : M nat :=
  let* v := deref vs in
  locked (mutex (Vars v))
    (let* m := read_map (NamedVariables (Vars v)) in
     ret (size m)).

Definition VarStore_IsEmpty (vs : nat) : M bool :=
  let* v := deref vs in
  locked (mutex (Vars v))
    (let* m := read_map (NamedVariables (Vars v)) in
     ret (bool_decide (size m = 0))).

Definition VarStore_TrainableVariables (vs : nat) : M slice :=
  let* v := deref vs in
  locked (mutex (Vars v))
    (let* v := deref vs in
     let retVal := TrainableVariables (Vars v) in
     for_each (seq 0 (s_len (TrainableVariables (Vars v))))
       (λ retVal i,
          let* t := index_tensor (TrainableVariables (Vars v)) i in
          let* c := MustShallowClone t in
          append_tensor retVal c)
       retVal).

Definition VarStore_Variables (vs : nat) (order : list string) : M (gmap string Tensor) :=
  let* v := deref vs in
  locked (mutex (Vars v))
    (let* m := read_map (NamedVariables (Vars v)) in
     for_each (range_map m order)
       (λ retVal kv,
          let* c := MustShallowClone kv.2 in
          ret (<[kv.1 := c]> retVal))
       ∅).

Definition VarStore_Root (vs : nat) : Path := MkPath empty_slice vs.

Definition VarStore_Load (vs : nat) (filepath : string) : M (option error) :=
  let* v := deref vs in
  let* (namedTensors, err) := LoadMultiWithDevice filepath (device v) in
  match err with
  | Some e => ret (Some e)
  | None =>
      locked (mutex (Vars v))
        (loop_until namedTensors
           (λ namedTs,
              let* m := read_map (NamedVariables (Vars v)) in
              match m !! nt_Name namedTs with
              | None => ret (Some (ErrCannotFindTensor (nt_Name namedTs)))
              | Some currTs =>
                  NoGrad (Copy_ currTs (nt_Tensor namedTs));;
                  ret None
              end))
  end.

Definition VarStore_LoadPartial (vs : nat) (filepath : string)
  : M (list string * option error) :=
  let* v := deref vs in
  let* (namedTensors, err) := LoadMultiWithDevice filepath (device v) in
  match err with
  | Some e => ret ([], Some e)
  | None =>
      locked (mutex (Vars v))
        (let* missingVariables :=
           for_each namedTensors
             (λ missingVariables namedTs,
                let* m := read_map (NamedVariables (Vars v)) in
                let (currTs, missingVariables) :=
                  match m !! nt_Name namedTs with
                  | None => (nil_tensor, missingVariables ++ [nt_Name namedTs])
                  | Some t => (t, missingVariables)
                  end in
                NoGrad (Copy_ currTs (nt_Tensor namedTs));;
                ret missingVariables)
             [] in
         ret (missingVariables, None))
  end.

(** [src] is passed by value; [order1] and [order2] are the orders of the
    two [range] statements over the destination map. *)
Definition VarStore_Copy (vs : nat) (src : VarStore) (order1 order2 : list string)
  : M (option error) :=
  let* v := deref vs in
  locked (mutex (Vars v))
    (locked (mutex (Vars src))
       (let* srcNamedVariables := read_map (NamedVariables (Vars src)) in
        let dev := device v in
        let* m := read_map (NamedVariables (Vars v)) in
        let* err :=
          loop_until (range_map m order1)
            (λ kv,
               match srcNamedVariables !! kv.1 with
               | None => ret (Some (ErrCopyCannotFind kv.1))
               | Some _ => ret None
               end) in
        match err with
        | Some e => ret (Some e)
        | None =>
            loop_until (range_map m order2)
              (λ kv,
                 let srcTs := default nil_tensor (srcNamedVariables !! kv.1) in
                 let* (srcDevTs, err) := To srcTs dev in
                 match err with
                 | Some e => ret (Some e)
                 | None => NoGrad (Copy_ kv.2 srcDevTs);; ret None
                 end)
        end)).

(** ** Path *)

Definition Path_Sub (p : Path) (str : string) : M Path :=
  if Contains str SEP then die (LogFatal (FatalSubName str))
  else
    let path0 := path p in
    let* path1 := append_string path0 str in
    ret (MkPath path1 (varstore p)).

Definition Path_Device (p : Path) : M Device :=
  let* v := deref (varstore p) in ret (device v).

(** The segments a path header currently reads from its array. *)
Definition segments (w : World) (p : Path) : list string :=
  slice_elems (string_arrays w) (path p).

Definition Path_getpath (p : Path) (name : string) : M string :=
  if Contains name SEP then die (LogFatal (FatalSubName name))
  else
    if s_len (path p) =? 0 then ret name
    else
      let* w := get_world in
      ret (Join (segments w p) SEP +:+ SEP +:+ name).

(** What [getpath] returns for a name without the separator. *)
Definition qualified (w : World) (p : Path) (name : string) : string :=
  if s_len (path p) =? 0 then name
  else Join (segments w p) SEP +:+ SEP +:+ name.

Definition Path_add (p : Path) (name : string) (newTs : Tensor) (trainable : bool)
  : M Tensor :=
  let* path := Path_getpath p name in
  let* vs := deref (varstore p) in
  locked (mutex (Vars vs))
    (let* m := read_map (NamedVariables (Vars vs)) in
     let path :=
       if bool_decide (is_Some (m !! path))
       then path +:+ "__" +:+ Itoa (size m)
       else path in
     let* tensor :=
       if trainable then
         let* c := MustShallowClone newTs in
         let* (t, err) := SetRequiresGrad c true in
         match err with
         | Some _ => die (LogFatal FatalAdd)
         | None => ret t
         end
       else MustShallowClone newTs in
     (if trainable then
        let* vs := deref (varstore p) in
        let* s := append_tensor (TrainableVariables (Vars vs)) tensor in
        set_TrainableVariables (varstore p) s
      else ret tt);;
     map_store (NamedVariables (Vars vs)) path tensor;;
     ret tensor).

(** The two halves of [getOrAddWithLock]: the lookup under the
    qualified name, and the creation that follows a failed lookup.
    [variables] is the caller's copy of the [Variables] struct. *)
Definition getOrAdd_lookup (p : Path) (name : string) (variables : Variables)
  : M (string * option Tensor) :=
  let* path := Path_getpath p name in
  let* m := read_map (NamedVariables variables) in
  ret (path, m !! path).

Definition getOrAdd_insert (path : string) (tensor : Tensor) (trainable : bool)
    (variables : Variables) : M Tensor :=
  let* ttensor :=
    if trainable then
      let* (t, err) := SetRequiresGrad tensor true in
      match err with
      | Some _ => die (LogFatal FatalGetOrAdd)
      | None => ret t
      end
    else ret tensor in
  let* variables :=
    if trainable then
      let* s := append_tensor (TrainableVariables variables) ttensor in
      ret (MkVariables (mutex variables) (NamedVariables variables) s)
    else ret variables in
  map_store (NamedVariables variables) path ttensor;;
  ret ttensor.

Definition Path_getOrAddWithLock (p : Path) (name : string) (tensor : Tensor)
    (trainable : bool) (variables : Variables) : M Tensor :=
  let* (path, found) := getOrAdd_lookup p name variables in
  match found with
  | Some v => ret v
  | None => getOrAdd_insert path tensor trainable variables
  end.

Definition Path_ZerosNoTrain (p : Path) (name : string) (dims : list Z) : M Tensor :=
  let* device := Path_Device p in
  let* (z, err) := ts_Zeros dims Float device in
  match err with
  | Some _ => die (LogFatal (FatalCall "ZerosNoTrain"))
  | None => Path_add p name z false
  end.

Definition Path_OnesNoTrain (p : Path) (name : string) (dims : list Z) : M Tensor :=
  let* device := Path_Device p in
  let* (z, err) := ts_Ones dims Float device in
  match err with
  | Some _ => die (LogFatal (FatalCall "OnesNoTrain"))
  | None => Path_add p name z false
  end.

Definition Path_NewVar (p : Path) (name : string) (dims : list Z) (ini : Init) : M Tensor :=
  let* vs := deref (varstore p) in
  let* v := InitTensor ini dims (device vs) in
  Path_add p name v true.

Definition Path_Zeros (p : Path) (name : string) (dims : list Z) : M Tensor :=
  Path_NewVar p name dims (NewConstInit 0).

Definition Path_Ones (p : Path) (name : string) (dims : list Z) : M Tensor :=
  Path_NewVar p name dims (NewConstInit 1).

Definition Path_Entry (p : Path) (name : string) : M Entry :=
  let* vs := deref (varstore p) in
  locked (mutex (Vars vs))
    (ret (MkEntry name (varstore p) p)).

(** ** Entry *)

(** [*e.variables]: the [Variables] struct, copied into the argument. *)
Definition deref_variables (a : nat) : M Variables :=
  let* v := deref a in ret (Vars v).

Definition Entry_OrVar (e : Entry) (dims : list Z) (init : Init) : M Tensor :=
  let* vs := deref (varstore (entry_path e)) in
  let* v := InitTensor init dims (device vs) in
  let* variables := deref_variables (variables e) in
  Path_getOrAddWithLock (entry_path e) (name e) v true variables.

Definition Entry_OrOnes (e : Entry) (dims : list Z) : M Tensor :=
  Entry_OrVar e dims (NewConstInit 1).

Definition Entry_OrZeros (e : Entry) (dims : list Z) : M Tensor :=
  Entry_OrVar e dims (NewConstInit 0).

Definition Entry_OrOnesNoTrain (e : Entry) (dims : list Z) : M Tensor :=
  let* device := Path_Device (entry_path e) in
  let* o := ts_Must (ts_Ones dims Float device) in
  let* variables := deref_variables (variables e) in
  Path_getOrAddWithLock (entry_path e) (name e) o true variables.

Definition Entry_OrZerosNoTrain (e : Entry) (dims : list Z) : M Tensor :=
  let* device := Path_Device (entry_path e) in
  let* z := ts_Must (ts_Zeros dims Float device) in
  let* variables := deref_variables (variables e) in
  Path_getOrAddWithLock (entry_path e) (name e) z true variables.

(** ** Goroutines calling [Entry.OrVar]

    [OrVar] and [getOrAddWithLock] acquire no mutex ([Path.Entry] locks
    and unlocks before it returns the entry), so between the map lookup
    and the creation that follows a failed lookup another goroutine may
    run.  A goroutine is a call in one of these stages; a schedule says
    which goroutine takes its next stage. *)

Inductive goroutine :=
  | Calling (e : Entry) (dims : list Z) (init : Init)
  | Inserting (path : string) (tensor : Tensor) (variables : Variables)
  | Returned (t : Tensor)
  | Exited (k : abort).

(** [OrVar] up to and including the lookup of [getOrAddWithLock]. *)
Definition OrVar_lookup (e : Entry) (dims : list Z) (init : Init)
  : M (Tensor * Variables * (string * option Tensor)) :=
  let* vs := deref (varstore (entry_path e)) in
  let* v := InitTensor init dims (device vs) in
  let* variables := deref_variables (variables e) in
  let* r := getOrAdd_lookup (entry_path e) (name e) variables in
  ret (v, variables, r).

Definition go_step (g : goroutine) (w : World) : goroutine * World :=
  match g with
  | Calling e dims init =>
      match OrVar_lookup e dims init w with
      | Ret (_, _, (_, Some found)) w' => (Returned found, w')
      | Ret (v, variables, (path, None)) w' => (Inserting path v variables, w')
      | Abort k w' => (Exited k, w')
      end
  | Inserting path tensor variables =>
      match getOrAdd_insert path tensor true variables w with
      | Ret t w' => (Returned t, w')
      | Abort k w' => (Exited k, w')
      end
  | Returned _ | Exited _ => (g, w)
  end.

Fixpoint run_schedule (sched : list nat) (gs : list goroutine) (w : World)
  : list goroutine * World :=
  match sched with
  | [] => (gs, w)
  | i :: sched' =>
      match gs !! i with
      | Some g =>
          let '(g', w') := go_step g w in
          run_schedule sched' (<[i := g']> gs) w'
      | None => run_schedule sched' gs w
      end
  end.

(** ** What a caller can observe of a store and of a handle *)

Definition named_of (w : World) (vs : nat) : gmap string Tensor :=
  match stores w !! vs with
  | Some v => gomaps w !!! NamedVariables (Vars v)
  | None => ∅
  end.

Definition trainable_of (w : World) (vs : nat) : list Tensor :=
  match stores w !! vs with
  | Some v => slice_elems (tensor_arrays w) (TrainableVariables (Vars v))
  | None => []
  end.

Definition sid_of (w : World) (t : Tensor) : option nat := fst <$> impl_of w t.
Definition values_of (w : World) (t : Tensor) : option (list Z) :=
  (λ x, values x.2) <$> impl_of w t.
Definition grad_of (w : World) (t : Tensor) : option bool :=
  (λ x, requires_grad x.2) <$> impl_of w t.

(** The shape the [Or...] methods share: make the initial tensor on the
    store's device, copy [*e.variables], call [getOrAddWithLock]. *)
Definition get_or_create (e : Entry) (mk : Device → M Tensor) : M Tensor :=
  let* vs := deref (varstore (entry_path e)) in
  let* v := mk (device vs) in
  let* variables := deref_variables (variables e) in
  Path_getOrAddWithLock (entry_path e) (name e) v true variables.

(** Two calls in sequence resolve to the same variable of the store. *)
Definition twice_same (call : M Tensor) (e : Entry) (w : World) : Prop :=
  ∃ t w1 w2 n,
    call w = Ret t w1
    ∧ call w1 = Ret t w2
    ∧ named_of w1 (variables e) !! qualified w (entry_path e) (name e) = Some t
    ∧ named_of w2 (variables e) = named_of w1 (variables e)
    ∧ VarStore_Len (variables e) w1 = Ret n w1
    ∧ VarStore_Len (variables e) w2 = Ret n w2.

(** The registry proper: the store structs and the maps. *)
Definition registry (w : World) : gmap nat VarStore * gmap nat (gmap string Tensor) :=
  (stores w, gomaps w).

(** [m] leaves the observation [f] of the world as it was, however it ends. *)
Definition keeps {X A} (f : World → X) (m : M A) : Prop :=
  ∀ w, f (world_of (m w)) = f w.

(** What a copy may not touch: the arrays behind the slices, the block
    of every handle, and of every block everything but the values. *)
Definition meta (i : Impl) : list Z * DType * Device * bool :=
  (shape i, kind i, impl_device i, requires_grad i).

Definition tensors_kept (w w' : World) : Prop :=
  tensor_arrays w' = tensor_arrays w
  ∧ ctensors w ⊆ ctensors w'
  ∧ ∀ s i, storage w !! s = Some i → ∃ i', storage w' !! s = Some i' ∧ meta i' = meta i.

(** [m] changes values only, however it ends. *)
Definition only_values {A} (m : M A) : Prop :=
  ∀ w, tensors_kept w (world_of (m w)).

(** ** The effect of the copy loops on the storage blocks

    One [NoGrad(Copy_(dst, src))] between blocks [d] and [s], and a
    sequence of them; the world after such a sequence. *)

Definition copy_step (σ : gmap nat Impl) (p : nat * nat) : gmap nat Impl :=
  match σ !! p.1, σ !! p.2 with
  | Some di, Some si => <[p.1 := set_values (values si) di]> σ
  | _, _ => σ
  end.

Definition copied (ps : list (nat * nat)) (w : World) : World :=
  MkWorld (stores w) (gomaps w) (tensor_arrays w) (string_arrays w) (mutexes w)
          (ctensors w) (foldl copy_step (storage w) ps) (grad_enabled w)
          (copy_log w ++ ((λ p, (p.1, p.2, false)) <$> ps)) (files w)
          (cuda_device_count w).

(** Block [p.1] exists and has the shape of block [p.2]. *)
Definition fits (σ : gmap nat Impl) (p : nat * nat) : Prop :=
  is_Some (σ !! p.1) ∧ shape <$> σ !! p.1 = shape <$> σ !! p.2.

(** The block a handle points to, whatever the block holds. *)
Definition block_of (w : World) (t : Tensor) : option nat :=
  c ← ctensor t; ctensors w !! c.


(** ** Concrete runs *)

(** [vs := nn.NewVarStore(gotch.CPU)] *)
Definition fresh_store : M nat :=
  let* v := NewVarStore CPU in new_var v.

(** [vs.Root().Entry("w").OrZeros([]int64{2, 2})] on a new store *)
Definition or_zeros_on_empty : M (nat * Tensor) :=
  let* vs := fresh_store in
  let* e := Path_Entry (VarStore_Root vs) "w" in
  let* t := Entry_OrZeros e [2; 2]%Z in
  ret (vs, t).

(** the same variable created by [vs.Root().Zeros("w", []int64{2, 2})] *)
Definition zeros_on_empty : M (nat * Tensor) :=
  let* vs := fresh_store in
  let* t := Path_Zeros (VarStore_Root vs) "w" [2; 2]%Z in
  ret (vs, t).

(** [vs.TrainableVariables()] after it *)
Definition trainable_snapshot : M (nat * Tensor * slice) :=
  let* (vs, t) := zeros_on_empty in
  let* s := VarStore_TrainableVariables vs in
  ret (vs, t, s).

(** a store with variables [a] and [b], and a file that holds only [a] *)
Definition file_a : list (string * Impl) :=
  [("a", MkImpl [7; 7]%Z [2]%Z Float CPU false)].

Definition store_a_b : M (nat * Tensor * Tensor) :=
  let* vs := fresh_store in
  let* a := Path_Zeros (VarStore_Root vs) "a" [2]%Z in
  let* b := Path_Zeros (VarStore_Root vs) "b" [2]%Z in
  modify (upd_files <["f.ot" := file_a]>);;
  ret (vs, a, b).

Definition load_partial_a : M (nat * Tensor * Tensor * (list string * option error)) :=
  let* (vs, a, b) := store_a_b in
  let* r := VarStore_LoadPartial vs "f.ot" in
  ret (vs, a, b, r).

(** a store with only [b], loading the same file *)
Definition load_partial_unknown : M (list string * option error) :=
  let* vs := fresh_store in
  let* b := Path_Zeros (VarStore_Root vs) "b" [2]%Z in
  modify (upd_files <["f.ot" := file_a]>);;
  VarStore_LoadPartial vs "f.ot".

(** [Zeros("w", ...)] twice on the root path *)
Definition zeros_twice : M (nat * Tensor * Tensor) :=
  let* vs := fresh_store in
  let* t1 := Path_Zeros (VarStore_Root vs) "w" [1]%Z in
  let* t2 := Path_Zeros (VarStore_Root vs) "w" [1]%Z in
  ret (vs, t1, t2).

(** two goroutines about to call [OrZeros] on the same entry *)
Definition two_callers : M (nat * list goroutine) :=
  let* vs := fresh_store in
  let* e := Path_Entry (VarStore_Root vs) "shared" in
  ret (vs, [Calling e [4]%Z (NewConstInit 0); Calling e [4]%Z (NewConstInit 0)]).

(** a new store, and the store after [Zeros("w")] with one more tensor
    allocated by the caller *)
Definition new_store_world : World := world_of (fresh_store empty_world).

Definition store_w_world : World :=
  world_of ((zeros_on_empty;; ts_Must (ts_Zeros [1]%Z Float CPU)) empty_world).

Definition store_a_b_world : World := world_of (store_a_b empty_world).

(** the store after [Zeros("w")] and a tensor of ones of the same shape *)
Definition store_w_ones_world : World :=
  world_of ((zeros_on_empty;; ts_Must (ts_Ones [2; 2]%Z Float CPU)) empty_world).

(** a store with [a], and a second store with [a] and [b] *)
Definition two_stores : M (nat * nat) :=
  let* d := fresh_store in
  let* _ := Path_Zeros (VarStore_Root d) "a" [2]%Z in
  let* sv := NewVarStore CPU in
  let* s := new_var sv in
  let* _ := Path_Ones (VarStore_Root s) "a" [2]%Z in
  let* _ := Path_Ones (VarStore_Root s) "b" [2]%Z in
  ret (d, s).

Definition two_stores_world : World := world_of (two_stores empty_world).

(** ** The rest of the package: lookup, freezing, copies of a tensor *)

(** Modelled from the spec: the tensor library's [ShallowClone] with an
    error result, as [Path.Get] returns it. *)
Definition ts_ShallowClone (t : Tensor) : M (Tensor * option error) :=
  let* c := MustShallowClone t in ret (c, None).

(** Modelled from the spec: the tensor library's "size/shape query". *)
Definition ts_Size (t : Tensor) : M (list Z * option error) := λ w,
  match impl_of w t with
  | Some (_, i) => Ret (shape i, None) w
  | None => Abort NilPointer w
  end.

(** The error of [Path.Get]: "Cannot find variable for name: ...". *)
Inductive get_error :=
  | ErrGetCannotFind (name : string)
  | ErrGetClone (e : error).

(** [Path.Get]: the literal [name] is looked up, the path is not used. *)
Definition Path_Get (p : Path) (name : string) : M (Tensor * option get_error) :=
  let* vs := deref (varstore p) in
  locked (mutex (Vars vs))
    (let* m := read_map (NamedVariables (Vars vs)) in
     match m !! name with
     | None => ret (nil_tensor, Some (ErrGetCannotFind name))
     | Some v =>
         let* (c, err) := ts_ShallowClone v in
         ret (c, ErrGetClone <$> err)
     end).

(** The loop shared by [Freeze] and [Unfreeze]: [SetRequiresGrad(b)] on
    every element of the trainable slice, the returned handle dropped;
    an error ends the process ("Freeze() Error", "Unfreeze() Error"). *)
Definition set_trainable_grad (fn : string) (b : bool) (vs : nat) : M unit :=
  let* v := deref vs in
  locked (mutex (Vars v))
    (let* v := deref vs in
     for_each (seq 0 (s_len (TrainableVariables (Vars v))))
       (λ _ i,
          let* t := index_tensor (TrainableVariables (Vars v)) i in
          let* (_, err) := SetRequiresGrad t b in
          match err with
          | Some _ => die (LogFatal (FatalCall fn))
          | None => ret tt
          end)
       tt).

Definition VarStore_Freeze (vs : nat) : M unit := set_trainable_grad "Freeze" false vs.
Definition VarStore_Unfreeze (vs : nat) : M unit := set_trainable_grad "Unfreeze" true vs.

(** The blocks of a list of handles, and the gradient flag set on them. *)
Definition blocks_of (w : World) (ts : list Tensor) : list nat :=
  omap (block_of w) ts.

Definition grad_step (b : bool) (σ : gmap nat Impl) (s : nat) : gmap nat Impl :=
  match σ !! s with
  | Some i => <[s := set_grad b i]> σ
  | None => σ
  end.

Definition Path_VarCopy (p : Path) (name : string) (t : Tensor) : M Tensor :=
  let* (size, err) := ts_Size t in
  match err with
  | Some _ => die (LogFatal (FatalCall "VarCopy"))
  | None =>
      let* v := Path_Zeros p name size in
      NoGrad (Copy_ v t);;
      ret v
  end.

Definition Entry_OrVarCopy (e : Entry) (tensor : Tensor) : M Tensor :=
  let* (size, err) := ts_Size tensor in
  match err with
  | Some _ => die (LogFatal (FatalCall "OrVarCopy"))
  | None =>
      let* v := Entry_OrZeros e size in
      NoGrad (Copy_ v tensor);;
      ret v
  end.

(** a path three segments deep, from which two sub-paths are taken *)
Definition deep_path : M Path :=
  let* vs := fresh_store in
  let* x := Path_Sub (VarStore_Root vs) "x" in
  let* y := Path_Sub x "y" in
  Path_Sub y "z".

Definition deep_path_world : World := world_of (deep_path empty_world).

(** * Properties *)

(** ** Strings *)

Lemma string_app_assoc (s1 s2 s3 : string) :
  (s1 +:+ s2) +:+ s3 = s1 +:+ s2 +:+ s3.
Proof.
  induction s1 as [|a s1 IH]; [done|].
  change (String a ((s1 +:+ s2) +:+ s3) = String a (s1 +:+ s2 +:+ s3)).
  by rewrite IH.
Qed.

Lemma concat_snoc (sep x : string) (l : list string) :
  l ≠ [] → String.concat sep (l ++ [x]) = String.concat sep l +:+ sep +:+ x.
Proof.
  induction l as [|y l IH]; [done|]. intros _.
  destruct l as [|z l].
  - reflexivity.
  - change (String.concat sep ((y :: z :: l) ++ [x]))
      with (y +:+ sep +:+ String.concat sep ((z :: l) ++ [x])).
    rewrite IH by done.
    change (String.concat sep (y :: z :: l))
      with (y +:+ sep +:+ String.concat sep (z :: l)).
    by rewrite !string_app_assoc.
Qed.

(** ** Slices *)

Section slice_facts.
Context {A : Type} (zero : A).
Implicit Types (h : gmap nat (list A)) (s : slice) (x : A).

Lemma slice_elems_length h s :
  slice_ok h s → length (slice_elems h s) = s_len s.
Proof.
  intros [Hlen Hcap]. unfold slice_elems. rewrite length_take_le; lia.
Qed.

Lemma slice_append_elems h s x :
  slice_ok h s →
  slice_elems (slice_append zero h s x).2 (slice_append zero h s x).1
  = slice_elems h s ++ [x].
Proof.
  intros Hok. pose proof (slice_elems_length h s Hok) as Hl.
  destruct Hok as [Hlen Hcap]. unfold slice_append.
  destruct (Nat.ltb_spec (s_len s) (s_cap s)) as [Hlt|Hge];
    unfold slice_elems in *; simpl; rewrite lookup_total_insert_eq.
  - rewrite (take_S_r _ _ x) by (apply list_lookup_insert_eq; lia).
    by rewrite take_insert_ge.
  - rewrite cons_middle, app_assoc.
    apply take_app_length'. rewrite length_app; simpl; lia.
Qed.

Lemma growcap_ge old needed : needed ≤ growcap old needed.
Proof. unfold growcap. destruct (Nat.ltb_spec (2 * old) needed); lia. Qed.

Lemma slice_append_ok h s x :
  slice_ok h s → slice_ok (slice_append zero h s x).2 (slice_append zero h s x).1.
Proof.
  intros Hok. pose proof (slice_elems_length h s Hok) as Hl.
  destruct Hok as [Hlen Hcap]. unfold slice_append, slice_ok.
  destruct (Nat.ltb_spec (s_len s) (s_cap s)) as [Hlt|Hge];
    simpl; rewrite lookup_total_insert_eq.
  - rewrite length_insert. lia.
  - pose proof (growcap_ge (s_cap s) (S (s_len s))).
    rewrite length_app, Hl. simpl. rewrite length_replicate. lia.
Qed.

(** Whatever [append] does, a header keeps reading the same elements:
    an in-place write lands at or beyond its length only when the
    appended header is at least as long. *)
Lemma slice_append_frame h s x s0 :
  s_len s0 ≤ s_len s → is_Some (h !! s_arr s0) ∨ s_len s0 = 0 →
  slice_elems (slice_append zero h s x).2 s0 = slice_elems h s0.
Proof.
  intros Hle Hin. unfold slice_append, slice_elems.
  destruct (Nat.ltb_spec (s_len s) (s_cap s)) as [Hlt|Hge]; simpl.
  - destruct (decide (s_arr s0 = s_arr s)) as [Heq|Hne].
    + rewrite Heq, lookup_total_insert_eq. by rewrite take_insert_ge.
    + by rewrite lookup_total_insert_ne.
  - destruct Hin as [Hin| ->]; [|done].
    rewrite lookup_total_insert_ne; [done|].
    intros Heq. rewrite <- Heq in Hin.
    apply elem_of_dom in Hin. by apply is_fresh in Hin.
Qed.
End slice_facts.

(** ** Running the monad *)

Lemma bind_Ret {A B} (m : M A) (k : A → M B) w a w' :
  m w = Ret a w' → bind m k w = k a w'.
Proof. unfold bind. by intros ->. Qed.

Lemma bind_Abort {A B} (m : M A) (k : A → M B) w e w' :
  m w = Abort e w' → bind m k w = Abort e w'.
Proof. unfold bind. by intros ->. Qed.

Ltac wsimpl :=
  cbn [stores gomaps tensor_arrays string_arrays mutexes ctensors storage
       grad_enabled copy_log files cuda_device_count
       upd_stores upd_gomaps set_tensor_arrays set_string_arrays upd_mutexes
       upd_ctensors upd_storage set_grad_enabled log_copy upd_files
       device Vars mutex NamedVariables TrainableVariables fst snd] in *.

Lemma bind_assoc {A B C} (m : M A) (k : A → M B) (k' : B → M C) w :
  bind (bind m k) k' w = bind m (λ x, bind (k x) k') w.
Proof. unfold bind. by destruct (m w). Qed.

Lemma bind_ret_l {A B} (a : A) (k : A → M B) w : bind (ret a) k w = k a w.
Proof. done. Qed.

(** [step by tac]: the first call of a sequence returns, by [tac]. *)
Tactic Notation "step" "by" tactic(tac) :=
  rewrite ?bind_assoc; erewrite bind_Ret; [|tac]; wsimpl.

Lemma deref_Ret w a v : stores w !! a = Some v → deref a w = Ret v w.
Proof. unfold deref. by intros ->. Qed.

Lemma Lock_Ret w m :
  mutexes w !! m = Some false → Lock m w = Ret tt (upd_mutexes <[m := true]> w).
Proof. unfold Lock. by intros ->. Qed.

Lemma Unlock_Ret w m :
  mutexes w !! m = Some true → Unlock m w = Ret tt (upd_mutexes <[m := false]> w).
Proof. unfold Unlock. by intros ->. Qed.

Lemma map_store_Ret w a m k v :
  gomaps w !! a = Some m →
  map_store a k v w = Ret tt (upd_gomaps <[a := <[k := v]> m]> w).
Proof. unfold map_store. by intros ->. Qed.

(** Locking and unlocking a free mutex leaves the mutexes as they were. *)
Lemma unlock_lock (ms : gmap nat bool) m :
  ms !! m = Some false → <[m := false]> (<[m := true]> ms) = ms.
Proof. intros H. rewrite insert_insert_eq. by apply insert_id. Qed.

Lemma upd_mutexes_id w : upd_mutexes (λ _, mutexes w) w = w.
Proof. by destruct w. Qed.

(** *** Handles *)

Lemma impl_of_Some w t s i :
  impl_of w t = Some (s, i) ↔
  ∃ c, ctensor t = Some c ∧ ctensors w !! c = Some s ∧ storage w !! s = Some i.
Proof.
  unfold impl_of. split.
  - destruct (ctensor t) as [c|]; simpl; [|done].
    destruct (ctensors w !! c) as [s'|] eqn:Hc; simpl; [|done].
    destruct (storage w !! s') as [i'|] eqn:Hs; simpl; [|done].
    intros [= <- <-]. by exists c.
  - intros (c & -> & Hc & Hs). simpl. rewrite Hc. simpl. by rewrite Hs.
Qed.

(** A handle stays what it was when handles and blocks are only added. *)
Lemma impl_of_mono w w' t s i :
  ctensors w ⊆ ctensors w' → storage w ⊆ storage w' →
  impl_of w t = Some (s, i) → impl_of w' t = Some (s, i).
Proof.
  intros Hc Hs (c & Ht & Hcs & Hsi)%impl_of_Some. apply impl_of_Some.
  exists c. split; [done|]. split.
  - by eapply lookup_weaken.
  - by eapply lookup_weaken.
Qed.

Lemma impl_of_ext w w' t :
  ctensors w' = ctensors w → storage w' = storage w → impl_of w' t = impl_of w t.
Proof. unfold impl_of. by intros -> ->. Qed.

Lemma new_handle_Ret w s :
  new_handle s w
  = Ret (MkTensor (Some (fresh (dom (ctensors w)))))
        (upd_ctensors <[fresh (dom (ctensors w)) := s]> w).
Proof. done. Qed.

Lemma fresh_lookup {V} (m : gmap nat V) : m !! fresh (dom m) = None.
Proof. apply not_elem_of_dom, is_fresh. Qed.

Lemma insert_fresh_subseteq {V} (m : gmap nat V) v : m ⊆ <[fresh (dom m) := v]> m.
Proof. apply insert_subseteq, fresh_lookup. Qed.

Lemma MustShallowClone_Ret w t s i :
  impl_of w t = Some (s, i) →
  MustShallowClone t w
  = Ret (MkTensor (Some (fresh (dom (ctensors w)))))
        (upd_ctensors <[fresh (dom (ctensors w)) := s]> w).
Proof. unfold MustShallowClone. by intros ->. Qed.

Lemma SetRequiresGrad_Ret w t s i :
  impl_of w t = Some (s, i) → supports_grad (kind i) = true →
  SetRequiresGrad t true w
  = Ret (MkTensor (Some (fresh (dom (ctensors w)))), None)
        (upd_ctensors <[fresh (dom (ctensors w)) := s]>
           (upd_storage <[s := set_grad true i]> w)).
Proof. unfold SetRequiresGrad. intros -> ->. done. Qed.

Lemma impl_of_handle w c s i :
  ctensors w !! c = Some s → storage w !! s = Some i →
  impl_of w (MkTensor (Some c)) = Some (s, i).
Proof. intros Hc Hs. apply impl_of_Some. by exists c. Qed.

Lemma append_tensor_Ret w s x :
  append_tensor s x w
  = Ret (slice_append nil_tensor (tensor_arrays w) s x).1
        (set_tensor_arrays (slice_append nil_tensor (tensor_arrays w) s x).2 w).
Proof. unfold append_tensor. by destruct (slice_append _ _ _ _). Qed.

Lemma set_TrainableVariables_Ret w a v s :
  stores w !! a = Some v →
  set_TrainableVariables a s w
  = Ret tt (upd_stores <[a := MkVarStore (device v)
                             (MkVariables (mutex (Vars v)) (NamedVariables (Vars v)) s)]> w).
Proof. unfold set_TrainableVariables. by intros ->. Qed.

Lemma named_of_eq w a v m :
  stores w !! a = Some v → gomaps w !! NamedVariables (Vars v) = Some m →
  named_of w a = m.
Proof. intros Hv Hm. unfold named_of. rewrite Hv. by apply lookup_total_correct. Qed.

Lemma VarStore_Len_Ret w vs v :
  stores w !! vs = Some v → mutexes w !! mutex (Vars v) = Some false →
  VarStore_Len vs w = Ret (size (named_of w vs)) w.
Proof.
  intros Hv Hm. unfold VarStore_Len, named_of. rewrite Hv.
  step by (by apply deref_Ret). unfold locked.
  step by (by apply Lock_Ret).
  unfold read_map, bind, ret. wsimpl.
  unfold Unlock. wsimpl. rewrite lookup_insert_eq.
  f_equal. destruct w; unfold upd_mutexes; simpl in *. f_equal.
  by apply unlock_lock.
Qed.

(** ** Paths *)

Lemma Path_getpath_Ret p name w :
  Contains name SEP = false → Path_getpath p name w = Ret (qualified w p name) w.
Proof.
  intros H. unfold Path_getpath, qualified. rewrite H.
  by destruct (s_len (path p) =? 0).
Qed.

Lemma string_app_length (s t : string) :
  String.length (s +:+ t) = String.length s + String.length t.
Proof. induction s as [|a s IH]; [done|]. simpl. by rewrite <- IH. Qed.

Lemma Path_Sub_ok p str w :
  Contains str SEP = false →
  slice_ok (string_arrays w) (path p) →
  ∃ p' w', Path_Sub p str w = Ret p' w'
    ∧ segments w' p' = segments w p ++ [str]
    ∧ slice_ok (string_arrays w') (path p')
    ∧ s_len (path p') = S (s_len (path p))
    ∧ varstore p' = varstore p.
Proof.
  intros Hsep Hok. unfold Path_Sub. rewrite Hsep.
  pose proof (slice_append_elems EmptyString _ _ str Hok) as Hel.
  pose proof (slice_append_ok EmptyString _ _ str Hok) as Hok'.
  assert (s_len (slice_append EmptyString (string_arrays w) (path p) str).1
          = S (s_len (path p))) as Hlen.
  { unfold slice_append. by destruct (_ <? _). }
  unfold bind, append_string, ret.
  destruct (slice_append EmptyString (string_arrays w) (path p) str) as [s' h'].
  eexists _, _. split; [done|]. by unfold segments.
Qed.

Lemma Path_getpath_join p name w :
  Contains name SEP = false →
  slice_ok (string_arrays w) (path p) →
  Path_getpath p name w = Ret (Join (segments w p ++ [name]) SEP) w.
Proof.
  intros Hsep Hok. unfold Path_getpath. rewrite Hsep.
  pose proof (slice_elems_length _ _ Hok) as Hlen. fold (segments w p) in Hlen.
  destruct (Nat.eqb_spec (s_len (path p)) 0) as [H0|H0].
  - rewrite H0 in Hlen. apply nil_length_inv in Hlen. by rewrite Hlen.
  - unfold bind, get_world, ret, Join. rewrite concat_snoc; [done|].
    intros Hnil. rewrite Hnil in Hlen. simpl in Hlen. lia.
Qed.

(** C9. Qualification joins the segments of the path and the name with
    the separator: [getpath] returns [Join (segments ++ [name]) SEP];
    from a scope with no segments, [Sub a], [Sub b] and then qualifying
    [c] gives [a.b.c], and such a scope qualifies a name to itself. *)
Theorem qualify_joins_segments (w : World) (p : Path) (a b c : string) :
  slice_ok (string_arrays w) (path p) →
  Contains a SEP = false → Contains b SEP = false → Contains c SEP = false →
  Path_getpath p c w = Ret (Join (segments w p ++ [c]) SEP) w
  ∧ (s_len (path p) = 0 →
     Path_getpath p c w = Ret c w
     ∧ ∃ pa wa pb wb,
         Path_Sub p a w = Ret pa wa
         ∧ Path_Sub pa b wa = Ret pb wb
         ∧ Path_getpath pb c wb = Ret (a +:+ "." +:+ b +:+ "." +:+ c) wb).
Proof.
  intros Hok Ha Hb Hc. split; [by apply Path_getpath_join|].
  intros Hroot. split.
  { unfold Path_getpath. by rewrite Hc, Hroot. }
  destruct (Path_Sub_ok p a w Ha Hok) as (pa & wa & Hpa & Hsa & Hoka & _).
  destruct (Path_Sub_ok pa b wa Hb Hoka) as (pb & wb & Hpb & Hsb & Hokb & _).
  exists pa, wa, pb, wb. split; [done|]. split; [done|].
  rewrite (Path_getpath_join pb c wb Hc Hokb), Hsb, Hsa.
  unfold segments, slice_elems. rewrite Hroot. simpl.
  unfold Join. simpl. by fold SEP.
Qed.

Lemma qualify_joins_segments_witness :
  slice_ok (string_arrays empty_world) (path (VarStore_Root 0))
  ∧ Contains "a" SEP = false
  ∧ ∃ pa wa pb wb,
      Path_Sub (VarStore_Root 0) "a" empty_world = Ret pa wa
      ∧ Path_Sub pa "b" wa = Ret pb wb
      ∧ Path_getpath pb "c" wb = Ret "a.b.c" wb.
Proof.
  assert (slice_ok (string_arrays empty_world) (path (VarStore_Root 0))) as Hok.
  { split; simpl; lia. }
  split; [exact Hok|]. split; [reflexivity|].
  apply (qualify_joins_segments empty_world (VarStore_Root 0) "a" "b" "c");
    [exact Hok|reflexivity..].
Defined.

(** C10, as amended. A segment or name that contains the separator ends
    the process through [log.Fatalf]: [Sub] and the qualification do not
    return, and nothing has been changed when the process exits. *)
Theorem separator_is_fatal (p : Path) (str : string) (w : World) :
  Contains str SEP = true →
  Path_Sub p str w = Abort (LogFatal (FatalSubName str)) w
  ∧ Path_getpath p str w = Abort (LogFatal (FatalSubName str)) w.
Proof.
  intros Hsep. unfold Path_Sub, Path_getpath, die. by rewrite Hsep.
Qed.

Lemma separator_is_fatal_witness :
  Contains "a.b" SEP = true
  ∧ Path_Sub (VarStore_Root 0) "a.b" empty_world
    = Abort (LogFatal (FatalSubName "a.b")) empty_world
  ∧ Path_getpath (VarStore_Root 0) "a.b" empty_world
    = Abort (LogFatal (FatalSubName "a.b")) empty_world.
Proof.
  split; [reflexivity|].
  apply (separator_is_fatal (VarStore_Root 0) "a.b" empty_world). reflexivity.
Defined.

(** C10, as stated, fails: [Sub] with a dotted segment hands no error
    value back to its caller, it exits. *)
Lemma Sub_with_separator_exits :
  ¬ ∃ r w', Path_Sub (VarStore_Root 0) "a.b" empty_world = Ret r w'.
Proof. intros (r & w' & H). discriminate H. Qed.

(** ** Get-or-create against the trainable list *)

(** C3. A get-or-create call on an absent name must leave the new handle
    in the registry's TrainableVariables, as [Path.add] does.  It does
    not: [getOrAddWithLock] appends to its own copy of the [Variables]
    struct.  After [Entry("w").OrZeros] on a new store the variable is
    bound and tracks gradients, yet the store's trainable list and the
    snapshot are empty; [Zeros("w")] on the same input lists it. *)
Theorem OrZeros_not_in_trainable :
  ∃ vs t w',
    or_zeros_on_empty empty_world = Ret (vs, t) w'
    ∧ named_of w' vs !! "w" = Some t
    ∧ grad_of w' t = Some true
    ∧ trainable_of w' vs = []
    ∧ (∃ s w'', VarStore_TrainableVariables vs w' = Ret s w''
                ∧ slice_elems (tensor_arrays w'') s = [])
    ∧ (∃ vs2 t2 w2, zeros_on_empty empty_world = Ret (vs2, t2) w2
                    ∧ trainable_of w2 vs2 = [t2]).
Proof.
  eexists _, _, _. split; [vm_compute; reflexivity|].
  repeat split; try (vm_compute; reflexivity).
  - eexists _, _. split; vm_compute; reflexivity.
  - eexists _, _, _. split; vm_compute; reflexivity.
Qed.

(** ** Snapshots *)

(** C4. [TrainableVariables()] must return one clone per trainable
    variable and never a live handle.  It starts from the registry's own
    slice and appends the clones to it: with one trainable variable the
    result has two elements, the first being the registry's handle. *)
Theorem TrainableVariables_returns_live_handle :
  ∃ vs t s w',
    trainable_snapshot empty_world = Ret (vs, t, s) w'
    ∧ named_of w' vs !! "w" = Some t
    ∧ trainable_of w' vs = [t]
    ∧ ∃ c, slice_elems (tensor_arrays w') s = [t; c]
           ∧ c ≠ t ∧ sid_of w' c = sid_of w' t.
Proof.
  eexists _, _, _, _. split; [vm_compute; reflexivity|].
  split; [vm_compute; reflexivity|]. split; [vm_compute; reflexivity|].
  eexists. split; [vm_compute; reflexivity|]. split; [|vm_compute; reflexivity].
  vm_compute. discriminate.
Qed.

(** ** Loading *)

(** C5. With variables [a] and [b] in the store and a file that holds
    only [a], the missing list must be [b].  [LoadPartial] walks the
    file, not the store, and reports nothing; [a] is updated and [b]
    keeps its values. *)
Theorem LoadPartial_reports_nothing_missing :
  ∃ vs a b w',
    load_partial_a empty_world = Ret (vs, a, b, ([], None)) w'
    ∧ named_of w' vs !! "a" = Some a
    ∧ named_of w' vs !! "b" = Some b
    ∧ values_of w' a = Some [7; 7]%Z
    ∧ values_of w' b = Some [0; 0]%Z.
Proof.
  eexists _, _, _, _. split; [vm_compute; reflexivity|].
  repeat split; vm_compute; reflexivity.
Qed.

(** A name of the file that the store does not have is recorded, and
    then copied into the nil handle all the same. *)
Lemma LoadPartial_unknown_name_crashes :
  ∃ w', load_partial_unknown empty_world = Abort NilPointer w'.
Proof. eexists. vm_compute. reflexivity. Qed.

(** ** Duplicate names *)

(** C8, as stated, fails: the key of the second [w] is not [w] followed
    by the separator and the size. *)
Lemma duplicate_key_is_not_separated :
  ∃ vs t1 t2 w',
    zeros_twice empty_world = Ret (vs, t1, t2) w'
    ∧ named_of w' vs !! ("w" +:+ SEP +:+ Itoa 1) = None
    ∧ named_of w' vs !! "w__1" = Some t2.
Proof.
  eexists _, _, _, _. split; [vm_compute; reflexivity|].
  split; vm_compute; reflexivity.
Qed.

(** ** Concurrent callers *)

(** Run by one goroutine alone, the two stages are [OrVar]. *)
Lemma OrVar_in_two_stages e dims init w :
  run_schedule [0; 0] [Calling e dims init] w
  = match Entry_OrVar e dims init w with
    | Ret t w' => ([Returned t], w')
    | Abort k w' => ([Exited k], w')
    end.
Proof.
  unfold Entry_OrVar, Path_getOrAddWithLock. simpl.
  unfold OrVar_lookup, bind, ret.
  destruct (deref _ w) as [vs w1|]; [|done].
  destruct (InitTensor _ _ _ w1) as [v w2|]; [|done].
  destruct (deref_variables _ w2) as [vars w3|]; [|done].
  destruct (getOrAdd_lookup _ _ _ w3) as [[q [found|]] w4|]; [done| |done].
  simpl. by destruct (getOrAdd_insert _ _ _ _ w4).
Qed.

(** C1. Under concurrent callers one variable per name must ever be
    created and all callers must get handles of the same storage.  Two
    goroutines call [OrZeros] on the same entry of a new store; both
    look the name up before either inserts.  Both create a variable: the
    handles they return have different storage, and the registry keeps
    only the second. *)
Theorem concurrent_OrZeros_creates_twice :
  ∃ vs gs w t0 t1 w',
    two_callers empty_world = Ret (vs, gs) w
    ∧ run_schedule [0; 1; 0; 1] gs w = ([Returned t0; Returned t1], w')
    ∧ named_of w' vs !! "shared" = Some t1
    ∧ t0 ≠ t1
    ∧ is_Some (sid_of w' t0) ∧ is_Some (sid_of w' t1)
    ∧ sid_of w' t0 ≠ sid_of w' t1.
Proof.
  eexists _, _, _, _, _, _. split; [vm_compute; reflexivity|].
  split; [vm_compute; reflexivity|]. split; [vm_compute; reflexivity|].
  split; [vm_compute; discriminate|].
  split; [vm_compute; eauto|]. split; [vm_compute; eauto|].
  vm_compute. discriminate.
Qed.

(** C8, as amended. When the qualified name is already bound, [add]
    binds the new handle under the name followed by two underscores and
    the decimal size of the registry; the binding of the requested name
    stays, and the count grows by one when that key was free. *)
Theorem add_existing_name (w : World) (p : Path) (name : string) (newTs : Tensor)
    (trainable : bool) (vs : VarStore) (m : gmap string Tensor) (s : nat) (i : Impl) :
  Contains name SEP = false →
  stores w !! varstore p = Some vs →
  mutexes w !! mutex (Vars vs) = Some false →
  gomaps w !! NamedVariables (Vars vs) = Some m →
  is_Some (m !! qualified w p name) →
  impl_of w newTs = Some (s, i) →
  (trainable = true → supports_grad (kind i) = true) →
  let key := qualified w p name +:+ "__" +:+ Itoa (size m) in
  ∃ t w',
    Path_add p name newTs trainable w = Ret t w'
    ∧ named_of w' (varstore p) = <[key := t]> m
    ∧ named_of w' (varstore p) !! qualified w p name = m !! qualified w p name
    ∧ sid_of w' t = Some s
    ∧ VarStore_Len (varstore p) w = Ret (size m) w
    ∧ (m !! key = None → VarStore_Len (varstore p) w' = Ret (S (size m)) w').
Proof.
  intros Hsep Hvs Hmu Hmap Hex Hts Hgrad key.
  assert (key ≠ qualified w p name) as Hkey.
  { intros Heq. apply (f_equal String.length) in Heq. unfold key in Heq.
    rewrite !string_app_length in Heq. simpl in Heq. lia. }
  unfold Path_add.
  step by (by apply Path_getpath_Ret).
  step by (by apply deref_Ret).
  unfold locked.
  step by (by apply Lock_Ret).
  step by (unfold read_map; reflexivity).
  rewrite (lookup_total_correct _ _ _ Hmap).
  rewrite (bool_decide_eq_true_2 _ Hex). fold key.
  pose proof Hts as (c0 & Hc0 & Hcs & Hsi)%impl_of_Some.
  assert (VarStore_Len (varstore p) w = Ret (size m) w) as HLen.
  { rewrite (VarStore_Len_Ret _ _ _ Hvs Hmu). unfold named_of.
    by rewrite Hvs, (lookup_total_correct _ _ _ Hmap). }
  destruct trainable.
  - step by (eapply MustShallowClone_Ret; exact Hts).
    step by (eapply SetRequiresGrad_Ret;
             [apply impl_of_handle; wsimpl; [apply lookup_insert_eq|exact Hsi]
             |by apply Hgrad]).
    rewrite ?bind_assoc, bind_ret_l.
    step by (apply deref_Ret; exact Hvs).
    step by (apply append_tensor_Ret).
    step by (eapply set_TrainableVariables_Ret; exact Hvs).
    step by (eapply map_store_Ret; exact Hmap).
    rewrite ?bind_assoc, bind_ret_l.
    step by (apply Unlock_Ret; wsimpl; apply lookup_insert_eq).
    eexists _, _. split; [reflexivity|].
    erewrite named_of_eq; [|wsimpl; apply lookup_insert_eq..].
    split; [done|]. split; [by rewrite lookup_insert_ne|].
    split.
    { unfold sid_of. erewrite impl_of_handle; [done|wsimpl; apply lookup_insert_eq..]. }
    split; [done|]. intros Hfree.
    erewrite VarStore_Len_Ret; [| wsimpl; apply lookup_insert_eq
                                | wsimpl; apply lookup_insert_eq].
    erewrite named_of_eq; [|wsimpl; apply lookup_insert_eq..].
    by rewrite map_size_insert_None.
  - step by (eapply MustShallowClone_Ret; exact Hts).
    rewrite ?bind_assoc, bind_ret_l.
    step by (eapply map_store_Ret; exact Hmap).
    rewrite ?bind_assoc, bind_ret_l.
    step by (apply Unlock_Ret; wsimpl; apply lookup_insert_eq).
    eexists _, _. split; [reflexivity|].
    erewrite named_of_eq; [|wsimpl; exact Hvs|wsimpl; apply lookup_insert_eq].
    split; [done|]. split; [by rewrite lookup_insert_ne|].
    split.
    { unfold sid_of. erewrite impl_of_handle;
        [done|wsimpl; apply lookup_insert_eq|exact Hsi]. }
    split; [done|]. intros Hfree.
    erewrite VarStore_Len_Ret; [| wsimpl; exact Hvs | wsimpl; apply lookup_insert_eq].
    erewrite named_of_eq; [|wsimpl; exact Hvs|wsimpl; apply lookup_insert_eq].
    by rewrite map_size_insert_None.
Qed.

Lemma add_existing_name_witness :
  Contains "w" SEP = false
  ∧ is_Some (named_of store_w_world 0 !! "w")
  ∧ ∃ t w',
      Path_add (VarStore_Root 0) "w" (MkTensor (Some 3)) true store_w_world = Ret t w'
      ∧ named_of w' 0 !! "w" = Some (MkTensor (Some 2))
      ∧ named_of w' 0 !! "w__1" = Some t
      ∧ VarStore_Len 0 w' = Ret 2 w'.
Proof.
  split; [reflexivity|]. split; [vm_compute; eauto|].
  destruct (add_existing_name store_w_world (VarStore_Root 0) "w" (MkTensor (Some 3)) true
              (MkVarStore CPU (MkVariables 0 0 (Slice 0 1 1)))
              {["w" := MkTensor (Some 2)]} 1 (MkImpl [0]%Z [1]%Z Float CPU false))
    as (t & w' & Hrun & Hnamed & Hold & _ & _ & HLen);
    [vm_compute; reflexivity..|vm_compute; eauto|vm_compute; reflexivity|reflexivity|].
  cbn [varstore VarStore_Root] in *.
  exists t, w'. split; [exact Hrun|].
  split; [etransitivity; [exact Hold|vm_compute; reflexivity]|].
  split; [rewrite Hnamed; vm_compute; reflexivity|].
  apply HLen. vm_compute. reflexivity.
Defined.

(** ** Get-or-create, one caller *)

Lemma qualified_ext w w' p name :
  string_arrays w' = string_arrays w → qualified w' p name = qualified w p name.
Proof. unfold qualified, segments. by intros ->. Qed.

Lemma getOrAdd_found p name tensor tr vars w t :
  Contains name SEP = false →
  (gomaps w !!! NamedVariables vars) !! qualified w p name = Some t →
  Path_getOrAddWithLock p name tensor tr vars w = Ret t w.
Proof.
  intros Hsep Hfound. unfold Path_getOrAddWithLock, getOrAdd_lookup.
  step by (by apply Path_getpath_Ret).
  step by (unfold read_map; reflexivity).
  rewrite bind_ret_l. by rewrite Hfound.
Qed.

Lemma getOrAdd_absent p name tensor vars w m s i :
  Contains name SEP = false →
  gomaps w !! NamedVariables vars = Some m →
  m !! qualified w p name = None →
  impl_of w tensor = Some (s, i) →
  supports_grad (kind i) = true →
  let t := MkTensor (Some (fresh (dom (ctensors w)))) in
  Path_getOrAddWithLock p name tensor true vars w
  = Ret t
      (upd_gomaps <[NamedVariables vars := <[qualified w p name := t]> m]>
         (set_tensor_arrays
            (slice_append nil_tensor (tensor_arrays w) (TrainableVariables vars) t).2
            (upd_ctensors <[fresh (dom (ctensors w)) := s]>
               (upd_storage <[s := set_grad true i]> w)))).
Proof.
  intros Hsep Hmap Hnone Hts Hgrad t.
  unfold Path_getOrAddWithLock, getOrAdd_lookup.
  step by (by apply Path_getpath_Ret).
  step by (unfold read_map; reflexivity).
  rewrite bind_ret_l. rewrite (lookup_total_correct _ _ _ Hmap), Hnone.
  unfold getOrAdd_insert.
  step by (eapply SetRequiresGrad_Ret; [exact Hts|exact Hgrad]).
  rewrite ?bind_assoc, bind_ret_l.
  step by (apply append_tensor_Ret).
  rewrite ?bind_assoc, bind_ret_l. wsimpl.
  step by (eapply map_store_Ret; exact Hmap).
  reflexivity.
Qed.

Lemma new_tensor_Ret w i :
  new_tensor i w
  = Ret (MkTensor (Some (fresh (dom (ctensors w)))))
        (upd_ctensors <[fresh (dom (ctensors w)) := fresh (dom (storage w))]>
           (upd_storage <[fresh (dom (storage w)) := i]> w)).
Proof. done. Qed.

Lemma get_or_create_twice (w : World) (e : Entry) (impl : Device → Impl)
    (vs : VarStore) (m : gmap string Tensor) :
  variables e = varstore (entry_path e) →
  stores w !! variables e = Some vs →
  mutexes w !! mutex (Vars vs) = Some false →
  gomaps w !! NamedVariables (Vars vs) = Some m →
  Contains (name e) SEP = false →
  (∀ d, supports_grad (kind (impl d)) = true) →
  twice_same (get_or_create e (λ d, new_tensor (impl d))) e w.
Proof.
  intros He Hvs Hmu Hmap Hsep Hgrad.
  set (q := qualified w (entry_path e) (name e)).
  (* a call from any world where the name is bound *)
  assert (∀ w1 m1 t,
      stores w1 !! variables e = Some vs →
      gomaps w1 !! NamedVariables (Vars vs) = Some m1 →
      string_arrays w1 = string_arrays w →
      m1 !! q = Some t →
      ∃ w2, get_or_create e (λ d, new_tensor (impl d)) w1 = Ret t w2
            ∧ stores w2 = stores w1 ∧ gomaps w2 = gomaps w1
            ∧ mutexes w2 = mutexes w1 ∧ string_arrays w2 = string_arrays w1) as Hfound.
  { intros w1 m1 t Hvs1 Hmap1 Hsa Ht. unfold get_or_create.
    step by (apply deref_Ret; rewrite <- He; exact Hvs1).
    step by (apply new_tensor_Ret).
    unfold deref_variables.
    step by (apply deref_Ret; wsimpl; exact Hvs1).
    rewrite bind_ret_l.
    erewrite getOrAdd_found; [eexists; split; [reflexivity|done]|done|].
    wsimpl. rewrite (lookup_total_correct _ _ _ Hmap1).
    erewrite qualified_ext; [|wsimpl; exact Hsa]. exact Ht. }
  assert (∀ w1 w2 m1, stores w1 !! variables e = Some vs →
      gomaps w1 !! NamedVariables (Vars vs) = Some m1 →
      mutexes w1 !! mutex (Vars vs) = Some false →
      stores w2 = stores w1 → gomaps w2 = gomaps w1 → mutexes w2 = mutexes w1 →
      named_of w1 (variables e) = m1
      ∧ named_of w2 (variables e) = named_of w1 (variables e)
      ∧ VarStore_Len (variables e) w1 = Ret (size m1) w1
      ∧ VarStore_Len (variables e) w2 = Ret (size m1) w2) as Hsame.
  { intros w1 w2 m1 Hvs1 Hmap1 Hmu1 Hs Hg Hm.
    assert (named_of w1 (variables e) = m1) as Hn1 by by eapply named_of_eq.
    assert (named_of w2 (variables e) = m1) as Hn2.
    { eapply named_of_eq; [by rewrite Hs|by rewrite Hg]. }
    split; [done|]. split; [by rewrite Hn1, Hn2|]. split.
    - erewrite VarStore_Len_Ret; [by rewrite Hn1|done..].
    - erewrite VarStore_Len_Ret; [by rewrite Hn2|by rewrite Hs|by rewrite Hm]. }
  destruct (m !! q) as [t|] eqn:Hq.
  - (* bound before the first call *)
    destruct (Hfound w m t Hvs Hmap eq_refl Hq) as (w1 & Hrun1 & Hs1 & Hg1 & Hm1 & Ha1).
    destruct (Hfound w1 m t) as (w2 & Hrun2 & Hs2 & Hg2 & Hm2 & Ha2);
      [by rewrite Hs1|by rewrite Hg1|done|done|].
    destruct (Hsame w1 w2 m) as (Hn1 & Hn2 & HL1 & HL2);
      [by rewrite Hs1|by rewrite Hg1|by rewrite Hm1|done..|].
    exists t, w1, w2, (size m). rewrite Hn1 in Hn2 |- *. done.
  - (* created by the first call *)
    set (c := fresh (dom (ctensors w))). set (s := fresh (dom (storage w))).
    set (wa := upd_ctensors <[c := s]> (upd_storage <[s := impl (device vs)]> w)).
    set (t := MkTensor (Some (fresh (dom (ctensors wa))))).
    assert (∃ w1, get_or_create e (λ d, new_tensor (impl d)) w = Ret t w1
                  ∧ stores w1 = stores w
                  ∧ gomaps w1 = <[NamedVariables (Vars vs) := <[q := t]> m]> (gomaps w)
                  ∧ mutexes w1 = mutexes w
                  ∧ string_arrays w1 = string_arrays w)
      as (w1 & Hrun1 & Hs1 & Hg1 & Hm1 & Ha1).
    { unfold get_or_create.
      step by (apply deref_Ret; rewrite <- He; exact Hvs).
      step by (apply new_tensor_Ret).
      unfold deref_variables.
      step by (apply deref_Ret; wsimpl; exact Hvs).
      rewrite bind_ret_l. fold c s.
      erewrite (getOrAdd_absent _ _ _ _ _ m s (impl (device vs)));
        [eexists; split; [reflexivity|done]|done|exact Hmap|exact Hq| |done].
      apply impl_of_handle; wsimpl; apply lookup_insert_eq. }
    destruct (Hfound w1 (<[q := t]> m) t) as (w2 & Hrun2 & Hs2 & Hg2 & Hm2 & Ha2);
      [by rewrite Hs1|by rewrite Hg1, lookup_insert_eq|done|by rewrite lookup_insert_eq|].
    destruct (Hsame w1 w2 (<[q := t]> m)) as (Hn1 & Hn2 & HL1 & HL2);
      [by rewrite Hs1|by rewrite Hg1, lookup_insert_eq|by rewrite Hm1|done..|].
    exists t, w1, w2, (size (<[q := t]> m)). rewrite Hn1 in Hn2 |- *.
    by rewrite lookup_insert_eq.
Qed.

Lemma twice_same_ext (call call' : M Tensor) e w :
  (∀ w, call w = call' w) → twice_same call' e w → twice_same call e w.
Proof.
  intros Heq (t & w1 & w2 & n & H1 & H2 & H). exists t, w1, w2, n.
  by rewrite !Heq.
Qed.

(** C2. Two calls in sequence of a get-or-create method of an entry
    return the same handle, the one bound to the entry's qualified name,
    and the second call leaves the registry and its count as they were:
    for [OrVar] with any initializer, hence [OrZeros] and [OrOnes], and
    for the two [NoTrain] forms. *)
Theorem get_or_create_twice_same (w : World) (e : Entry) (dims : list Z) (init : Init)
    (vs : VarStore) (m : gmap string Tensor) :
  variables e = varstore (entry_path e) →
  stores w !! variables e = Some vs →
  mutexes w !! mutex (Vars vs) = Some false →
  gomaps w !! NamedVariables (Vars vs) = Some m →
  Contains (name e) SEP = false →
  twice_same (Entry_OrVar e dims init) e w
  ∧ twice_same (Entry_OrZeros e dims) e w
  ∧ twice_same (Entry_OrOnes e dims) e w
  ∧ twice_same (Entry_OrZerosNoTrain e dims) e w
  ∧ twice_same (Entry_OrOnesNoTrain e dims) e w.
Proof.
  intros He Hvs Hmu Hmap Hsep.
  assert (∀ ini, twice_same (Entry_OrVar e dims ini) e w) as HOrVar.
  { intros ini.
    exact (get_or_create_twice w e
             (λ d, MkImpl (init_values ini dims) dims Float d false)
             vs m He Hvs Hmu Hmap Hsep (λ _, eq_refl)). }
  split; [apply HOrVar|]. split; [apply HOrVar|]. split; [apply HOrVar|].
  split.
  - eapply (twice_same_ext _
              (get_or_create e (λ d, new_tensor
                 (MkImpl (replicate (numel dims) 0%Z) dims Float d false)))).
    + intros w0. unfold Entry_OrZerosNoTrain, get_or_create, Path_Device.
      unfold bind, ret. by destruct (deref _ w0).
    + by apply (get_or_create_twice w e _ vs m).
  - eapply (twice_same_ext _
              (get_or_create e (λ d, new_tensor
                 (MkImpl (replicate (numel dims) 1%Z) dims Float d false)))).
    + intros w0. unfold Entry_OrOnesNoTrain, get_or_create, Path_Device.
      unfold bind, ret. by destruct (deref _ w0).
    + by apply (get_or_create_twice w e _ vs m).
Qed.

Lemma get_or_create_twice_same_witness :
  Contains "w" SEP = false
  ∧ twice_same (Entry_OrZeros (MkEntry "w" 0 (VarStore_Root 0)) [2; 2]%Z)
      (MkEntry "w" 0 (VarStore_Root 0)) new_store_world.
Proof.
  split; [reflexivity|].
  apply (get_or_create_twice_same new_store_world (MkEntry "w" 0 (VarStore_Root 0))
           [2; 2]%Z (NewConstInit 0)
           (MkVarStore CPU (MkVariables 0 0 empty_slice)) ∅);
    [reflexivity|vm_compute; reflexivity..|reflexivity].
Defined.

(** ** Copy loops *)

Lemma impl_of_block w t s i :
  impl_of w t = Some (s, i) ↔ block_of w t = Some s ∧ storage w !! s = Some i.
Proof.
  rewrite impl_of_Some. unfold block_of. split.
  - intros (c & -> & Hc & Hs). simpl. by rewrite Hc.
  - intros [Hb Hs]. destruct (ctensor t) as [c|]; [|done]. by exists c.
Qed.

Lemma copy_step_shape σ p x :
  shape <$> copy_step σ p !! x = shape <$> σ !! x.
Proof.
  unfold copy_step. destruct (σ !! p.1) as [di|] eqn:Hd; [|done].
  destruct (σ !! p.2) as [si|]; [|done].
  destruct (decide (p.1 = x)) as [<-|Hne].
  - by rewrite lookup_insert_eq, Hd.
  - by rewrite lookup_insert_ne.
Qed.

Lemma copy_step_other σ p x : x ≠ p.1 → copy_step σ p !! x = σ !! x.
Proof.
  intros Hne. unfold copy_step. destruct (σ !! p.1); [|done].
  destruct (σ !! p.2); [|done]. by rewrite lookup_insert_ne.
Qed.


Lemma copy_all_other σ ps x :
  x ∉ ps.*1 → foldl copy_step σ ps !! x = σ !! x.
Proof.
  revert σ. induction ps as [|p ps IH]; intros σ Hx; [done|].
  simpl in *. apply not_elem_of_cons in Hx as [Hne Hx].
  by rewrite IH, copy_step_other.
Qed.

(** With distinct destinations that are no sources, every destination
    ends with the values its source had at the start. *)
Lemma copy_all_values σ ps d s di si :
  NoDup ps.*1 → (∀ p, p ∈ ps → p.2 ∉ ps.*1) →
  (d, s) ∈ ps → σ !! d = Some di → σ !! s = Some si →
  foldl copy_step σ ps !! d = Some (set_values (values si) di).
Proof.
  revert σ. induction ps as [|p ps IH]; intros σ Hnd Hsrc Hin Hd Hs.
  { by apply elem_of_nil in Hin. }
  simpl in Hnd. apply NoDup_cons in Hnd as [Hp Hnd]. simpl.
  apply elem_of_cons in Hin as [<-|Hin].
  - rewrite copy_all_other by done. unfold copy_step. simpl.
    by rewrite Hd, Hs, lookup_insert_eq.
  - assert (d ≠ p.1) as Hdp.
    { intros ->. apply Hp. by apply (list_elem_of_fmap_2 fst) in Hin. }
    assert (s ≠ p.1) as Hsp.
    { intros ->. apply (Hsrc (d, p.1)); [by right|]. by left. }
    apply IH; [done| |done|by rewrite copy_step_other..].
    intros q Hq Hq'. apply (Hsrc q); [by right|]. by right.
Qed.



Lemma NoGrad_Copy_Ret w dst src d di s si :
  impl_of w dst = Some (d, di) → impl_of w src = Some (s, si) →
  shape di = shape si →
  NoGrad (Copy_ dst src) w = Ret tt (copied [(d, s)] w).
Proof.
  intros Hd Hs Hshape. unfold NoGrad, Copy_, bind, get_world, modify.
  rewrite (impl_of_ext w _ dst), (impl_of_ext w _ src), Hd, Hs by done.
  rewrite decide_True by done. f_equal.
  apply impl_of_Some in Hd as (? & _ & _ & Hd).
  apply impl_of_Some in Hs as (? & _ & _ & Hs).
  unfold copied, copy_step. simpl. by rewrite Hd, Hs.
Qed.


Lemma fits_impl σ p :
  fits σ p → ∃ di si, σ !! p.1 = Some di ∧ σ !! p.2 = Some si ∧ shape di = shape si.
Proof.
  intros [[di Hd] Hs]. rewrite Hd in Hs. simpl in Hs.
  destruct (σ !! p.2) as [si|]; [|done]. exists di, si. by injection Hs.
Qed.






Lemma block_of_mono w w' t s :
  ctensors w ⊆ ctensors w' → block_of w t = Some s → block_of w' t = Some s.
Proof.
  unfold block_of. intros Hsub. destruct (ctensor t) as [c|]; [|done]. simpl.
  intros H. by eapply lookup_weaken.
Qed.

Lemma values_of_block w t s i :
  block_of w t = Some s → storage w !! s = Some i → values_of w t = Some (values i).
Proof.
  intros Hb Hs. unfold values_of.
  by rewrite (proj2 (impl_of_block w t s i) (conj Hb Hs)).
Qed.



(** ** What loading and copying never touch *)

Section keeps.
Context {X : Type} (f : World → X).

Lemma keeps_ret {A} (a : A) : keeps f (ret a).
Proof. done. Qed.

Lemma keeps_die {A} k : keeps f (@die A k).
Proof. done. Qed.

Lemma keeps_bind {A B} (m : M A) (k : A → M B) :
  keeps f m → (∀ a, keeps f (k a)) → keeps f (bind m k).
Proof.
  intros Hm Hk w. unfold bind. specialize (Hm w).
  destruct (m w) as [a w1|e w1]; simpl in *; [|done]. by rewrite Hk.
Qed.

Lemma keeps_loop_until {A R} (l : list A) (body : A → M (option R)) :
  (∀ x, keeps f (body x)) → keeps f (loop_until l body).
Proof.
  intros Hb. induction l as [|x l IH]; [done|]. simpl.
  apply keeps_bind; [done|]. intros [r|]; [done|apply IH].
Qed.

Lemma keeps_for_each {A S} (l : list A) (body : S → A → M S) s :
  (∀ s x, keeps f (body s x)) → keeps f (for_each l body s).
Proof.
  intros Hb. revert s. induction l as [|x l IH]; intros s; [done|]. simpl.
  apply keeps_bind; [done|]. intros s'. apply IH.
Qed.
End keeps.

Lemma keeps_deref a : keeps registry (deref a).
Proof. intros w. unfold deref. by destruct (stores w !! a). Qed.

Lemma keeps_Lock m : keeps registry (Lock m).
Proof. intros w. unfold Lock. by destruct (mutexes w !! m) as [[]|]. Qed.

Lemma keeps_Unlock m : keeps registry (Unlock m).
Proof. intros w. unfold Unlock. by destruct (mutexes w !! m) as [[]|]. Qed.

Lemma keeps_locked {A} m (body : M A) : keeps registry body → keeps registry (locked m body).
Proof.
  intros Hb. unfold locked. apply keeps_bind; [apply keeps_Lock|]. intros _.
  apply keeps_bind; [done|]. intros r.
  apply keeps_bind; [apply keeps_Unlock|]. intros _. apply keeps_ret.
Qed.

Lemma keeps_new_tensor i : keeps registry (new_tensor i).
Proof. done. Qed.

Lemma keeps_Copy_ dst src : keeps registry (Copy_ dst src).
Proof.
  intros w. unfold Copy_. destruct (impl_of w dst) as [[d di]|]; [|done].
  destruct (impl_of w src) as [[s si]|]; [|done]. by case_decide.
Qed.

Lemma keeps_NoGrad fn : keeps registry fn → keeps registry (NoGrad fn).
Proof.
  intros Hfn. unfold NoGrad. apply keeps_bind; [done|]. intros w0.
  apply keeps_bind; [done|]. intros _. apply keeps_bind; [done|]. by intros _.
Qed.

Lemma keeps_To t dev : keeps registry (To t dev).
Proof.
  intros w. unfold To. destruct (impl_of w t) as [[s i]|]; [|done].
  by destruct (device_ok w dev).
Qed.

Lemma keeps_LoadMulti filepath dev : keeps registry (LoadMultiWithDevice filepath dev).
Proof.
  intros w. unfold LoadMultiWithDevice. destruct (files w !! filepath) as [es|]; [|done].
  assert (keeps registry (load_entries dev es)) as Hes.
  { induction es as [|[n i] es IH]; [done|]. simpl.
    apply keeps_bind; [apply keeps_new_tensor|]. intros t.
    apply keeps_bind; [done|]. by intros r. }
  apply (keeps_bind registry (load_entries dev es)); [done|]. by intros r.
Qed.

(** Whatever the file holds and however the call ends, [Load] leaves
    the store structs and the maps as they were. *)
Lemma Load_keeps_registry vs filepath : keeps registry (VarStore_Load vs filepath).
Proof.
  unfold VarStore_Load. apply keeps_bind; [apply keeps_deref|]. intros v.
  apply keeps_bind; [apply keeps_LoadMulti|]. intros [nts [e|]]; [done|].
  apply keeps_locked, keeps_loop_until. intros nt.
  apply keeps_bind; [done|]. intros m. destruct (m !! nt_Name nt); [|done].
  apply keeps_bind; [apply keeps_NoGrad, keeps_Copy_|]. by intros _.
Qed.

Lemma LoadPartial_keeps_registry vs filepath :
  keeps registry (VarStore_LoadPartial vs filepath).
Proof.
  unfold VarStore_LoadPartial. apply keeps_bind; [apply keeps_deref|]. intros v.
  apply keeps_bind; [apply keeps_LoadMulti|]. intros [nts [e|]]; [done|].
  apply keeps_locked. apply keeps_bind; [|by intros r].
  apply keeps_for_each. intros acc nt.
  apply keeps_bind; [done|]. intros m. destruct (m !! nt_Name nt).
  - apply keeps_bind; [apply keeps_NoGrad, keeps_Copy_|]. by intros _.
  - apply keeps_bind; [apply keeps_NoGrad, keeps_Copy_|]. by intros _.
Qed.

Lemma Copy_keeps_registry vs src order1 order2 :
  keeps registry (VarStore_Copy vs src order1 order2).
Proof.
  unfold VarStore_Copy. apply keeps_bind; [apply keeps_deref|]. intros v.
  do 2 apply keeps_locked.
  apply keeps_bind; [done|]. intros sm. apply keeps_bind; [done|]. intros m.
  apply keeps_bind.
  { apply keeps_loop_until. intros kv. by destruct (sm !! kv.1). }
  intros [e|]; [done|]. apply keeps_loop_until. intros kv.
  apply keeps_bind; [apply keeps_To|]. intros [t [e|]]; [done|].
  apply keeps_bind; [apply keeps_NoGrad, keeps_Copy_|]. by intros _.
Qed.

(** ** Copy between stores *)

Lemma elem_of_range_map m order k t :
  (k, t) ∈ range_map m order ↔ k ∈ order ∧ m !! k = Some t.
Proof.
  unfold range_map. rewrite list_elem_of_omap. split.
  - intros (k' & Hk & Hf). destruct (m !! k') as [t'|] eqn:Hm; [|done].
    simpl in Hf. injection Hf as <- <-. done.
  - intros [Hk Hm]. exists k. by rewrite Hm.
Qed.

Lemma range_map_keys m order :
  (∀ k, k ∈ order → is_Some (m !! k)) → (range_map m order).*1 = order.
Proof.
  induction order as [|k order IH]; intros H; [done|].
  unfold range_map. simpl. destruct (H k) as [t Ht]; [by left|].
  rewrite Ht. simpl. f_equal. apply IH. intros k' Hk'. apply H. by right.
Qed.

(** The first loop of [Copy] changes nothing and finds a name the
    source lacks whenever there is one. *)
Lemma Copy_check_loop (sm : gmap string Tensor) kvs w :
  ∃ r,
    loop_until kvs
      (λ kv : string * Tensor,
         match sm !! kv.1 with
         | None => ret (Some (ErrCopyCannotFind kv.1))
         | Some _ => ret None
         end) w = Ret r w
    ∧ ((∃ kv, kv ∈ kvs ∧ sm !! kv.1 = None) →
       ∃ k, r = Some (ErrCopyCannotFind k) ∧ k ∈ kvs.*1 ∧ sm !! k = None)
    ∧ ((∀ kv, kv ∈ kvs → is_Some (sm !! kv.1)) → r = None).
Proof.
  induction kvs as [|kv kvs (r & Hrun & Herr & Hok)].
  { exists None. split; [done|]. split; [|done].
    intros (kv & Hin & _). by apply elem_of_nil in Hin. }
  simpl. destruct (sm !! kv.1) as [t|] eqn:Hkv.
  - exists r. split; [by rewrite bind_ret_l|]. split.
    + intros (kv' & Hin & Hnone). apply elem_of_cons in Hin as [->|Hin]; [congruence|].
      destruct Herr as (k & -> & Hk & Hk'); [by exists kv'|].
      exists k. split; [done|]. split; [by right|done].
    + intros Hall. apply Hok. intros kv' Hin. apply Hall. by right.
  - exists (Some (ErrCopyCannotFind kv.1)). split; [by rewrite bind_ret_l|]. split.
    + intros _. exists kv.1. split; [done|]. split; [by left|done].
    + intros Hall. destruct (Hall kv) as [? ?]; [by left|congruence].
Qed.

(** Two storages that agree on a set of blocks still agree on it after
    the same copies between blocks of the set. *)
Lemma copy_all_agree (D : nat → Prop) ps : ∀ σ1 σ2,
  (∀ x, D x → σ1 !! x = σ2 !! x) →
  (∀ p, p ∈ ps → D p.1 ∧ D p.2) →
  ∀ x, D x → foldl copy_step σ1 ps !! x = foldl copy_step σ2 ps !! x.
Proof.
  induction ps as [|p ps IH]; intros σ1 σ2 Hag Hin; [done|]. simpl.
  destruct (Hin p) as [Hp1 Hp2]; [by left|].
  apply IH; [|intros q Hq; apply Hin; by right].
  intros x Hx. unfold copy_step. rewrite (Hag _ Hp1), (Hag _ Hp2).
  destruct (σ2 !! p.1) as [di|]; [|by apply Hag].
  destruct (σ2 !! p.2) as [si|]; [|by apply Hag].
  destruct (decide (p.1 = x)) as [->|Hne].
  - by rewrite !lookup_insert_eq.
  - rewrite !lookup_insert_ne by done. by apply Hag.
Qed.

Lemma To_Ret w t dev s i :
  impl_of w t = Some (s, i) → device_ok w dev = true →
  To t dev w
  = Ret (MkTensor (Some (fresh (dom (ctensors w)))), None)
        (upd_ctensors <[fresh (dom (ctensors w)) := fresh (dom (storage w))]>
           (upd_storage <[fresh (dom (storage w)) := on_device dev i]> w)).
Proof. unfold To. intros -> ->. done. Qed.

(** The second loop of [Copy]: one [To] and one copy per pair. *)
Lemma Copy_loop (sm : gmap string Tensor) dev kvs : ∀ w,
  device_ok w dev = true →
  (∀ kv, kv ∈ kvs →
     ∃ st d ss, sm !! kv.1 = Some st ∧ block_of w kv.2 = Some d
                ∧ block_of w st = Some ss ∧ fits (storage w) (d, ss)) →
  ∃ ps w',
    loop_until kvs
      (λ kv : string * Tensor,
         let srcTs := default nil_tensor (sm !! kv.1) in
         let* (srcDevTs, err) := To srcTs dev in
         match err with
         | Some e => ret (Some e)
         | None => NoGrad (Copy_ kv.2 srcDevTs);; ret None
         end) w = Ret None w'
    ∧ registry w' = registry w ∧ mutexes w' = mutexes w
    ∧ ctensors w ⊆ ctensors w'
    ∧ (∀ x, is_Some (storage w !! x) →
         storage w' !! x = foldl copy_step (storage w) ps !! x)
    ∧ (∃ l, copy_log w' = copy_log w ++ l ∧ length l = length kvs
            ∧ Forall (λ e, e.2 = false) l)
    ∧ Forall2 (λ kv p, ∃ st, sm !! kv.1 = Some st ∧ block_of w kv.2 = Some p.1
                             ∧ block_of w st = Some p.2) kvs ps.
Proof.
  induction kvs as [|kv kvs IH]; intros w Hdev Hfit.
  { exists [], w. repeat split; try done.
    exists []. by rewrite app_nil_r. }
  destruct (Hfit kv) as (st & d & ss & Hst & Hbd & Hbs & Hp); [by left|].
  destruct (fits_impl _ _ Hp) as (di & si & Hdi & Hsi & Hshape). simpl in *.
  set (s' := fresh (dom (storage w))). set (c' := fresh (dom (ctensors w))).
  set (wa := upd_ctensors <[c' := s']> (upd_storage <[s' := on_device dev si]> w)).
  set (w1 := copied [(d, s')] wa).
  assert (s' ≠ d) as Hs'd.
  { intros Heq. pose proof (fresh_lookup (storage w)) as Hf. fold s' in Hf. congruence. }
  assert (ctensors w ⊆ ctensors w1) as Hc1 by apply insert_fresh_subseteq.
  (* the storage after this pair, on the blocks that existed *)
  assert (∀ x, is_Some (storage w !! x) →
               storage w1 !! x = copy_step (storage w) (d, ss) !! x) as Hag.
  { intros x [ix Hx]. unfold w1, copied, wa, copy_step. wsimpl. simpl.
    rewrite lookup_insert_ne, Hdi, lookup_insert_eq, Hsi by done.
    assert (s' ≠ x) as Hs'x.
    { intros Heq. pose proof (fresh_lookup (storage w)) as Hf. fold s' in Hf. congruence. }
    destruct (decide (d = x)) as [->|Hne].
    - by rewrite !lookup_insert_eq.
    - by rewrite !lookup_insert_ne. }
  destruct (IH w1) as (ps & w' & Hrun & Hreg & Hmu & Hc & Hsto & (l & Hlog & Hlen & Hl) & Hall).
  { done. }
  { intros kv' Hin.
    destruct (Hfit kv') as (st' & d' & ss' & ? & ? & ? & Hp'); [by right|].
    exists st', d', ss'. split; [done|].
    split; [by eapply block_of_mono|]. split; [by eapply block_of_mono|].
    destruct (fits_impl _ _ Hp') as (di' & si' & Hd' & Hss' & Hsh'). simpl in *.
    assert (∀ x, is_Some (storage w !! x) →
                 shape <$> storage w1 !! x = shape <$> storage w !! x) as Hsh1.
    { intros x Hx. by rewrite Hag, copy_step_shape. }
    split; simpl.
    - apply (fmap_is_Some shape). rewrite Hsh1, Hd' by eauto. simpl. eauto.
    - rewrite !Hsh1 by eauto. rewrite Hd', Hss'. simpl. by rewrite Hsh'. }
  exists ((d, ss) :: ps), w'. split.
  { simpl. rewrite Hst. simpl.
    step by (eapply To_Ret; [by apply impl_of_block|done]).
    step by (eapply NoGrad_Copy_Ret;
             [apply impl_of_block; split;
              [eapply (block_of_mono w); [apply insert_fresh_subseteq|exact Hbd]
              |wsimpl; rewrite lookup_insert_ne by done; exact Hdi]
             |apply impl_of_handle; wsimpl; apply lookup_insert_eq
             |exact Hshape]).
    rewrite bind_ret_l. exact Hrun. }
  split; [by rewrite Hreg|]. split; [by rewrite Hmu|].
  split; [by etransitivity|]. split.
  { intros x Hx. rewrite Hsto.
    - simpl. apply (copy_all_agree (λ x, is_Some (storage w !! x))); [done| |done].
      intros p Hp'. apply list_elem_of_lookup in Hp' as [j Hj].
      destruct (Forall2_lookup_r _ _ _ _ _ Hall Hj) as (kv' & Hkv' & st' & Hst' & Hb1 & Hb2).
      destruct (Hfit kv') as (st'' & d' & ss' & Hst'' & Hbd' & Hbs' & Hp'');
        [right; by eapply list_elem_of_lookup_2|].
      rewrite Hst' in Hst''. injection Hst'' as <-.
      apply (block_of_mono _ w1) in Hbd', Hbs'; [|done..].
      destruct (fits_impl _ _ Hp'') as (? & ? & ? & ? & _). simpl in *.
      split; [replace p.1 with d' by congruence|replace p.2 with ss' by congruence]; eauto.
    - apply (fmap_is_Some shape). rewrite Hag, copy_step_shape by done.
      by apply fmap_is_Some. }
  split.
  { exists ((d, s', false) :: l). split; [|split].
    - rewrite Hlog. unfold w1, copied, wa. wsimpl. by rewrite <- app_assoc.
    - simpl. by rewrite Hlen.
    - by constructor. }
  constructor; [by exists st|].
  apply Forall2_same_length_lookup_2; [by eapply Forall2_length|].
  intros j kv' p Hkv Hpj.
  destruct (Forall2_lookup_lr _ _ _ _ _ _ Hall Hkv Hpj) as (st' & Hst' & Hb1 & Hb2).
  destruct (Hfit kv') as (st'' & d' & ss' & Hst'' & Hbd' & Hbs' & _);
    [right; by eapply list_elem_of_lookup_2|].
  rewrite Hst' in Hst''. injection Hst'' as <-.
  exists st'. split; [done|].
  pose proof (block_of_mono _ w1 _ _ Hc1 Hbd') as Hbd1.
  pose proof (block_of_mono _ w1 _ _ Hc1 Hbs') as Hbs1.
  split; congruence.
Qed.

Lemma unlock_both (ms : gmap nat bool) a b :
  a ≠ b → ms !! a = Some false → ms !! b = Some false →
  <[a := false]> (<[b := false]> (<[b := true]> (<[a := true]> ms))) = ms.
Proof.
  intros Hne Ha Hb. rewrite insert_insert_eq.
  rewrite (insert_insert_ne _ a b) by done.
  rewrite insert_insert_eq. rewrite (insert_id _ a) by done. by apply insert_id.
Qed.

Lemma Copy_missing (w : World) (vs : nat) (v src : VarStore) (order1 order2 : list string)
    (m sm : gmap string Tensor) :
  stores w !! vs = Some v →
  mutex (Vars v) ≠ mutex (Vars src) →
  mutexes w !! mutex (Vars v) = Some false →
  mutexes w !! mutex (Vars src) = Some false →
  gomaps w !!! NamedVariables (Vars v) = m →
  gomaps w !!! NamedVariables (Vars src) = sm →
  range_order m order1 →
  (∃ k, is_Some (m !! k) ∧ sm !! k = None) →
  ∃ k, VarStore_Copy vs src order1 order2 w = Ret (Some (ErrCopyCannotFind k)) w
       ∧ is_Some (m !! k) ∧ sm !! k = None.
Proof.
  intros Hvs Hne Hmv Hms Hm Hsm [Hnd1 Hord1] (k & [t Hk] & Hnone).
  assert (mutex (Vars src) ≠ mutex (Vars v)) as Hne' by done.
  set (w2 := upd_mutexes <[mutex (Vars src) := true]>
               (upd_mutexes <[mutex (Vars v) := true]> w)).
  destruct (Copy_check_loop sm (range_map m order1) w2) as (r & Hrun & Herr & _).
  destruct Herr as (k' & -> & Hk' & Hnone').
  { exists (k, t). split; [|done]. apply elem_of_range_map. split; [|done].
    apply Hord1. by exists t. }
  exists k'. split; [|split; [|done]].
  - unfold VarStore_Copy.
    step by (by apply deref_Ret). unfold locked.
    step by (by apply Lock_Ret).
    step by (apply Lock_Ret; wsimpl; by rewrite lookup_insert_ne).
    step by (unfold read_map; reflexivity). rewrite Hsm.
    step by (unfold read_map; reflexivity). rewrite Hm.
    fold w2. step by exact Hrun.
    rewrite ?bind_assoc, bind_ret_l.
    step by (apply Unlock_Ret; wsimpl; apply lookup_insert_eq).
    rewrite ?bind_assoc, bind_ret_l.
    step by (apply Unlock_Ret; unfold w2; wsimpl;
             rewrite lookup_insert_ne by done; rewrite lookup_insert_ne by done;
             apply lookup_insert_eq).
    unfold ret, w2. f_equal. destruct w. unfold upd_mutexes. simpl in *. f_equal.
    by apply unlock_both.
  - apply list_elem_of_fmap in Hk' as ([k'' t'] & -> & Hin).
    apply elem_of_range_map in Hin as [_ Hin]. by exists t'.
Qed.

Lemma Copy_superset (w : World) (vs : nat) (v src : VarStore) (order1 order2 : list string)
    (m sm : gmap string Tensor) :
  stores w !! vs = Some v →
  mutex (Vars v) ≠ mutex (Vars src) →
  mutexes w !! mutex (Vars v) = Some false →
  mutexes w !! mutex (Vars src) = Some false →
  gomaps w !!! NamedVariables (Vars v) = m →
  gomaps w !!! NamedVariables (Vars src) = sm →
  range_order m order1 → range_order m order2 →
  (∀ k, is_Some (m !! k) → is_Some (sm !! k)) →
  device_ok w (device v) = true →
  (∀ k t st, m !! k = Some t → sm !! k = Some st →
     ∃ d di ss si, impl_of w t = Some (d, di) ∧ impl_of w st = Some (ss, si)
                   ∧ shape di = shape si) →
  ∃ w',
    VarStore_Copy vs src order1 order2 w = Ret None w'
    ∧ registry w' = registry w
    ∧ (∃ l, copy_log w' = copy_log w ++ l ∧ length l = length order2
            ∧ Forall (λ e, e.2 = false) l)
    ∧ ((∀ k1 k2 t1 t2 d, m !! k1 = Some t1 → m !! k2 = Some t2 →
          block_of w t1 = Some d → block_of w t2 = Some d → k1 = k2) →
       (∀ k1 k2 t st d, m !! k1 = Some t → is_Some (m !! k2) → sm !! k2 = Some st →
          block_of w t = Some d → block_of w st ≠ Some d) →
       ∀ k t st, m !! k = Some t → sm !! k = Some st →
         is_Some (values_of w st) ∧ values_of w' t = values_of w st).
Proof.
  intros Hvs Hne Hmv Hms Hm Hsm [Hnd1 Hord1] [Hnd2 Hord2] Hsup Hdev Hfit.
  assert (mutex (Vars src) ≠ mutex (Vars v)) as Hne' by done.
  set (w2 := upd_mutexes <[mutex (Vars src) := true]>
               (upd_mutexes <[mutex (Vars v) := true]> w)).
  destruct (Copy_check_loop sm (range_map m order1) w2) as (r & Hrun & _ & Hok).
  rewrite Hok in Hrun; clear Hok.
  2:{ intros [k t] Hin. apply elem_of_range_map in Hin as [_ Hin]. apply Hsup. by exists t. }
  assert ((range_map m order2).*1 = order2) as Hkeys.
  { apply range_map_keys. intros k Hk. by apply Hord2. }
  destruct (Copy_loop sm (device v) (range_map m order2) w2)
    as (ps & w' & Hloop & Hreg & Hmu & Hc & Hsto & (l & Hlog & Hlen & Hl) & Hall).
  { done. }
  { intros [k t] Hin. apply elem_of_range_map in Hin as [_ Hin].
    destruct (Hsup k) as [st Hst]; [by exists t|].
    destruct (Hfit k t st Hin Hst) as (d & di & ss & si & Hd & Hs & Hshape).
    apply impl_of_block in Hd as [Hbd Hdi]. apply impl_of_block in Hs as [Hbs Hsi].
    exists st, d, ss. split; [done|]. split; [done|]. split; [done|].
    split; simpl; [by exists di|]. change (storage w2) with (storage w).
    rewrite Hdi, Hsi. simpl. by rewrite Hshape. }
  exists (upd_mutexes <[mutex (Vars v) := false]>
            (upd_mutexes <[mutex (Vars src) := false]> w')).
  split.
  { unfold VarStore_Copy.
    step by (by apply deref_Ret). unfold locked.
    step by (by apply Lock_Ret).
    step by (apply Lock_Ret; wsimpl; by rewrite lookup_insert_ne).
    step by (unfold read_map; reflexivity). rewrite Hsm.
    step by (unfold read_map; reflexivity). rewrite Hm.
    fold w2. step by exact Hrun.
    step by exact Hloop.
    step by (apply Unlock_Ret; rewrite Hmu; unfold w2; wsimpl; apply lookup_insert_eq).
    rewrite ?bind_assoc, bind_ret_l.
    step by (apply Unlock_Ret; wsimpl; rewrite Hmu; unfold w2; wsimpl;
             rewrite lookup_insert_ne by done; rewrite lookup_insert_ne by done;
             apply lookup_insert_eq).
    done. }
  split; [exact Hreg|]. split.
  { exists l. wsimpl. rewrite Hlog. split; [done|]. split; [|done].
    by rewrite Hlen, <- (length_fmap fst), Hkeys. }
  intros Hinj Hdisj.
  (* what each copied pair is *)
  assert (∀ j p, ps !! j = Some p →
            ∃ k t st di si, range_map m order2 !! j = Some (k, t)
                            ∧ m !! k = Some t ∧ sm !! k = Some st
                            ∧ block_of w t = Some p.1 ∧ block_of w st = Some p.2
                            ∧ storage w !! p.1 = Some di
                            ∧ storage w !! p.2 = Some si) as Hidx.
  { intros j p Hj.
    destruct (Forall2_lookup_r _ _ _ _ _ Hall Hj) as ([k t] & Hkv & st & Hst & Hb1 & Hb2).
    assert (m !! k = Some t) as Hk.
    { eapply elem_of_range_map. by eapply list_elem_of_lookup_2. }
    simpl in *.
    destruct (Hfit k t st Hk Hst) as (d & di & ss & si & Hd & Hs & _).
    apply impl_of_block in Hd as [Hbd Hdi]. apply impl_of_block in Hs as [Hbs Hsi].
    change (block_of w t = Some p.1) in Hb1. change (block_of w st = Some p.2) in Hb2.
    exists k, t, st, di, si. repeat split; try done; congruence. }
  assert (NoDup ps.*1) as Hnd.
  { apply NoDup_alt. intros j1 j2 x Hj1 Hj2.
    apply list_lookup_fmap_Some in Hj1 as (p1 & -> & Hp1).
    apply list_lookup_fmap_Some in Hj2 as (p2 & Heq & Hp2).
    destruct (Hidx _ _ Hp1) as (k1 & t1 & ? & ? & ? & He1 & Hm1 & _ & Hb1 & _).
    destruct (Hidx _ _ Hp2) as (k2 & t2 & ? & ? & ? & He2 & Hm2 & _ & Hb2 & _).
    rewrite <- Heq in Hb2.
    assert (k1 = k2) as Hk by (by eapply Hinj).
    eapply NoDup_lookup; [exact Hnd2| |].
    - by rewrite <- Hkeys, list_lookup_fmap, He1.
    - by rewrite <- Hkeys, list_lookup_fmap, He2, Hk. }
  assert (∀ p, p ∈ ps → p.2 ∉ ps.*1) as Hsrc.
  { intros p Hp Hin.
    apply list_elem_of_lookup in Hp as [j Hp].
    apply list_elem_of_fmap in Hin as (p' & Heq & Hp').
    apply list_elem_of_lookup in Hp' as [j' Hp'].
    destruct (Hidx _ _ Hp) as (k & t & st & _ & _ & _ & Hk & Hst & _ & Hbs & _).
    destruct (Hidx _ _ Hp') as (k' & t' & _ & _ & _ & _ & Hk' & _ & Hbd' & _).
    eapply (Hdisj k' k t' st); [done|by exists t|done|exact Hbd'|congruence]. }
  intros k t st Hk Hst.
  destruct (Hfit k t st Hk Hst) as (d & di & ss & si & Hd & Hs & _).
  apply impl_of_block in Hd as [Hbd Hdi]. apply impl_of_block in Hs as [Hbs Hsi].
  rewrite (values_of_block w st ss si) by done. split; [eauto|].
  assert ((k, t) ∈ range_map m order2) as Hin.
  { apply elem_of_range_map. split; [|done]. apply Hord2. by exists t. }
  apply list_elem_of_lookup in Hin as [j Hj].
  destruct (Forall2_lookup_l _ _ _ _ _ Hall Hj) as (p & Hp & _).
  destruct (Hidx _ _ Hp) as (k' & t' & st' & ? & ? & He & _ & Hst' & Hb1 & Hb2 & _).
  rewrite Hj in He. injection He as <- <-.
  rewrite Hst in Hst'. injection Hst' as <-.
  assert (p = (d, ss)) as -> by (destruct p; simpl in *; congruence).
  change (values si) with (values (set_values (values si) di)).
  apply (values_of_block _ _ d).
  - eapply (block_of_mono w); [|exact Hbd]. wsimpl. exact Hc.
  - wsimpl. rewrite Hsto by (by exists di).
    eapply copy_all_values; [done|done|by eapply list_elem_of_lookup_2|done..].
Qed.

(** [Copy] locks the destination's mutex and then the source's.  A store
    copied onto itself ([vs.Copy] applied to [*vs]: the struct copy holds
    the same mutex) asks for the mutex it already holds: whatever the maps hold,
    the call never returns, and nothing but the mutex has changed. *)
Lemma Copy_shared_mutex (w : World) (vs : nat) (v src : VarStore)
    (order1 order2 : list string) :
  stores w !! vs = Some v →
  mutex (Vars src) = mutex (Vars v) →
  mutexes w !! mutex (Vars v) = Some false →
  VarStore_Copy vs src order1 order2 w
  = Abort Deadlock (upd_mutexes <[mutex (Vars v) := true]> w).
Proof.
  intros Hvs Heq Hmu. unfold VarStore_Copy.
  step by (by apply deref_Ret). unfold locked at 1.
  step by (by apply Lock_Ret).
  unfold locked, bind, Lock. wsimpl. by rewrite Heq, lookup_insert_eq.
Qed.

(** The claim as the spec has it, for every destination and source,
    fails for a store and itself: the source has every name of the
    destination, and the call does not succeed. *)
Lemma Copy_onto_itself_never_returns :
  let v := MkVarStore CPU (MkVariables 0 0 (Slice 1 2 2)) in
  stores store_a_b_world !! 0 = Some v
  ∧ mutexes store_a_b_world !! mutex (Vars v) = Some false
  ∧ range_order (named_of store_a_b_world 0) ["a"; "b"]
  ∧ (∀ k, is_Some (named_of store_a_b_world 0 !! k) →
          is_Some ((gomaps store_a_b_world !!! NamedVariables (Vars v)) !! k))
  ∧ VarStore_Copy 0 v ["a"; "b"] ["a"; "b"] store_a_b_world
    = Abort Deadlock (upd_mutexes <[0 := true]> store_a_b_world)
  ∧ ¬ ∃ w', VarStore_Copy 0 v ["a"; "b"] ["a"; "b"] store_a_b_world = Ret None w'.
Proof.
  intros v.
  assert (stores store_a_b_world !! 0 = Some v) as Hvs by (vm_compute; reflexivity).
  assert (mutexes store_a_b_world !! mutex (Vars v) = Some false) as Hmu
    by (vm_compute; reflexivity).
  assert (VarStore_Copy 0 v ["a"; "b"] ["a"; "b"] store_a_b_world
          = Abort Deadlock (upd_mutexes <[0 := true]> store_a_b_world)) as Hrun.
  { exact (Copy_shared_mutex store_a_b_world 0 v v ["a"; "b"] ["a"; "b"] Hvs eq_refl Hmu). }
  split; [exact Hvs|]. split; [exact Hmu|]. split.
  { assert (named_of store_a_b_world 0
            = <["b" := MkTensor (Some 5)]> (<["a" := MkTensor (Some 2)]> ∅)) as ->
      by (vm_compute; reflexivity).
    split.
    - apply NoDup_cons_2; [|apply NoDup_singleton].
      intros Hin%list_elem_of_singleton. discriminate Hin.
    - intros k. split.
      + intros Hk. apply elem_of_cons in Hk as [->|Hk].
        * rewrite lookup_insert_ne by discriminate. rewrite lookup_insert_eq. eauto.
        * apply list_elem_of_singleton in Hk as ->. rewrite lookup_insert_eq. eauto.
      + intros [t Ht]. apply lookup_insert_Some in Ht as [[<- _]|[_ Ht]].
        * right. by left.
        * apply lookup_insert_Some in Ht as [[<- _]|[_ Ht]]; [by left|].
          rewrite lookup_empty in Ht. discriminate Ht. }
  split.
  { intros k Hk. unfold named_of in Hk. rewrite Hvs in Hk. exact Hk. }
  split; [exact Hrun|].
  intros [w' Hw']. rewrite Hrun in Hw'. discriminate Hw'.
Qed.

(** C6. [Copy] between two stores with distinct, free mutexes.  If a
    name of the destination is absent from the source the call returns
    an error and the world is exactly as before.  If the source has
    every name of the destination, the device is available and the
    shapes agree, the call succeeds, the destination registry keeps its
    names and handles, every copy runs with gradient tracking off, and
    (no block being shared among the variables involved) each
    destination handle ends with the values of the source variable of
    the same name. *)
Theorem Copy_prevalidates (w : World) (vs : nat) (v src : VarStore)
    (order1 order2 : list string) (m sm : gmap string Tensor) :
  stores w !! vs = Some v →
  mutex (Vars v) ≠ mutex (Vars src) →
  mutexes w !! mutex (Vars v) = Some false →
  mutexes w !! mutex (Vars src) = Some false →
  gomaps w !!! NamedVariables (Vars v) = m →
  gomaps w !!! NamedVariables (Vars src) = sm →
  range_order m order1 → range_order m order2 →
  ((∃ k, is_Some (m !! k) ∧ sm !! k = None) →
   ∃ k, VarStore_Copy vs src order1 order2 w = Ret (Some (ErrCopyCannotFind k)) w
        ∧ is_Some (m !! k) ∧ sm !! k = None)
  ∧ ((∀ k, is_Some (m !! k) → is_Some (sm !! k)) →
     device_ok w (device v) = true →
     (∀ k t st, m !! k = Some t → sm !! k = Some st →
        ∃ d di ss si, impl_of w t = Some (d, di) ∧ impl_of w st = Some (ss, si)
                      ∧ shape di = shape si) →
     ∃ w',
       VarStore_Copy vs src order1 order2 w = Ret None w'
       ∧ registry w' = registry w
       ∧ (∃ l, copy_log w' = copy_log w ++ l ∧ length l = length order2
               ∧ Forall (λ e, e.2 = false) l)
       ∧ ((∀ k1 k2 t1 t2 d, m !! k1 = Some t1 → m !! k2 = Some t2 →
             block_of w t1 = Some d → block_of w t2 = Some d → k1 = k2) →
          (∀ k1 k2 t st d, m !! k1 = Some t → is_Some (m !! k2) → sm !! k2 = Some st →
             block_of w t = Some d → block_of w st ≠ Some d) →
          ∀ k t st, m !! k = Some t → sm !! k = Some st →
            is_Some (values_of w st) ∧ values_of w' t = values_of w st)).
Proof.
  intros Hvs Hne Hmv Hms Hm Hsm Ho1 Ho2. split.
  - by apply (Copy_missing w vs v src order1 order2 m sm).
  - intros Hsup Hdev Hfit. by apply (Copy_superset w vs v src order1 order2 m sm).
Qed.

Lemma Copy_prevalidates_witness :
  (* the small store takes its one variable from the large one *)
  (∃ w', VarStore_Copy 0 (MkVarStore CPU (MkVariables 1 1 (Slice 2 2 2))) ["a"] ["a"]
           two_stores_world = Ret None w'
         ∧ registry w' = registry two_stores_world
         ∧ values_of w' (MkTensor (Some 2)) = Some [1; 1]%Z)
  (* the large store cannot be filled from the small one *)
  ∧ (∃ k, VarStore_Copy 1 (MkVarStore CPU (MkVariables 0 0 (Slice 0 1 1)))
            ["a"; "b"] ["b"; "a"] two_stores_world
          = Ret (Some (ErrCopyCannotFind k)) two_stores_world).
Proof.
  set (ta := MkTensor (Some 2)). set (sa := MkTensor (Some 5)). set (sb := MkTensor (Some 8)).
  set (small := MkVarStore CPU (MkVariables 0 0 (Slice 0 1 1))).
  set (large := MkVarStore CPU (MkVariables 1 1 (Slice 2 2 2))).
  assert (∀ (k : string) (t : Tensor), (∅ : gmap string Tensor) !! k = Some t → False) as Hemp.
  { intros k t Ht. rewrite lookup_empty in Ht. discriminate Ht. }
  assert (range_order (<["a" := ta]> ∅) ["a"]) as Hsmall.
  { split; [apply NoDup_singleton|]. intros k. split.
    - intros ->%list_elem_of_singleton. rewrite lookup_insert_eq. eauto.
    - intros [t Ht]. apply lookup_insert_Some in Ht as [[<- _]|[_ Ht]].
      + by apply list_elem_of_singleton.
      + destruct (Hemp _ _ Ht). }
  assert (∀ order, NoDup order → (∀ k, k ∈ order ↔ k = "a" ∨ k = "b") →
                   range_order (<["a" := sa]> (<["b" := sb]> ∅)) order) as Hlarge.
  { intros order Hnd Hk. split; [exact Hnd|]. intros k. rewrite Hk. split.
    - intros [->| ->]; [rewrite lookup_insert_eq; eauto|].
      rewrite lookup_insert_ne by discriminate. rewrite lookup_insert_eq. eauto.
    - intros [t Ht]. apply lookup_insert_Some in Ht as [[<- _]|[_ Ht]]; [by left|].
      apply lookup_insert_Some in Ht as [[<- _]|[_ Ht]]; [by right|].
      destruct (Hemp _ _ Ht). }
  split.
  - destruct (Copy_prevalidates two_stores_world 0 small large ["a"] ["a"]
                (<["a" := ta]> ∅) (<["a" := sa]> (<["b" := sb]> ∅)))
      as [_ Hok]; [vm_compute; reflexivity|vm_compute; discriminate
                  |vm_compute; reflexivity..|exact Hsmall|exact Hsmall|].
    destruct Hok as (w' & Hrun & Hreg & _ & Hval).
    { intros k [t Ht]. apply lookup_insert_Some in Ht as [[<- _]|[_ Ht]].
      - rewrite lookup_insert_eq. eauto.
      - destruct (Hemp _ _ Ht). }
    { reflexivity. }
    { intros k t st Ht Hst.
      apply lookup_insert_Some in Ht as [[<- <-]|[_ Ht]]; [|destruct (Hemp _ _ Ht)].
      rewrite lookup_insert_eq in Hst. injection Hst as <-.
      eexists _, _, _, _. repeat split; vm_compute; reflexivity. }
    exists w'. split; [exact Hrun|]. split; [exact Hreg|].
    destruct (Hval) with (k := "a") (t := ta) (st := sa) as [_ ->];
      [| |apply lookup_insert_eq|apply lookup_insert_eq|vm_compute; reflexivity].
    + intros k1 k2 t1 t2 d H1 H2 _ _.
      apply lookup_insert_Some in H1 as [[<- _]|[_ H1]]; [|destruct (Hemp _ _ H1)].
      apply lookup_insert_Some in H2 as [[<- _]|[_ H2]]; [|destruct (Hemp _ _ H2)].
      reflexivity.
    + intros k1 k2 t st d H1 _ H2 Hb1 Hb2.
      apply lookup_insert_Some in H1 as [[<- <-]|[_ H1]]; [|destruct (Hemp _ _ H1)].
      apply lookup_insert_Some in H2 as [[<- <-]|[_ H2]].
      * vm_compute in Hb1, Hb2. congruence.
      * apply lookup_insert_Some in H2 as [[<- <-]|[_ H2]]; [|destruct (Hemp _ _ H2)].
        vm_compute in Hb1, Hb2. congruence.
  - destruct (Copy_prevalidates two_stores_world 1 large small ["a"; "b"] ["b"; "a"]
                (<["a" := sa]> (<["b" := sb]> ∅)) (<["a" := ta]> ∅))
      as [Herr _]; [vm_compute; reflexivity|vm_compute; discriminate
                   |vm_compute; reflexivity..| | |].
    { apply Hlarge;
        [apply NoDup_cons_2; [intros Hx%list_elem_of_singleton; discriminate Hx
                             |apply NoDup_singleton]|].
      intros k.
      rewrite !elem_of_cons, elem_of_nil. tauto. }
    { apply Hlarge;
        [apply NoDup_cons_2; [intros Hx%list_elem_of_singleton; discriminate Hx
                             |apply NoDup_singleton]|].
      intros k.
      rewrite !elem_of_cons, elem_of_nil. tauto. }
    destruct Herr as (k & Hrun & _).
    { exists "b". split.
      - rewrite lookup_insert_ne by discriminate. rewrite lookup_insert_eq. eauto.
      - rewrite lookup_insert_ne by discriminate. apply lookup_empty. }
    exists k. exact Hrun.
Defined.

(** * More of the package *)

(** ** Sub-paths share their array *)

(** X1. [Sub] appends to the receiver's slice.  When the slice has spare
    capacity the new segment is written into the shared array, so a
    second [Sub] from the same path overwrites the segment of the first:
    after [pa := p.Sub(a); pb := p.Sub(b)] the path [pa] reads [b] as its
    last segment.  Without spare capacity each [Sub] gets its own array
    and [pa] keeps [a]. *)
Theorem Sub_twice_from_one_path (w : World) (p : Path) (a b : string) :
  slice_ok (string_arrays w) (path p) →
  Contains a SEP = false → Contains b SEP = false →
  ∃ pa wa pb wb,
    Path_Sub p a w = Ret pa wa
    ∧ Path_Sub p b wa = Ret pb wb
    ∧ segments wa pa = segments w p ++ [a]
    ∧ segments wb pb = segments w p ++ [b]
    ∧ segments wb pa
      = segments w p ++ [if s_len (path p) <? s_cap (path p) then b else a]
    ∧ segments wb p = segments w p.
Proof.
  intros Hok Ha Hb.
  destruct (Path_Sub_ok p a w Ha Hok) as (pa & wa & Hpa & Hsa & Hoka & Hla & _).
  assert (slice_ok (string_arrays wa) (path p) ∧ segments wa p = segments w p
          ∧ path pa = (slice_append EmptyString (string_arrays w) (path p) a).1
          ∧ string_arrays wa = (slice_append EmptyString (string_arrays w) (path p) a).2)
    as (Hokp & Hsp & Hpa1 & Hwa).
  { revert Hpa. unfold Path_Sub. rewrite Ha. unfold bind, append_string, ret.
    pose proof (slice_append_frame EmptyString (string_arrays w) (path p) a (path p)) as Hfr.
    destruct Hok as [Hlen Hcap].
    destruct (slice_append EmptyString (string_arrays w) (path p) a) as [s' h'] eqn:Happ.
    intros [= <- <-]. simpl in *. split; [|split; [|done]].
    - split; [done|]. revert Happ. unfold slice_append.
      destruct (Nat.ltb_spec (s_len (path p)) (s_cap (path p))) as [Hlt|Hge];
        intros [= <- <-].
      + by rewrite lookup_total_insert_eq, length_insert.
      + destruct (decide (s_cap (path p) = 0)) as [H0|H0]; [lia|].
        rewrite lookup_total_insert_ne; [done|]. intros Heq.
        pose proof (fresh_lookup (string_arrays w)) as Hf. rewrite Heq in Hf.
        rewrite lookup_total_alt, Hf in Hcap. simpl in Hcap. lia.
    - unfold segments. apply Hfr; [done|].
      destruct (string_arrays w !! s_arr (path p)) as [l|] eqn:Hl; [by left|right].
      rewrite lookup_total_alt, Hl in Hcap. simpl in Hcap. lia. }
  destruct (Path_Sub_ok p b wa Hb Hokp) as (pb & wb & Hpb & Hsb & Hokb & Hlb & _).
  exists pa, wa, pb, wb. split; [done|]. split; [done|]. split; [done|].
  rewrite Hsp in Hsb. split; [done|].
  assert (path pb = (slice_append EmptyString (string_arrays wa) (path p) b).1
          ∧ string_arrays wb = (slice_append EmptyString (string_arrays wa) (path p) b).2)
    as [Hpb1 Hwb].
  { revert Hpb. unfold Path_Sub. rewrite Hb. unfold bind, append_string, ret.
    destruct (slice_append EmptyString (string_arrays wa) (path p) b) as [s' h'].
    by intros [= <- <-]. }
  split.
  - destruct (Nat.ltb_spec (s_len (path p)) (s_cap (path p))) as [Hlt|Hge].
    + (* in place: both headers are the same *)
      assert (path pa = path pb) as Heq.
      { rewrite Hpa1, Hpb1. unfold slice_append.
        by rewrite (proj2 (Nat.ltb_lt _ _) Hlt). }
      unfold segments in *. by rewrite Heq.
    + (* two fresh arrays *)
      unfold slice_append in Hpa1, Hwa, Hpb1, Hwb.
      rewrite (proj2 (Nat.ltb_ge _ _) Hge) in Hpa1, Hwa, Hpb1, Hwb. simpl in *.
      rewrite <- Hsa. unfold segments, slice_elems. rewrite Hwb, Hpa1. simpl.
      rewrite lookup_total_insert_ne; [done|]. intros Heq.
      pose proof (fresh_lookup (string_arrays wa)) as Hf.
      rewrite Heq, Hwa, lookup_insert_eq in Hf. discriminate Hf.
  - unfold segments. rewrite Hwb.
    rewrite (slice_append_frame EmptyString (string_arrays wa) (path p) b (path p)); [done|done|].
    destruct Hokp as [Hlen Hcap].
    destruct (string_arrays wa !! s_arr (path p)) as [l|] eqn:Hl; [by left|right].
    rewrite lookup_total_alt, Hl in Hcap. simpl in Hcap. lia.
Qed.

Lemma Sub_twice_from_one_path_witness :
  slice_ok (string_arrays deep_path_world) (Slice 2 3 4)
  ∧ ∃ pa wa pb wb,
      Path_Sub (MkPath (Slice 2 3 4) 0) "a" deep_path_world = Ret pa wa
      ∧ Path_Sub (MkPath (Slice 2 3 4) 0) "b" wa = Ret pb wb
      ∧ segments wb pa = ["x"; "y"; "z"; "b"].
Proof.
  assert (slice_ok (string_arrays deep_path_world) (Slice 2 3 4)) as Hok.
  { split; [simpl; lia|]. vm_compute. lia. }
  split; [exact Hok|].
  destruct (Sub_twice_from_one_path deep_path_world (MkPath (Slice 2 3 4) 0) "a" "b")
    as (pa & wa & pb & wb & Hpa & Hpb & _ & _ & Hseg & _);
    [exact Hok|reflexivity|reflexivity|].
  exists pa, wa, pb, wb. split; [exact Hpa|]. split; [exact Hpb|].
  rewrite Hseg. vm_compute. reflexivity.
Defined.

(** ** Creating a variable *)

Lemma trainable_of_eq w a v :
  stores w !! a = Some v →
  trainable_of w a = slice_elems (tensor_arrays w) (TrainableVariables (Vars v)).
Proof. intros Hv. unfold trainable_of. by rewrite Hv. Qed.

(** What [add] does, for a name that is bound or not. *)
Lemma Path_add_spec (w : World) (p : Path) (name : string) (newTs : Tensor)
    (trainable : bool) (vs : VarStore) (m : gmap string Tensor) (s : nat) (i : Impl) :
  Contains name SEP = false →
  stores w !! varstore p = Some vs →
  mutexes w !! mutex (Vars vs) = Some false →
  gomaps w !! NamedVariables (Vars vs) = Some m →
  impl_of w newTs = Some (s, i) →
  (trainable = true → supports_grad (kind i) = true) →
  (trainable = true → slice_ok (tensor_arrays w) (TrainableVariables (Vars vs))) →
  let q := qualified w p name in
  let key := if bool_decide (is_Some (m !! q)) then q +:+ "__" +:+ Itoa (size m) else q in
  ∃ t w',
    Path_add p name newTs trainable w = Ret t w'
    ∧ named_of w' (varstore p) = <[key := t]> m
    ∧ block_of w t = None
    ∧ impl_of w' t = Some (s, if trainable then set_grad true i else i)
    ∧ trainable_of w' (varstore p)
      = trainable_of w (varstore p) ++ (if trainable then [t] else [])
    ∧ mutexes w' = mutexes w
    ∧ ctensors w ⊆ ctensors w'
    ∧ (∀ x, x ≠ s → storage w' !! x = storage w !! x)
    ∧ ∃ v', stores w' !! varstore p = Some v' ∧ mutex (Vars v') = mutex (Vars vs)
            ∧ NamedVariables (Vars v') = NamedVariables (Vars vs).
Proof.
  intros Hsep Hvs Hmu Hmap Hts Hgrad Hok q key.
  unfold Path_add.
  step by (by apply Path_getpath_Ret).
  step by (by apply deref_Ret).
  unfold locked.
  step by (by apply Lock_Ret).
  step by (unfold read_map; reflexivity).
  rewrite (lookup_total_correct _ _ _ Hmap). fold q. fold key.
  pose proof Hts as (c0 & Hc0 & Hcs & Hsi)%impl_of_Some.
  set (c1 := fresh (dom (ctensors w))).
  destruct trainable.
  - set (c2 := fresh (dom (<[c1 := s]> (ctensors w)))).
    step by (eapply MustShallowClone_Ret; exact Hts).
    step by (eapply SetRequiresGrad_Ret;
             [apply impl_of_handle; wsimpl; [apply lookup_insert_eq|exact Hsi]
             |by apply Hgrad]).
    rewrite ?bind_assoc, bind_ret_l.
    step by (apply deref_Ret; exact Hvs).
    step by (apply append_tensor_Ret).
    step by (eapply set_TrainableVariables_Ret; exact Hvs).
    step by (eapply map_store_Ret; exact Hmap).
    rewrite ?bind_assoc, bind_ret_l.
    step by (apply Unlock_Ret; wsimpl; apply lookup_insert_eq).
    fold c1 c2.
    assert (ctensors w !! c2 = None) as Hc2.
    { eapply lookup_weaken_None; [apply (fresh_lookup (<[c1 := s]> (ctensors w)))|].
      apply insert_fresh_subseteq. }
    eexists _, _. split; [reflexivity|].
    split; [eapply named_of_eq; wsimpl; apply lookup_insert_eq|].
    split; [exact Hc2|].
    split; [apply impl_of_handle; wsimpl; apply lookup_insert_eq|].
    split.
    { erewrite trainable_of_eq by (wsimpl; apply lookup_insert_eq).
      erewrite (trainable_of_eq w) by exact Hvs. wsimpl.
      apply slice_append_elems. by apply Hok. }
    split; [wsimpl; by apply unlock_lock|].
    split.
    { wsimpl. etransitivity; [apply insert_fresh_subseteq|].
      apply (insert_fresh_subseteq (<[c1 := s]> (ctensors w))). }
    split; [intros x Hx; wsimpl; by rewrite lookup_insert_ne|].
    eexists. split; [wsimpl; apply lookup_insert_eq|]. done.
  - step by (eapply MustShallowClone_Ret; exact Hts).
    rewrite ?bind_assoc, bind_ret_l.
    step by (eapply map_store_Ret; exact Hmap).
    rewrite ?bind_assoc, bind_ret_l.
    step by (apply Unlock_Ret; wsimpl; apply lookup_insert_eq).
    fold c1.
    eexists _, _. split; [reflexivity|].
    split; [eapply named_of_eq; wsimpl; [exact Hvs|apply lookup_insert_eq]|].
    split; [apply fresh_lookup|].
    split; [apply impl_of_handle; wsimpl; [apply lookup_insert_eq|exact Hsi]|].
    split.
    { erewrite !trainable_of_eq by (wsimpl; exact Hvs). wsimpl.
      by rewrite app_nil_r. }
    split; [wsimpl; by apply unlock_lock|].
    split; [wsimpl; apply insert_fresh_subseteq|].
    split; [done|].
    exists vs. done.
Qed.

(** X2. [NewVar] under a name that is not bound yet (and so [Zeros], [Ones]
    and the random initializers, which are [NewVar] with another
    [Init]): the qualified name is bound to a new handle on a new block
    that holds the initial values with gradient tracking on; the handle is
    appended to the trainable list, the count grows by one and no
    existing block changes. *)
Theorem NewVar_fresh_name (w : World) (p : Path) (name : string) (dims : list Z)
    (ini : Init) (vs : VarStore) (m : gmap string Tensor) :
  Contains name SEP = false →
  stores w !! varstore p = Some vs →
  mutexes w !! mutex (Vars vs) = Some false →
  gomaps w !! NamedVariables (Vars vs) = Some m →
  slice_ok (tensor_arrays w) (TrainableVariables (Vars vs)) →
  m !! qualified w p name = None →
  ∃ t s w',
    Path_NewVar p name dims ini w = Ret t w'
    ∧ named_of w' (varstore p) = <[qualified w p name := t]> m
    ∧ block_of w t = None ∧ storage w !! s = None
    ∧ impl_of w' t = Some (s, MkImpl (init_values ini dims) dims Float (device vs) true)
    ∧ trainable_of w' (varstore p) = trainable_of w (varstore p) ++ [t]
    ∧ VarStore_Len (varstore p) w' = Ret (S (size m)) w'
    ∧ (∀ x i, storage w !! x = Some i → storage w' !! x = Some i).
Proof.
  intros Hsep Hvs Hmu Hmap Hok Hnone.
  set (s := fresh (dom (storage w))). set (c := fresh (dom (ctensors w))).
  set (impl := MkImpl (init_values ini dims) dims Float (device vs) false).
  set (wa := upd_ctensors <[c := s]> (upd_storage <[s := impl]> w)).
  destruct (Path_add_spec wa p name (MkTensor (Some c)) true vs m s impl)
    as (t & w' & Hrun & Hnamed & Hnew & Himpl & Htr & Hmu' & Hc & Hsto & v' & Hv' & Hmv' & Hnv');
    [done|exact Hvs|exact Hmu|exact Hmap
    |apply impl_of_handle; unfold wa; wsimpl; apply lookup_insert_eq|done|by intros _|].
  change (qualified wa p name) with (qualified w p name) in Hnamed.
  rewrite bool_decide_eq_false_2 in Hnamed by (rewrite Hnone; by intros [? ?]).
  exists t, s, w'. split.
  { unfold Path_NewVar. step by (by apply deref_Ret).
    step by (apply new_tensor_Ret). exact Hrun. }
  split; [exact Hnamed|]. split.
  { destruct t as [[ct|]]; [|done]. simpl in *.
    eapply lookup_weaken_None; [exact Hnew|]. apply insert_fresh_subseteq. }
  split; [apply fresh_lookup|]. split; [exact Himpl|].
  split; [exact Htr|]. split.
  { erewrite VarStore_Len_Ret; [|exact Hv'|by rewrite Hmv', Hmu'].
    rewrite Hnamed. by rewrite map_size_insert_None. }
  intros x i Hx. rewrite Hsto.
  - unfold wa. wsimpl. rewrite lookup_insert_ne; [done|].
    intros Heq. pose proof (fresh_lookup (storage w)) as Hf. fold s in Hf. congruence.
  - intros ->. pose proof (fresh_lookup (storage w)) as Hf. fold s in Hf. congruence.
Qed.

Lemma NewVar_fresh_name_witness :
  slice_ok (tensor_arrays new_store_world) empty_slice
  ∧ ∃ t s w',
      Path_Zeros (VarStore_Root 0) "bias" [3]%Z new_store_world = Ret t w'
      ∧ named_of w' 0 = {["bias" := t]}
      ∧ impl_of w' t = Some (s, MkImpl [0; 0; 0]%Z [3]%Z Float CPU true)
      ∧ trainable_of w' 0 = [t]
      ∧ VarStore_Len 0 w' = Ret 1 w'.
Proof.
  assert (slice_ok (tensor_arrays new_store_world) empty_slice) as Hok.
  { split; simpl; lia. }
  split; [exact Hok|].
  destruct (NewVar_fresh_name new_store_world (VarStore_Root 0) "bias" [3]%Z (NewConstInit 0)
              (MkVarStore CPU (MkVariables 0 0 empty_slice)) ∅)
    as (t & s & w' & Hrun & Hnamed & _ & _ & Himpl & Htr & HLen & _);
    [reflexivity|vm_compute; reflexivity..|exact Hok|apply lookup_empty|].
  exists t, s, w'. split; [exact Hrun|]. split; [exact Hnamed|].
  split; [exact Himpl|]. split; [exact Htr|exact HLen].
Defined.

(** X3. [ZerosNoTrain] and [OnesNoTrain] under a name that is not bound yet:
    the variable is bound with gradient tracking off and the trainable
    list stays as it was. *)
Theorem NoTrain_fresh_name (w : World) (p : Path) (name : string) (dims : list Z)
    (vs : VarStore) (m : gmap string Tensor) :
  Contains name SEP = false →
  stores w !! varstore p = Some vs →
  mutexes w !! mutex (Vars vs) = Some false →
  gomaps w !! NamedVariables (Vars vs) = Some m →
  m !! qualified w p name = None →
  (∃ t w', Path_ZerosNoTrain p name dims w = Ret t w'
     ∧ named_of w' (varstore p) = <[qualified w p name := t]> m
     ∧ grad_of w' t = Some false
     ∧ values_of w' t = Some (replicate (numel dims) 0%Z)
     ∧ trainable_of w' (varstore p) = trainable_of w (varstore p))
  ∧ (∃ t w', Path_OnesNoTrain p name dims w = Ret t w'
     ∧ named_of w' (varstore p) = <[qualified w p name := t]> m
     ∧ grad_of w' t = Some false
     ∧ values_of w' t = Some (replicate (numel dims) 1%Z)
     ∧ trainable_of w' (varstore p) = trainable_of w (varstore p)).
Proof.
  intros Hsep Hvs Hmu Hmap Hnone.
  assert (∀ z : Z,
    let impl := MkImpl (replicate (numel dims) z) dims Float (device vs) false in
    let wa := upd_ctensors <[fresh (dom (ctensors w)) := fresh (dom (storage w))]>
                (upd_storage <[fresh (dom (storage w)) := impl]> w) in
    ∃ t w', Path_add p name (MkTensor (Some (fresh (dom (ctensors w))))) false wa = Ret t w'
      ∧ named_of w' (varstore p) = <[qualified w p name := t]> m
      ∧ grad_of w' t = Some false
      ∧ values_of w' t = Some (replicate (numel dims) z)
      ∧ trainable_of w' (varstore p) = trainable_of w (varstore p)) as Hadd.
  { intros z impl wa.
    destruct (Path_add_spec wa p name (MkTensor (Some (fresh (dom (ctensors w))))) false vs m
                (fresh (dom (storage w))) impl)
      as (t & w' & Hrun & Hnamed & _ & Himpl & Htr & _);
      [done|exact Hvs|exact Hmu|exact Hmap
      |apply impl_of_handle; unfold wa; wsimpl; apply lookup_insert_eq|done|done|].
    change (qualified wa p name) with (qualified w p name) in Hnamed.
    rewrite bool_decide_eq_false_2 in Hnamed by (rewrite Hnone; by intros [? ?]).
    exists t, w'. split; [exact Hrun|]. split; [exact Hnamed|].
    unfold grad_of, values_of. rewrite Himpl. simpl.
    split; [done|]. split; [done|]. by rewrite Htr, app_nil_r. }
  split.
  - destruct (Hadd 0%Z) as (t & w' & Hrun & H). exists t, w'. split; [|exact H].
    unfold Path_ZerosNoTrain, Path_Device.
    step by (by apply deref_Ret). rewrite bind_ret_l.
    unfold ts_Zeros. step by (apply new_tensor_Ret). rewrite bind_ret_l. exact Hrun.
  - destruct (Hadd 1%Z) as (t & w' & Hrun & H). exists t, w'. split; [|exact H].
    unfold Path_OnesNoTrain, Path_Device.
    step by (by apply deref_Ret). rewrite bind_ret_l.
    unfold ts_Ones. step by (apply new_tensor_Ret). rewrite bind_ret_l. exact Hrun.
Qed.

Lemma NoTrain_fresh_name_witness :
  (gomaps new_store_world !! 0 = Some ∅)
  ∧ ∃ t w', Path_ZerosNoTrain (VarStore_Root 0) "mean" [2]%Z new_store_world = Ret t w'
            ∧ named_of w' 0 = {["mean" := t]}
            ∧ grad_of w' t = Some false
            ∧ trainable_of w' 0 = [].
Proof.
  split; [vm_compute; reflexivity|].
  destruct (NoTrain_fresh_name new_store_world (VarStore_Root 0) "mean" [2]%Z
              (MkVarStore CPU (MkVariables 0 0 empty_slice)) ∅)
    as [(t & w' & Hrun & Hnamed & Hgrad & _ & Htr) _];
    [reflexivity|vm_compute; reflexivity..|apply lookup_empty|].
  exists t, w'. split; [exact Hrun|]. split; [exact Hnamed|]. split; [exact Hgrad|].
  etransitivity; [exact Htr|]. vm_compute. reflexivity.
Defined.

(** ** Lookup *)

(** X4. [Path.Get] looks the literal [name] up in the store's map, whatever
    the segments of the path: an unbound name gives the error and leaves
    the world as it was; a bound name gives a new handle on the block of
    the registry's handle and changes nothing else; while the mutex is
    held the call never returns. *)
Theorem Get_literal_name (w : World) (p : Path) (name : string) (vs : VarStore)
    (m : gmap string Tensor) :
  stores w !! varstore p = Some vs →
  gomaps w !!! NamedVariables (Vars vs) = m →
  (mutexes w !! mutex (Vars vs) = Some true → Path_Get p name w = Abort Deadlock w)
  ∧ (mutexes w !! mutex (Vars vs) = Some false →
     (m !! name = None →
      Path_Get p name w = Ret (nil_tensor, Some (ErrGetCannotFind name)) w)
     ∧ (∀ v s i, m !! name = Some v → impl_of w v = Some (s, i) →
        ∃ c w', Path_Get p name w = Ret (c, None) w'
                ∧ block_of w c = None
                ∧ impl_of w' c = Some (s, i)
                ∧ registry w' = registry w ∧ storage w' = storage w
                ∧ mutexes w' = mutexes w
                ∧ ctensors w ⊆ ctensors w')).
Proof.
  intros Hvs Hm. split.
  { intros Hheld. unfold Path_Get. step by (by apply deref_Ret).
    unfold locked, bind, Lock. by rewrite Hheld. }
  intros Hmu. split.
  - intros Hnone. unfold Path_Get.
    step by (by apply deref_Ret). unfold locked.
    step by (by apply Lock_Ret).
    step by (unfold read_map; reflexivity). rewrite Hm, Hnone.
    rewrite ?bind_assoc, bind_ret_l.
    step by (apply Unlock_Ret; wsimpl; apply lookup_insert_eq).
    unfold ret. f_equal. destruct w. unfold upd_mutexes. simpl in *. f_equal.
    by apply unlock_lock.
  - intros v s i Hv Himpl.
    pose proof Himpl as (c0 & Hc0 & Hcs & Hsi)%impl_of_Some.
    eexists _, _. split.
    { unfold Path_Get.
      step by (by apply deref_Ret). unfold locked.
      step by (by apply Lock_Ret).
      step by (unfold read_map; reflexivity). rewrite Hm, Hv.
      unfold ts_ShallowClone.
      step by (eapply MustShallowClone_Ret; exact Himpl).
      rewrite ?bind_assoc, bind_ret_l. rewrite ?bind_assoc, bind_ret_l.
      step by (apply Unlock_Ret; wsimpl; apply lookup_insert_eq).
      reflexivity. }
    split; [apply fresh_lookup|].
    split; [apply impl_of_handle; wsimpl; [apply lookup_insert_eq|exact Hsi]|].
    split; [done|]. split; [done|].
    split; [wsimpl; by apply unlock_lock|].
    wsimpl. apply insert_fresh_subseteq.
Qed.

Lemma Get_literal_name_witness :
  stores store_a_b_world !! 0 = Some (MkVarStore CPU (MkVariables 0 0 (Slice 1 2 2)))
  ∧ Path_Get (VarStore_Root 0) "c" store_a_b_world
    = Ret (nil_tensor, Some (ErrGetCannotFind "c")) store_a_b_world
  ∧ ∃ c w', Path_Get (VarStore_Root 0) "a" store_a_b_world = Ret (c, None) w'
            ∧ c ≠ MkTensor (Some 2)
            ∧ sid_of w' c = sid_of store_a_b_world (MkTensor (Some 2)).
Proof.
  assert (stores store_a_b_world !! 0
          = Some (MkVarStore CPU (MkVariables 0 0 (Slice 1 2 2)))) as Hvs
    by (vm_compute; reflexivity).
  split; [exact Hvs|].
  destruct (Get_literal_name store_a_b_world (VarStore_Root 0) "c" _ _ Hvs eq_refl)
    as [_ Hc].
  destruct (Get_literal_name store_a_b_world (VarStore_Root 0) "a" _ _ Hvs eq_refl)
    as [_ Ha].
  destruct Hc as [Hc _]; [vm_compute; reflexivity|].
  destruct Ha as [_ Ha]; [vm_compute; reflexivity|].
  split; [apply Hc; vm_compute; reflexivity|].
  destruct (Ha (MkTensor (Some 2)) 0 (MkImpl [0; 0]%Z [2]%Z Float CPU true))
    as (c & w' & Hrun & Hnew & Himpl & _); [vm_compute; reflexivity..|].
  exists c, w'. split; [exact Hrun|]. split.
  - intros ->. vm_compute in Hnew. discriminate Hnew.
  - unfold sid_of. rewrite Himpl. vm_compute. reflexivity.
Defined.

(** ** A new store, its size *)

Lemma VarStore_IsEmpty_Ret w vs v :
  stores w !! vs = Some v →
  mutexes w !! mutex (Vars v) = Some false →
  VarStore_IsEmpty vs w = Ret (bool_decide (named_of w vs = ∅)) w.
Proof.
  intros Hv Hmu. unfold VarStore_IsEmpty, named_of. rewrite Hv.
  step by (by apply deref_Ret). unfold locked.
  step by (by apply Lock_Ret).
  step by (unfold read_map; reflexivity).
  rewrite ?bind_assoc, bind_ret_l.
  step by (apply Unlock_Ret; wsimpl; apply lookup_insert_eq).
  unfold ret. f_equal.
  - apply bool_decide_ext. apply map_size_empty_iff.
  - destruct w. unfold upd_mutexes. simpl in *. f_equal. by apply unlock_lock.
Qed.

(** X5. [Len] returns the number of bound names and [IsEmpty] tells whether
    there is none; both leave the world as it was, and neither returns
    while the mutex is held. *)
Theorem Len_IsEmpty (w : World) (vs : nat) (v : VarStore) :
  stores w !! vs = Some v →
  (mutexes w !! mutex (Vars v) = Some false →
   VarStore_Len vs w = Ret (size (named_of w vs)) w
   ∧ VarStore_IsEmpty vs w = Ret (bool_decide (named_of w vs = ∅)) w)
  ∧ (mutexes w !! mutex (Vars v) = Some true →
     VarStore_Len vs w = Abort Deadlock w
     ∧ VarStore_IsEmpty vs w = Abort Deadlock w).
Proof.
  intros Hv. split.
  - intros Hmu. split; [by eapply VarStore_Len_Ret|by eapply VarStore_IsEmpty_Ret].
  - intros Hheld. split.
    + unfold VarStore_Len. step by (by apply deref_Ret).
      unfold locked, bind, Lock. by rewrite Hheld.
    + unfold VarStore_IsEmpty. step by (by apply deref_Ret).
      unfold locked, bind, Lock. by rewrite Hheld.
Qed.

Lemma Len_IsEmpty_witness :
  stores store_a_b_world !! 0 = Some (MkVarStore CPU (MkVariables 0 0 (Slice 1 2 2)))
  ∧ VarStore_Len 0 store_a_b_world = Ret 2 store_a_b_world
  ∧ VarStore_IsEmpty 0 store_a_b_world = Ret false store_a_b_world.
Proof.
  assert (stores store_a_b_world !! 0
          = Some (MkVarStore CPU (MkVariables 0 0 (Slice 1 2 2)))) as Hvs
    by (vm_compute; reflexivity).
  split; [exact Hvs|].
  destruct (Len_IsEmpty store_a_b_world 0 _ Hvs) as [[HLen HEmpty] _];
    [vm_compute; reflexivity|].
  split.
  - etransitivity; [exact HLen|]. vm_compute. reflexivity.
  - etransitivity; [exact HEmpty|]. vm_compute. reflexivity.
Defined.

(** X6. [NewVarStore] in any world: the store is on the given device, has
    no variable and no trainable handle, and its mutex and its map are
    new objects, shared with no store that existed. *)
Theorem NewVarStore_is_empty (w : World) (dev : Device) :
  ∃ v w1 vs w2,
    NewVarStore dev w = Ret v w1
    ∧ new_var v w1 = Ret vs w2
    ∧ VarStore_Device vs w2 = Ret dev w2
    ∧ VarStore_Len vs w2 = Ret 0 w2
    ∧ VarStore_IsEmpty vs w2 = Ret true w2
    ∧ trainable_of w2 vs = []
    ∧ mutexes w !! mutex (Vars v) = None
    ∧ gomaps w !! NamedVariables (Vars v) = None
    ∧ stores w ⊆ stores w2 ∧ gomaps w ⊆ gomaps w2 ∧ mutexes w ⊆ mutexes w2.
Proof.
  set (mu := fresh (dom (mutexes w))). set (mp := fresh (dom (gomaps w))).
  set (v := MkVarStore dev (MkVariables mu mp empty_slice)).
  set (w1 := upd_gomaps <[mp := ∅]> (upd_mutexes <[mu := false]> w)).
  set (a := fresh (dom (stores w1))).
  set (w2 := upd_stores <[a := v]> w1).
  assert (stores w2 !! a = Some v) as Hv by apply lookup_insert_eq.
  assert (named_of w2 a = ∅) as Hnamed.
  { eapply named_of_eq; [exact Hv|]. apply lookup_insert_eq. }
  assert (mutexes w2 !! mutex (Vars v) = Some false) as Hmu by apply lookup_insert_eq.
  pose proof (VarStore_Len_Ret w2 a v Hv Hmu) as HLen.
  pose proof (VarStore_IsEmpty_Ret w2 a v Hv Hmu) as HEmpty.
  rewrite Hnamed in HLen, HEmpty.
  exists v, w1, a, w2. split; [done|]. split; [done|]. split.
  { unfold VarStore_Device. by step by (by apply deref_Ret). }
  split; [exact HLen|]. split; [exact HEmpty|]. split.
  { by rewrite (trainable_of_eq _ _ _ Hv). }
  split; [apply fresh_lookup|]. split; [apply fresh_lookup|].
  split; [apply (insert_fresh_subseteq (stores w))|].
  split; [apply insert_fresh_subseteq|apply insert_fresh_subseteq].
Qed.

(** ** The snapshot of all variables *)

Lemma block_of_weaken_None w w' t :
  ctensors w ⊆ ctensors w' → block_of w' t = None → block_of w t = None.
Proof.
  unfold block_of. intros Hsub. destruct (ctensor t) as [c|]; [|done]. simpl.
  intros H. by eapply lookup_weaken_None.
Qed.

Lemma Variables_loop kvs : ∀ (acc : gmap string Tensor) w,
  NoDup kvs.*1 →
  (∀ kv, kv ∈ kvs → ∃ s i, impl_of w kv.2 = Some (s, i)) →
  ∃ r w',
    for_each kvs
      (λ (retVal : gmap string Tensor) (kv : string * Tensor),
         let* c := MustShallowClone kv.2 in
         ret (<[kv.1 := c]> retVal)) acc w = Ret r w'
    ∧ registry w' = registry w ∧ storage w' = storage w
    ∧ mutexes w' = mutexes w ∧ tensor_arrays w' = tensor_arrays w
    ∧ ctensors w ⊆ ctensors w'
    ∧ (∀ k, k ∉ kvs.*1 → r !! k = acc !! k)
    ∧ (∀ k v, (k, v) ∈ kvs →
         ∃ c, r !! k = Some c ∧ block_of w c = None ∧ block_of w' c = block_of w v).
Proof.
  induction kvs as [|[k0 v0] kvs IH]; intros acc w Hnd Hdef.
  { exists acc, w. repeat split; try done. intros k v Hin. by apply elem_of_nil in Hin. }
  rewrite fmap_cons in Hnd. apply NoDup_cons in Hnd as [Hk0 Hnd].
  destruct (Hdef (k0, v0)) as (s & i & Himpl); [by left|]. simpl in *.
  set (c0 := fresh (dom (ctensors w))).
  set (w1 := upd_ctensors <[c0 := s]> w).
  assert (ctensors w ⊆ ctensors w1) as Hsub by apply insert_fresh_subseteq.
  destruct (IH (<[k0 := MkTensor (Some c0)]> acc) w1 Hnd)
    as (r & w' & Hrun & Hreg & Hsto & Hmu & Harr & Hc & Hother & Hin).
  { intros kv Hkv. destruct (Hdef kv) as (s' & i' & H'); [by right|].
    exists s', i'. by eapply impl_of_mono. }
  exists r, w'. split.
  { step by (eapply MustShallowClone_Ret; exact Himpl). rewrite bind_ret_l. exact Hrun. }
  split; [done|]. split; [done|]. split; [done|]. split; [done|].
  split; [by etransitivity|]. split.
  { intros k Hk. apply not_elem_of_cons in Hk as [Hne Hk].
    rewrite Hother by done. by rewrite lookup_insert_ne. }
  intros k v Hkv. apply elem_of_cons in Hkv as [[= -> ->]|Hkv].
  - exists (MkTensor (Some c0)). rewrite Hother by done. rewrite lookup_insert_eq.
    split; [done|]. split; [apply fresh_lookup|].
    apply impl_of_block in Himpl as [Hb _]. rewrite Hb.
    apply (block_of_mono w1); [done|]. apply lookup_insert_eq.
  - destruct (Hin k v Hkv) as (c & Hr & Hnew & Hblock).
    exists c. split; [done|]. split; [by eapply block_of_weaken_None|].
    rewrite Hblock. destruct (Hdef (k, v)) as (s' & i' & H'); [by right|].
    apply impl_of_block in H' as [Hb _]. simpl in Hb. rewrite Hb.
    by eapply block_of_mono.
Qed.

(** X7. [Variables()] returns a map with the names of the registry, each
    bound to a handle that did not exist before and points to the block
    of the registry's handle; the registry, the blocks and the trainable
    list are untouched, in whatever order the map is walked. *)
Theorem Variables_snapshot (w : World) (vs : nat) (v : VarStore) (order : list string)
    (m : gmap string Tensor) :
  stores w !! vs = Some v →
  mutexes w !! mutex (Vars v) = Some false →
  gomaps w !!! NamedVariables (Vars v) = m →
  range_order m order →
  (∀ k t, m !! k = Some t → ∃ s i, impl_of w t = Some (s, i)) →
  ∃ r w',
    VarStore_Variables vs order w = Ret r w'
    ∧ dom r = dom m
    ∧ (∀ k t, m !! k = Some t →
         ∃ c, r !! k = Some c ∧ block_of w c = None ∧ block_of w' c = block_of w t)
    ∧ registry w' = registry w ∧ storage w' = storage w
    ∧ mutexes w' = mutexes w ∧ tensor_arrays w' = tensor_arrays w.
Proof.
  intros Hvs Hmu Hm [Hnd Hord] Hdef.
  assert ((range_map m order).*1 = order) as Hkeys.
  { apply range_map_keys. intros k Hk. by apply Hord. }
  set (w1 := upd_mutexes <[mutex (Vars v) := true]> w).
  destruct (Variables_loop (range_map m order) ∅ w1)
    as (r & w' & Hrun & Hreg & Hsto & Hmu' & Harr & Hc & Hother & Hin).
  { by rewrite Hkeys. }
  { intros [k t] Hkv. apply elem_of_range_map in Hkv as [_ Hkv]. by apply (Hdef k). }
  exists r, (upd_mutexes <[mutex (Vars v) := false]> w'). split.
  { unfold VarStore_Variables.
    step by (by apply deref_Ret). unfold locked.
    step by (by apply Lock_Ret).
    step by (unfold read_map; reflexivity). rewrite Hm.
    fold w1. step by exact Hrun.
    step by (apply Unlock_Ret; rewrite Hmu'; unfold w1; wsimpl; apply lookup_insert_eq).
    done. }
  split.
  { apply set_eq. intros k. rewrite !elem_of_dom. split.
    - intros Hr. destruct (decide (k ∈ order)) as [Hk|Hk]; [by apply Hord|].
      rewrite Hother, lookup_empty in Hr by (by rewrite Hkeys). by destruct Hr.
    - intros [t Ht]. destruct (Hin k t) as (c & -> & _); [|done].
      apply elem_of_range_map. split; [|done]. apply Hord. by exists t. }
  split.
  { intros k t Ht. destruct (Hin k t) as (c & Hr & Hnew & Hb).
    - apply elem_of_range_map. split; [|done]. apply Hord. by exists t.
    - by exists c. }
  split; [done|]. split; [done|].
  split; [wsimpl; rewrite Hmu'; unfold w1; wsimpl; by apply unlock_lock|done].
Qed.

Lemma Variables_snapshot_witness :
  mutexes store_w_world !! 0 = Some false
  ∧ ∃ r c w', VarStore_Variables 0 ["w"] store_w_world = Ret r w'
              ∧ r = {["w" := c]} ∧ c ≠ MkTensor (Some 2)
              ∧ block_of w' c = Some 0.
Proof.
  split; [vm_compute; reflexivity|].
  destruct (Variables_snapshot store_w_world 0
              (MkVarStore CPU (MkVariables 0 0 (Slice 0 1 1))) ["w"]
              {["w" := MkTensor (Some 2)]})
    as (r & w' & Hrun & Hdom & Hin & _); [vm_compute; reflexivity..| | |].
  { split; [apply NoDup_singleton|]. intros k. split.
    - intros ->%list_elem_of_singleton. rewrite lookup_singleton_eq. eauto.
    - intros [t [<- _]%lookup_singleton_Some]. by apply list_elem_of_singleton. }
  { intros k t [<- <-]%lookup_singleton_Some. eexists _, _. vm_compute. reflexivity. }
  destruct (Hin "w" (MkTensor (Some 2))) as (c & Hr & Hnew & Hb);
    [apply lookup_singleton_eq|].
  exists r, c, w'. split; [exact Hrun|]. split.
  - apply map_eq. intros k. destruct (decide (k = "w")) as [->|Hne].
    + by rewrite Hr, lookup_singleton_eq.
    + rewrite lookup_singleton_ne by done. apply not_elem_of_dom. rewrite Hdom.
      rewrite dom_singleton_L. by apply not_elem_of_singleton.
  - split; [|etransitivity; [exact Hb|vm_compute; reflexivity]].
    intros ->. vm_compute in Hnew. discriminate Hnew.
Defined.

(** ** Freezing and unfreezing *)

Lemma set_grad_set_grad b b' i : set_grad b (set_grad b' i) = set_grad b i.
Proof. done. Qed.

Lemma grad_all_lookup b ss : ∀ σ x,
  foldl (grad_step b) σ ss !! x
  = (if bool_decide (x ∈ ss) then set_grad b else id) <$> σ !! x.
Proof.
  induction ss as [|s ss IH]; intros σ x; cbn [foldl].
  { case_bool_decide as H; [by apply elem_of_nil in H|]. by destruct (σ !! x). }
  rewrite IH. unfold grad_step.
  destruct (decide (x = s)) as [->|Hne].
  - rewrite (bool_decide_eq_true_2 (s ∈ s :: ss)) by (by left).
    destruct (σ !! s) as [i|] eqn:Hs.
    + rewrite lookup_insert_eq. cbn [fmap option_fmap option_map]. by case_bool_decide.
    + rewrite Hs. by case_bool_decide.
  - assert (bool_decide (x ∈ s :: ss) = bool_decide (x ∈ ss)) as ->.
    { apply bool_decide_ext. rewrite elem_of_cons. naive_solver. }
    destruct (σ !! s) as [i|]; [|done]. by rewrite lookup_insert_ne.
Qed.

Lemma SetRequiresGrad_Ret_b w t b s i :
  impl_of w t = Some (s, i) → (b = true → supports_grad (kind i) = true) →
  SetRequiresGrad t b w
  = Ret (MkTensor (Some (fresh (dom (ctensors w)))), None)
        (upd_ctensors <[fresh (dom (ctensors w)) := s]>
           (upd_storage <[s := set_grad b i]> w)).
Proof.
  unfold SetRequiresGrad. intros -> Hb. destruct b; [|done]. by rewrite Hb.
Qed.

Lemma omap_index {A B} `{!Inhabited A} (f : A → option B) (l : list A) n :
  n ≤ length l → omap (λ i, f (l !!! i)) (seq 0 n) = omap f (take n l).
Proof.
  induction n as [|n IH]; intros Hn; [done|].
  destruct (lookup_lt_is_Some_2 l n) as [x Hx]; [lia|].
  rewrite seq_S, omap_app, IH by lia. rewrite (take_S_r _ _ x) by done.
  rewrite omap_app. simpl. by rewrite (list_lookup_total_correct _ _ _ Hx).
Qed.

Lemma grad_loop fn b sl idx : ∀ w,
  (∀ i, i ∈ idx →
     ∃ s im, impl_of w ((tensor_arrays w !!! s_arr sl) !!! i) = Some (s, im)
             ∧ (b = true → supports_grad (kind im) = true)) →
  ∃ w',
    for_each idx
      (λ (_ : unit) (i : nat),
         let* t := index_tensor sl i in
         let* (_, err) := SetRequiresGrad t b in
         match err with
         | Some _ => die (LogFatal (FatalCall fn))
         | None => ret tt
         end) tt w = Ret tt w'
    ∧ registry w' = registry w ∧ mutexes w' = mutexes w
    ∧ tensor_arrays w' = tensor_arrays w ∧ ctensors w ⊆ ctensors w'
    ∧ storage w'
      = foldl (grad_step b) (storage w)
          (omap (λ i, block_of w ((tensor_arrays w !!! s_arr sl) !!! i)) idx).
Proof.
  induction idx as [|i0 idx IH]; intros w Hdef.
  { exists w. by repeat split. }
  destruct (Hdef i0) as (s & im & Himpl & Hsup); [by left|].
  set (t0 := (tensor_arrays w !!! s_arr sl) !!! i0) in *.
  set (c := fresh (dom (ctensors w))).
  set (w1 := upd_ctensors <[c := s]> (upd_storage <[s := set_grad b im]> w)).
  assert (ctensors w ⊆ ctensors w1) as Hsub by apply insert_fresh_subseteq.
  assert (∀ t s' im', impl_of w t = Some (s', im') →
            ∃ im'', impl_of w1 t = Some (s', im'') ∧ kind im'' = kind im') as Hkeep.
  { intros t s' im' [Hb Hs]%impl_of_block.
    destruct (decide (s' = s)) as [->|Hne].
    - exists (set_grad b im).
      split; [|simpl; apply impl_of_block in Himpl as [_ ?]; congruence].
      apply impl_of_block. split; [by eapply block_of_mono|].
      unfold w1. wsimpl. apply lookup_insert_eq.
    - exists im'. split; [|done]. apply impl_of_block. split; [by eapply block_of_mono|].
      unfold w1. wsimpl. by rewrite lookup_insert_ne. }
  destruct (IH w1) as (w' & Hrun & Hreg & Hmu & Harr & Hc & Hsto).
  { intros i Hi. destruct (Hdef i) as (s' & im' & H' & Hsup'); [by right|].
    destruct (Hkeep _ _ _ H') as (im'' & H'' & Hk).
    exists s', im''. split; [exact H''|]. by rewrite Hk. }
  exists w'. split.
  { simpl. step by (unfold index_tensor; reflexivity). fold t0.
    step by (eapply SetRequiresGrad_Ret_b; [exact Himpl|exact Hsup]).
    rewrite bind_ret_l. exact Hrun. }
  split; [done|]. split; [done|]. split; [done|].
  split; [by etransitivity|].
  rewrite Hsto. simpl. fold t0.
  pose proof Himpl as [Hb0 Hs0]%impl_of_block. rewrite Hb0. simpl.
  unfold grad_step at 3. rewrite Hs0. f_equal.
  clear -Hdef Hsub. induction idx as [|i idx IH]; [done|]. simpl.
  destruct (Hdef i) as (s' & im' & [Hb _]%impl_of_block & _); [right; by left|].
  change (tensor_arrays w1) with (tensor_arrays w).
  rewrite Hb, (block_of_mono _ _ _ _ Hsub Hb). f_equal. apply IH.
  intros j Hj. apply Hdef. apply elem_of_cons in Hj as [->|Hj]; [by left|].
  right. by right.
Qed.

Lemma blocks_of_mono w w' ts :
  ctensors w ⊆ ctensors w' →
  (∀ t, t ∈ ts → is_Some (block_of w t)) →
  blocks_of w' ts = blocks_of w ts.
Proof.
  intros Hsub. induction ts as [|t ts IH]; intros Hdef; [done|].
  unfold blocks_of in *. simpl. destruct (Hdef t) as [s Hs]; [by left|].
  rewrite Hs, (block_of_mono _ _ _ _ Hsub Hs). f_equal. apply IH.
  intros t' Ht'. apply Hdef. by right.
Qed.

Lemma elem_of_blocks_of w ts t s :
  t ∈ ts → block_of w t = Some s → s ∈ blocks_of w ts.
Proof. intros Ht Hs. unfold blocks_of. apply list_elem_of_omap. by exists t. Qed.

(** One pass of the loop of [Freeze] and [Unfreeze]. *)
Lemma set_trainable_grad_spec fn b (w : World) (vs : nat) (v : VarStore) :
  stores w !! vs = Some v →
  mutexes w !! mutex (Vars v) = Some false →
  slice_ok (tensor_arrays w) (TrainableVariables (Vars v)) →
  (∀ t, t ∈ trainable_of w vs →
     ∃ s i, impl_of w t = Some (s, i) ∧ (b = true → supports_grad (kind i) = true)) →
  ∃ w',
    set_trainable_grad fn b vs w = Ret tt w'
    ∧ registry w' = registry w ∧ mutexes w' = mutexes w
    ∧ tensor_arrays w' = tensor_arrays w ∧ ctensors w ⊆ ctensors w'
    ∧ ∀ x, storage w' !! x
           = (if bool_decide (x ∈ blocks_of w (trainable_of w vs))
              then set_grad b else id) <$> storage w !! x.
Proof.
  intros Hvs Hmu [Hlen Hcap] Hdef.
  rewrite (trainable_of_eq _ _ _ Hvs) in *.
  set (sl := TrainableVariables (Vars v)) in *.
  set (arr := tensor_arrays w !!! s_arr sl) in *.
  set (w1 := upd_mutexes <[mutex (Vars v) := true]> w).
  destruct (grad_loop fn b sl (seq 0 (s_len sl)) w1)
    as (w' & Hrun & Hreg & Hmu' & Harr & Hc & Hsto).
  { intros i Hi. apply elem_of_seq in Hi as [_ Hi]. simpl in Hi.
    change (tensor_arrays w1) with (tensor_arrays w). fold arr.
    apply (Hdef (arr !!! i)). unfold slice_elems. fold arr.
    apply list_elem_of_lookup. exists i. rewrite lookup_take_lt by done.
    apply list_lookup_lookup_total_lt. lia. }
  exists (upd_mutexes <[mutex (Vars v) := false]> w'). split.
  { unfold set_trainable_grad.
    step by (by apply deref_Ret). unfold locked.
    step by (by apply Lock_Ret).
    step by (apply deref_Ret; exact Hvs).
    fold w1. fold sl. step by exact Hrun.
    step by (apply Unlock_Ret; rewrite Hmu'; unfold w1; wsimpl; apply lookup_insert_eq).
    done. }
  split; [done|].
  split; [wsimpl; rewrite Hmu'; unfold w1; wsimpl; by apply unlock_lock|].
  split; [done|]. split; [done|].
  intros x. wsimpl. rewrite Hsto.
  change (tensor_arrays w1) with (tensor_arrays w). fold arr.
  rewrite (omap_index (block_of w1) arr (s_len sl)) by lia.
  by rewrite grad_all_lookup.
Qed.

(** X8. [Freeze] then [Unfreeze]: both return, neither changes the registry,
    the trainable list or the mutexes; after [Freeze] every trainable
    handle has gradient tracking off, after [Unfreeze] on again, each
    time on the block it had, with the values, the shape, the element
    type and the device it had; the blocks of no trainable handle are
    never touched. *)
Theorem Freeze_then_Unfreeze (w : World) (vs : nat) (v : VarStore) :
  stores w !! vs = Some v →
  mutexes w !! mutex (Vars v) = Some false →
  slice_ok (tensor_arrays w) (TrainableVariables (Vars v)) →
  (∀ t, t ∈ trainable_of w vs →
     ∃ s i, impl_of w t = Some (s, i) ∧ supports_grad (kind i) = true) →
  ∃ w1 w2,
    VarStore_Freeze vs w = Ret tt w1
    ∧ VarStore_Unfreeze vs w1 = Ret tt w2
    ∧ registry w1 = registry w ∧ registry w2 = registry w
    ∧ trainable_of w1 vs = trainable_of w vs
    ∧ trainable_of w2 vs = trainable_of w vs
    ∧ (∀ t, t ∈ trainable_of w vs →
         grad_of w1 t = Some false ∧ grad_of w2 t = Some true
         ∧ values_of w1 t = values_of w t ∧ values_of w2 t = values_of w t)
    ∧ (∀ x, x ∉ blocks_of w (trainable_of w vs) →
         storage w1 !! x = storage w !! x ∧ storage w2 !! x = storage w !! x)
    ∧ (∀ t s i, t ∈ trainable_of w vs → impl_of w t = Some (s, i) →
         impl_of w1 t
         = Some (s, MkImpl (values i) (shape i) (kind i) (impl_device i) false)
         ∧ impl_of w2 t
           = Some (s, MkImpl (values i) (shape i) (kind i) (impl_device i) true))
    ∧ mutexes w1 = mutexes w ∧ mutexes w2 = mutexes w.
Proof.
  intros Hvs Hmu Hok Hdef.
  destruct (set_trainable_grad_spec "Freeze" false w vs v Hvs Hmu Hok)
    as (w1 & Hrun1 & Hreg1 & Hmu1 & Harr1 & Hc1 & Hsto1).
  { intros t Ht. destruct (Hdef t Ht) as (s & i & Hi & _). by exists s, i. }
  assert (stores w1 = stores w ∧ gomaps w1 = gomaps w) as [Hst1 Hg1].
  { by injection Hreg1. }
  assert (trainable_of w1 vs = trainable_of w vs) as Htr1.
  { unfold trainable_of. by rewrite Hst1, Harr1. }
  assert (∀ t s i, t ∈ trainable_of w vs → impl_of w t = Some (s, i) →
            impl_of w1 t = Some (s, set_grad false i)) as Himpl1.
  { intros t s i Ht [Hb Hs]%impl_of_block. apply impl_of_block.
    split; [by eapply block_of_mono|]. rewrite Hsto1, Hs.
    by rewrite (bool_decide_eq_true_2 _ (elem_of_blocks_of _ _ _ _ Ht Hb)). }
  destruct (set_trainable_grad_spec "Unfreeze" true w1 vs v)
    as (w2 & Hrun2 & Hreg2 & Hmu2 & Harr2 & Hc2 & Hsto2).
  { by rewrite Hst1. }
  { by rewrite Hmu1. }
  { by rewrite Harr1. }
  { rewrite Htr1. intros t Ht. destruct (Hdef t Ht) as (s & i & Hi & Hsup).
    exists s, (set_grad false i). split; [by apply Himpl1|done]. }
  assert (blocks_of w1 (trainable_of w1 vs) = blocks_of w (trainable_of w vs)) as Hbl.
  { rewrite Htr1. apply blocks_of_mono; [done|]. intros t Ht.
    destruct (Hdef t Ht) as (s & i & [Hb _]%impl_of_block & _). by exists s. }
  rewrite Hbl in Hsto2.
  exists w1, w2. split; [exact Hrun1|]. split; [exact Hrun2|].
  split; [done|]. split; [by rewrite Hreg2|]. split; [done|].
  split.
  { rewrite <- Htr1. unfold trainable_of.
    assert (stores w2 = stores w1) as -> by by injection Hreg2. by rewrite Harr2. }
  assert (∀ t s i, t ∈ trainable_of w vs → impl_of w t = Some (s, i) →
            impl_of w2 t = Some (s, set_grad true (set_grad false i))) as Himpl2.
  { intros t s i Ht Hi. pose proof (Himpl1 t s i Ht Hi) as Hi1.
    apply impl_of_block in Hi1 as [Hb1 Hs1]. apply impl_of_block.
    split; [by eapply block_of_mono|]. rewrite Hsto2, Hs1.
    apply impl_of_block in Hi as [Hb _].
    by rewrite (bool_decide_eq_true_2 _ (elem_of_blocks_of _ _ _ _ Ht Hb)). }
  split.
  { intros t Ht. destruct (Hdef t Ht) as (s & i & Hi & _).
    unfold grad_of, values_of.
    by rewrite Hi, (Himpl1 t s i Ht Hi), (Himpl2 t s i Ht Hi). }
  split.
  { intros x Hx. rewrite Hsto2, Hsto1.
    rewrite (bool_decide_eq_false_2 _ Hx). by destruct (storage w !! x). }
  split.
  { intros t s i Ht Hi. split; [exact (Himpl1 t s i Ht Hi)|exact (Himpl2 t s i Ht Hi)]. }
  split; [exact Hmu1|]. by rewrite Hmu2.
Qed.

Lemma Freeze_then_Unfreeze_witness :
  trainable_of store_a_b_world 0 = [MkTensor (Some 2); MkTensor (Some 5)]
  ∧ ∃ w1 w2,
      VarStore_Freeze 0 store_a_b_world = Ret tt w1
      ∧ VarStore_Unfreeze 0 w1 = Ret tt w2
      ∧ grad_of w1 (MkTensor (Some 5)) = Some false
      ∧ grad_of w2 (MkTensor (Some 5)) = Some true
      ∧ impl_of w2 (MkTensor (Some 5)) = impl_of store_a_b_world (MkTensor (Some 5)).
Proof.
  assert (trainable_of store_a_b_world 0 = [MkTensor (Some 2); MkTensor (Some 5)]) as Htr
    by (vm_compute; reflexivity).
  split; [exact Htr|].
  destruct (Freeze_then_Unfreeze store_a_b_world 0
              (MkVarStore CPU (MkVariables 0 0 (Slice 1 2 2))))
    as (w1 & w2 & Hrun1 & Hrun2 & _ & _ & _ & _ & Hgrad & _ & Himpl & _);
    [vm_compute; reflexivity|vm_compute; reflexivity| |
    |].
  { split; [simpl; lia|]. vm_compute. lia. }
  { rewrite Htr. intros t Ht.
    apply elem_of_cons in Ht as [->|Ht]; [eexists _, _; split; vm_compute; reflexivity|].
    apply list_elem_of_singleton in Ht as ->.
    eexists _, _; split; vm_compute; reflexivity. }
  exists w1, w2. split; [exact Hrun1|]. split; [exact Hrun2|].
  assert (MkTensor (Some 5) ∈ trainable_of store_a_b_world 0) as Hin.
  { rewrite Htr. right. by left. }
  destruct (Hgrad (MkTensor (Some 5)) Hin) as (H1 & H2 & _).
  split; [exact H1|]. split; [exact H2|].
  assert (impl_of store_a_b_world (MkTensor (Some 5))
          = Some (1, MkImpl [0; 0]%Z [2]%Z Float CPU true)) as Hi
    by (vm_compute; reflexivity).
  destruct (Himpl _ _ _ Hin Hi) as [_ Hi2]. by rewrite Hi2, Hi.
Defined.

(** ** Qualified names are unambiguous *)

Lemma Contains_SEP_cons c s :
  Contains (String c s) SEP = if decide (c = "."%char) then true else Contains s SEP.
Proof.
  unfold SEP.
  change (Contains (String c s) ".")
    with (if (if ascii_dec "." c then String.prefix "" s else false)
          then true else Contains s ".").
  destruct (ascii_dec "." c) as [<-|Hne].
  - rewrite decide_True by done. by destruct s.
  - rewrite decide_False by congruence. reflexivity.
Qed.

Lemma Contains_SEP_app x r : Contains (x +:+ SEP +:+ r) SEP = true.
Proof.
  induction x as [|c x IH].
  - change ("" +:+ SEP +:+ r) with (String "."%char r).
    by rewrite Contains_SEP_cons, decide_True.
  - change (String c x +:+ SEP +:+ r) with (String c (x +:+ SEP +:+ r)).
    rewrite Contains_SEP_cons. by case_decide.
Qed.

Lemma SEP_split_inj x y r1 r2 :
  Contains x SEP = false → Contains y SEP = false →
  x +:+ SEP +:+ r1 = y +:+ SEP +:+ r2 → x = y ∧ r1 = r2.
Proof.
  revert y. induction x as [|a x IH]; intros [|c y] Hx Hy Heq.
  - by injection Heq.
  - injection Heq as <- _. rewrite Contains_SEP_cons, decide_True in Hy by done.
    discriminate Hy.
  - injection Heq as -> _. rewrite Contains_SEP_cons, decide_True in Hx by done.
    discriminate Hx.
  - change (String a (x +:+ SEP +:+ r1) = String c (y +:+ SEP +:+ r2)) in Heq.
    injection Heq as -> Heq.
    rewrite Contains_SEP_cons in Hx, Hy.
    destruct (decide (c = "."%char)); [discriminate Hx|].
    destruct (IH y Hx Hy Heq) as [-> ->]. done.
Qed.

Lemma Join_SEP_inj (l1 l2 : list string) :
  l1 ≠ [] → l2 ≠ [] →
  Forall (λ s, Contains s SEP = false) l1 →
  Forall (λ s, Contains s SEP = false) l2 →
  Join l1 SEP = Join l2 SEP → l1 = l2.
Proof.
  unfold Join. revert l2.
  induction l1 as [|x l1 IH]; intros l2 Hn1 Hn2 H1 H2 Heq; [done|].
  destruct l2 as [|y l2]; [done|].
  apply Forall_cons in H1 as [Hx H1]. apply Forall_cons in H2 as [Hy H2].
  destruct l1 as [|x2 l1], l2 as [|y2 l2].
  - simpl in Heq. by rewrite Heq.
  - change (x = y +:+ SEP +:+ String.concat SEP (y2 :: l2)) in Heq.
    rewrite Heq, Contains_SEP_app in Hx. discriminate Hx.
  - change (x +:+ SEP +:+ String.concat SEP (x2 :: l1) = y) in Heq.
    rewrite <- Heq, Contains_SEP_app in Hy. discriminate Hy.
  - change (x +:+ SEP +:+ String.concat SEP (x2 :: l1)
            = y +:+ SEP +:+ String.concat SEP (y2 :: l2)) in Heq.
    destruct (SEP_split_inj _ _ _ _ Hx Hy Heq) as [-> Htl].
    f_equal. by apply IH.
Qed.

(** X9. Two paths whose segments have passed the check of [Sub], and two
    names, qualify to the same string only when the segments and the
    names are the same: no two variables of different scopes can meet
    under one key. *)
Theorem qualified_names_injective (w : World) (p1 p2 : Path) (n1 n2 : string) :
  slice_ok (string_arrays w) (path p1) →
  slice_ok (string_arrays w) (path p2) →
  Forall (λ s, Contains s SEP = false) (segments w p1) →
  Forall (λ s, Contains s SEP = false) (segments w p2) →
  Contains n1 SEP = false → Contains n2 SEP = false →
  Path_getpath p1 n1 w = Path_getpath p2 n2 w →
  segments w p1 = segments w p2 ∧ n1 = n2.
Proof.
  intros Hok1 Hok2 Hs1 Hs2 Hn1 Hn2 Heq.
  rewrite !Path_getpath_join in Heq by done. injection Heq as Heq.
  apply Join_SEP_inj in Heq.
  - by apply app_inj_tail in Heq.
  - by destruct (segments w p1).
  - by destruct (segments w p2).
  - apply Forall_app. split; [done|]. by constructor.
  - apply Forall_app. split; [done|]. by constructor.
Qed.

Lemma qualified_names_injective_witness :
  Path_getpath (MkPath (Slice 2 3 4) 0) "w" deep_path_world = Ret "x.y.z.w" deep_path_world
  ∧ Path_getpath (MkPath (Slice 2 2 4) 0) "z.w" deep_path_world
    = Abort (LogFatal (FatalSubName "z.w")) deep_path_world
  ∧ segments deep_path_world (MkPath (Slice 2 3 4) 0)
    = segments deep_path_world (MkPath (Slice 2 3 4) 0).
Proof.
  split; [vm_compute; reflexivity|]. split; [vm_compute; reflexivity|].
  apply (qualified_names_injective deep_path_world
           (MkPath (Slice 2 3 4) 0) (MkPath (Slice 2 3 4) 0) "w" "w").
  - split; [simpl; lia|vm_compute; lia].
  - split; [simpl; lia|vm_compute; lia].
  - vm_compute. repeat constructor.
  - vm_compute. repeat constructor.
  - reflexivity.
  - reflexivity.
  - reflexivity.
Defined.

(** ** Get-or-create on a name that is not bound *)

Lemma get_or_create_absent (w : World) (e : Entry) (impl : Device → Impl)
    (vs : VarStore) (m : gmap string Tensor) :
  variables e = varstore (entry_path e) →
  stores w !! variables e = Some vs →
  gomaps w !! NamedVariables (Vars vs) = Some m →
  Contains (name e) SEP = false →
  m !! qualified w (entry_path e) (name e) = None →
  supports_grad (kind (impl (device vs))) = true →
  is_Some (tensor_arrays w !! s_arr (TrainableVariables (Vars vs)))
    ∨ s_len (TrainableVariables (Vars vs)) = 0 →
  ∃ t w',
    get_or_create e (λ d, new_tensor (impl d)) w = Ret t w'
    ∧ named_of w' (variables e) = <[qualified w (entry_path e) (name e) := t]> m
    ∧ block_of w t = None
    ∧ impl_of w' t = Some (fresh (dom (storage w)), set_grad true (impl (device vs)))
    ∧ trainable_of w' (variables e) = trainable_of w (variables e)
    ∧ mutexes w' = mutexes w
    ∧ (∀ x i, storage w !! x = Some i → storage w' !! x = Some i).
Proof.
  intros He Hvs Hmap Hsep Hq Hgrad Harr.
  set (q := qualified w (entry_path e) (name e)) in *.
  set (c := fresh (dom (ctensors w))). set (s := fresh (dom (storage w))).
  set (wa := upd_ctensors <[c := s]> (upd_storage <[s := impl (device vs)]> w)).
  set (t := MkTensor (Some (fresh (dom (ctensors wa))))).
  exists t. eexists. split.
  { unfold get_or_create.
    step by (apply deref_Ret; rewrite <- He; exact Hvs).
    step by (apply new_tensor_Ret).
    unfold deref_variables.
    step by (apply deref_Ret; wsimpl; exact Hvs).
    rewrite bind_ret_l. fold c s.
    erewrite (getOrAdd_absent _ _ _ _ _ m s (impl (device vs)));
      [reflexivity|done|exact Hmap|exact Hq| |done].
    apply impl_of_handle; wsimpl; apply lookup_insert_eq. }
  split; [eapply named_of_eq; wsimpl; [exact Hvs|apply lookup_insert_eq]|].
  split.
  { unfold t, block_of. simpl.
    eapply lookup_weaken_None; [apply (fresh_lookup (ctensors wa))|].
    unfold wa. wsimpl. apply insert_fresh_subseteq. }
  split; [apply impl_of_handle; wsimpl; apply lookup_insert_eq|].
  split.
  { erewrite !trainable_of_eq by (wsimpl; exact Hvs). wsimpl.
    by apply slice_append_frame. }
  split; [reflexivity|].
  intros x i Hx. wsimpl.
  assert (x ≠ s) as Hne.
  { intros ->. pose proof (fresh_lookup (storage w)) as Hf. fold s in Hf. congruence. }
  by rewrite !lookup_insert_ne.
Qed.

(** X10. The get-or-create methods of an entry on a name that is not bound
    yet, whether the mutex is held or not: [OrVar] with any initializer
    (hence [OrZeros], [OrOnes] and the random forms) and also
    [OrZerosNoTrain] and [OrOnesNoTrain] bind the qualified name to a new
    handle on a new block that holds the initial values with gradient
    tracking on; the store's trainable list, the mutexes and the
    existing blocks stay as they were. *)
Theorem Or_fresh_name (w : World) (e : Entry) (dims : list Z) (init : Init)
    (vs : VarStore) (m : gmap string Tensor) :
  variables e = varstore (entry_path e) →
  stores w !! variables e = Some vs →
  gomaps w !! NamedVariables (Vars vs) = Some m →
  Contains (name e) SEP = false →
  m !! qualified w (entry_path e) (name e) = None →
  is_Some (tensor_arrays w !! s_arr (TrainableVariables (Vars vs)))
    ∨ s_len (TrainableVariables (Vars vs)) = 0 →
  let created (call : M Tensor) (vals : list Z) :=
    ∃ t w',
      call w = Ret t w'
      ∧ named_of w' (variables e) = <[qualified w (entry_path e) (name e) := t]> m
      ∧ block_of w t = None
      ∧ impl_of w' t
        = Some (fresh (dom (storage w)), MkImpl vals dims Float (device vs) true)
      ∧ trainable_of w' (variables e) = trainable_of w (variables e)
      ∧ mutexes w' = mutexes w
      ∧ (∀ x i, storage w !! x = Some i → storage w' !! x = Some i) in
  created (Entry_OrVar e dims init) (init_values init dims)
  ∧ created (Entry_OrZerosNoTrain e dims) (replicate (numel dims) 0%Z)
  ∧ created (Entry_OrOnesNoTrain e dims) (replicate (numel dims) 1%Z).
Proof.
  intros He Hvs Hmap Hsep Hq Harr created.
  assert (∀ vals, created
            (get_or_create e (λ d, new_tensor (MkImpl vals dims Float d false))) vals)
    as Hgen.
  { intros vals.
    exact (get_or_create_absent w e (λ d, MkImpl vals dims Float d false) vs m
             He Hvs Hmap Hsep Hq eq_refl Harr). }
  split; [apply Hgen|]. split.
  - destruct (Hgen (replicate (numel dims) 0%Z)) as (t & w' & Hrun & H).
    exists t, w'. split; [|exact H]. rewrite <- Hrun.
    unfold Entry_OrZerosNoTrain, get_or_create, Path_Device.
    unfold bind, ret. by destruct (deref _ w).
  - destruct (Hgen (replicate (numel dims) 1%Z)) as (t & w' & Hrun & H).
    exists t, w'. split; [|exact H]. rewrite <- Hrun.
    unfold Entry_OrOnesNoTrain, get_or_create, Path_Device.
    unfold bind, ret. by destruct (deref _ w).
Qed.

Lemma Or_fresh_name_witness :
  mutexes new_store_world !! 0 = Some false
  ∧ ∃ t w',
      Entry_OrZerosNoTrain (MkEntry "mean" 0 (VarStore_Root 0)) [2]%Z new_store_world
      = Ret t w'
      ∧ named_of w' 0 = {["mean" := t]}
      ∧ grad_of w' t = Some true
      ∧ trainable_of w' 0 = [].
Proof.
  split; [vm_compute; reflexivity|].
  destruct (Or_fresh_name new_store_world (MkEntry "mean" 0 (VarStore_Root 0)) [2]%Z
              (NewConstInit 0) (MkVarStore CPU (MkVariables 0 0 empty_slice)) ∅)
    as (_ & (t & w' & Hrun & Hnamed & _ & Himpl & Htr & _) & _);
    [reflexivity|vm_compute; reflexivity|vm_compute; reflexivity|reflexivity
    |apply lookup_empty|by right|].
  exists t, w'. split; [exact Hrun|]. split; [exact Hnamed|].
  split; [unfold grad_of; by rewrite Himpl|].
  etransitivity; [exact Htr|]. vm_compute. reflexivity.
Defined.

(** ** Variables made from a tensor *)

Lemma impl_of_copied w d s t x i :
  impl_of w t = Some (x, i) →
  impl_of (copied [(d, s)] w) t
  = Some (x, match storage w !! d, storage w !! s with
             | Some di, Some si => if decide (x = d) then set_values (values si) di else i
             | _, _ => i
             end).
Proof.
  intros (c & Hc & Hcs & Hsi)%impl_of_Some. apply impl_of_Some. exists c.
  split; [done|]. split; [done|]. unfold copied, copy_step. simpl.
  destruct (storage w !! d) as [di|] eqn:Hd; [|done].
  destruct (storage w !! s) as [si|] eqn:Hs; [|done].
  case_decide as Hx.
  - subst x. apply lookup_insert_eq.
  - by rewrite lookup_insert_ne.
Qed.

(** X11. [VarCopy] under a name that is not bound yet: the new variable has
    the shape and the values of the tensor, is a float tensor on the
    store's device whatever the tensor is, tracks gradients and is
    appended to the trainable list; the copy is made with the gradient
    mode off and the tensor is left as it was. *)
Theorem VarCopy_fresh_name (w : World) (p : Path) (name : string) (src : Tensor)
    (vs : VarStore) (m : gmap string Tensor) (st : nat) (it : Impl) :
  Contains name SEP = false →
  stores w !! varstore p = Some vs →
  mutexes w !! mutex (Vars vs) = Some false →
  gomaps w !! NamedVariables (Vars vs) = Some m →
  slice_ok (tensor_arrays w) (TrainableVariables (Vars vs)) →
  m !! qualified w p name = None →
  impl_of w src = Some (st, it) →
  ∃ v s w',
    Path_VarCopy p name src w = Ret v w'
    ∧ named_of w' (varstore p) = <[qualified w p name := v]> m
    ∧ storage w !! s = None
    ∧ impl_of w' v = Some (s, MkImpl (values it) (shape it) Float (device vs) true)
    ∧ impl_of w' src = Some (st, it)
    ∧ trainable_of w' (varstore p) = trainable_of w (varstore p) ++ [v]
    ∧ last (copy_log w') = Some (s, st, false).
Proof.
  intros Hsep Hvs Hmu Hmap Hok Hnone Hsrc.
  set (s := fresh (dom (storage w))). set (c := fresh (dom (ctensors w))).
  set (impl := MkImpl (init_values (NewConstInit 0) (shape it)) (shape it) Float
                 (device vs) false).
  set (wa := upd_ctensors <[c := s]> (upd_storage <[s := impl]> w)).
  assert (storage w !! s = None) as Hs by apply fresh_lookup.
  assert (st ≠ s) as Hne.
  { intros ->. apply impl_of_Some in Hsrc as (? & _ & _ & Hsrc). congruence. }
  destruct (Path_add_spec wa p name (MkTensor (Some c)) true vs m s impl)
    as (v & w1 & Hrun & Hnamed & _ & Himpl & Htr & _ & Hc & Hsto & _);
    [done|exact Hvs|exact Hmu|exact Hmap
    |apply impl_of_handle; unfold wa; wsimpl; apply lookup_insert_eq|done|by intros _|].
  change (qualified wa p name) with (qualified w p name) in Hnamed.
  rewrite bool_decide_eq_false_2 in Hnamed by (rewrite Hnone; by intros [? ?]).
  assert (impl_of w1 src = Some (st, it)) as Hsrc1.
  { apply impl_of_Some in Hsrc as (cs & Hcs & Hcst & Hst). apply impl_of_Some.
    exists cs. split; [done|]. split.
    - eapply lookup_weaken; [|exact Hc]. unfold wa. wsimpl.
      eapply lookup_weaken; [exact Hcst|apply insert_fresh_subseteq].
    - rewrite Hsto by done. unfold wa. wsimpl. by rewrite lookup_insert_ne. }
  pose proof Himpl as (_ & _ & _ & Hs1)%impl_of_Some.
  pose proof Hsrc1 as (_ & _ & _ & Hst1)%impl_of_Some.
  exists v, s, (copied [(s, st)] w1). split.
  { unfold Path_VarCopy, ts_Size. unfold bind at 1. rewrite Hsrc.
    unfold Path_Zeros, Path_NewVar.
    step by (by apply deref_Ret).
    step by (apply new_tensor_Ret).
    step by (exact Hrun).
    step by (eapply NoGrad_Copy_Ret; [exact Himpl|exact Hsrc1|reflexivity]).
    reflexivity. }
  split; [exact Hnamed|]. split; [exact Hs|]. split.
  { rewrite (impl_of_copied _ _ _ _ _ _ Himpl), Hs1, Hst1.
    by rewrite decide_True. }
  split.
  { rewrite (impl_of_copied _ _ _ _ _ _ Hsrc1), Hs1, Hst1.
    by rewrite decide_False. }
  split; [exact Htr|].
  unfold copied. simpl. apply last_snoc.
Qed.

Lemma VarCopy_fresh_name_witness :
  (∃ s, impl_of store_a_b_world (MkTensor (Some 1)) = Some s)
  ∧ ∃ v s w',
      Path_VarCopy (VarStore_Root 0) "c" (MkTensor (Some 1)) store_a_b_world = Ret v w'
      ∧ named_of w' 0 !! "c" = Some v
      ∧ values_of w' v = values_of store_a_b_world (MkTensor (Some 1))
      ∧ grad_of w' v = Some true
      ∧ last (copy_log w') = Some (s, 0, false).
Proof.
  split; [eexists; vm_compute; reflexivity|].
  destruct (VarCopy_fresh_name store_a_b_world (VarStore_Root 0) "c" (MkTensor (Some 1))
              (MkVarStore CPU (MkVariables 0 0 (Slice 1 2 2)))
              (named_of store_a_b_world 0) 0
              (MkImpl [0; 0]%Z [2]%Z Float CPU true))
    as (v & s & w' & Hrun & Hnamed & _ & Himpl & _ & _ & Hlog);
    [reflexivity|vm_compute; reflexivity|vm_compute; reflexivity|vm_compute; reflexivity
    |split; [simpl; lia|vm_compute; lia]|vm_compute; reflexivity|vm_compute; reflexivity|].
  exists v, s, w'. split; [exact Hrun|].
  split.
  { change (named_of w' 0 = <["c" := v]> (named_of store_a_b_world 0)) in Hnamed.
    rewrite Hnamed. apply lookup_insert_eq. }
  split; [unfold values_of at 1; rewrite Himpl; vm_compute; reflexivity|].
  split; [unfold grad_of; by rewrite Himpl|exact Hlog].
Defined.

Lemma get_or_create_found (w : World) (e : Entry) (impl : Device → Impl)
    (vs : VarStore) (m : gmap string Tensor) (t : Tensor) :
  variables e = varstore (entry_path e) →
  stores w !! variables e = Some vs →
  gomaps w !! NamedVariables (Vars vs) = Some m →
  Contains (name e) SEP = false →
  m !! qualified w (entry_path e) (name e) = Some t →
  get_or_create e (λ d, new_tensor (impl d)) w
  = Ret t (upd_ctensors <[fresh (dom (ctensors w)) := fresh (dom (storage w))]>
             (upd_storage <[fresh (dom (storage w)) := impl (device vs)]> w)).
Proof.
  intros He Hvs Hmap Hsep Ht. unfold get_or_create.
  step by (apply deref_Ret; rewrite <- He; exact Hvs).
  step by (apply new_tensor_Ret).
  unfold deref_variables.
  step by (apply deref_Ret; wsimpl; exact Hvs).
  rewrite bind_ret_l.
  erewrite getOrAdd_found; [reflexivity|done|].
  wsimpl. rewrite (lookup_total_correct _ _ _ Hmap). exact Ht.
Qed.

(** X12. [OrVarCopy] on a name that is bound returns the bound variable with
    its values overwritten by the tensor's (of the same shape): the
    registry, the trainable list and the variable's gradient flag stay
    as they were, and the copy is made with the gradient mode off. *)
Theorem OrVarCopy_bound_name (w : World) (e : Entry) (src : Tensor)
    (vs : VarStore) (m : gmap string Tensor) (v : Tensor) (sv st : nat) (iv it : Impl) :
  variables e = varstore (entry_path e) →
  stores w !! variables e = Some vs →
  gomaps w !! NamedVariables (Vars vs) = Some m →
  Contains (name e) SEP = false →
  m !! qualified w (entry_path e) (name e) = Some v →
  impl_of w v = Some (sv, iv) →
  impl_of w src = Some (st, it) →
  shape iv = shape it →
  ∃ w',
    Entry_OrVarCopy e src w = Ret v w'
    ∧ registry w' = registry w
    ∧ trainable_of w' (variables e) = trainable_of w (variables e)
    ∧ impl_of w' v = Some (sv, set_values (values it) iv)
    ∧ last (copy_log w') = Some (sv, st, false)
    ∧ (∀ x i, storage w !! x = Some i → x ≠ sv → storage w' !! x = Some i).
Proof.
  intros He Hvs Hmap Hsep Hv Hiv Hit Hshape.
  set (impl := λ d, MkImpl (init_values (NewConstInit 0) (shape it)) (shape it) Float d false).
  set (wa := upd_ctensors <[fresh (dom (ctensors w)) := fresh (dom (storage w))]>
               (upd_storage <[fresh (dom (storage w)) := impl (device vs)]> w)).
  assert (∀ t s i, impl_of w t = Some (s, i) → impl_of wa t = Some (s, i)) as Hmono.
  { intros t s i. apply impl_of_mono; unfold wa; wsimpl; apply insert_fresh_subseteq. }
  pose proof (Hmono _ _ _ Hiv) as Hiva. pose proof (Hmono _ _ _ Hit) as Hita.
  pose proof Hiva as (_ & _ & _ & Hsva)%impl_of_Some.
  pose proof Hita as (_ & _ & _ & Hsta)%impl_of_Some.
  exists (copied [(sv, st)] wa). split.
  { unfold Entry_OrVarCopy, ts_Size. unfold bind at 1. rewrite Hit.
    change (Entry_OrZeros e (shape it))
      with (get_or_create e (λ d, new_tensor (impl d))).
    step by (by apply (get_or_create_found w e impl vs m v)).
    step by (eapply NoGrad_Copy_Ret; [exact Hiva|exact Hita|exact Hshape]).
    reflexivity. }
  split; [reflexivity|]. split; [reflexivity|]. split.
  { rewrite (impl_of_copied _ _ _ _ _ _ Hiva), Hsva, Hsta. by rewrite decide_True. }
  split; [unfold copied; simpl; apply last_snoc|].
  intros x i Hx Hne. unfold copied, copy_step. simpl.
  change (storage wa) with (<[fresh (dom (storage w)) := impl (device vs)]> (storage w)) in *.
  rewrite Hsva, Hsta. rewrite lookup_insert_ne by done.
  rewrite lookup_insert_ne; [done|].
  intros <-. pose proof (fresh_lookup (storage w)). congruence.
Qed.

Lemma OrVarCopy_bound_name_witness :
  (∃ i, impl_of store_w_ones_world (MkTensor (Some 3)) = Some (1, i))
  ∧ ∃ w',
      Entry_OrVarCopy (MkEntry "w" 0 (VarStore_Root 0)) (MkTensor (Some 3))
        store_w_ones_world
      = Ret (MkTensor (Some 2)) w'
      ∧ registry w' = registry store_w_ones_world
      ∧ values_of store_w_ones_world (MkTensor (Some 2)) = Some [0; 0; 0; 0]%Z
      ∧ values_of w' (MkTensor (Some 2)) = Some [1; 1; 1; 1]%Z
      ∧ grad_of w' (MkTensor (Some 2)) = Some true
      ∧ last (copy_log w') = Some (0, 1, false).
Proof.
  split; [eexists; vm_compute; reflexivity|].
  destruct (OrVarCopy_bound_name store_w_ones_world (MkEntry "w" 0 (VarStore_Root 0))
              (MkTensor (Some 3))
              (MkVarStore CPU (MkVariables 0 0 (Slice 0 1 1)))
              (named_of store_w_ones_world 0) (MkTensor (Some 2)) 0 1
              (MkImpl [0; 0; 0; 0]%Z [2; 2]%Z Float CPU true)
              (MkImpl [1; 1; 1; 1]%Z [2; 2]%Z Float CPU false))
    as (w' & Hrun & Hreg & _ & Himpl & Hlog & _);
    [reflexivity|vm_compute; reflexivity|vm_compute; reflexivity|reflexivity
    |vm_compute; reflexivity|vm_compute; reflexivity|vm_compute; reflexivity|reflexivity|].
  exists w'. split; [exact Hrun|]. split; [exact Hreg|].
  split; [vm_compute; reflexivity|].
  split; [unfold values_of; by rewrite Himpl|].
  split; [unfold grad_of; by rewrite Himpl|exact Hlog].
Defined.

(** ** What the copies leave alone *)

Lemma tensors_kept_refl w : tensors_kept w w.
Proof. split; [done|]. split; [done|]. intros s i Hs. by exists i. Qed.

Lemma tensors_kept_same w w' :
  tensor_arrays w' = tensor_arrays w → ctensors w' = ctensors w →
  storage w' = storage w → tensors_kept w w'.
Proof.
  intros Ha Hc Hs. split; [done|]. split; [by rewrite Hc|].
  intros s i Hi. exists i. by rewrite Hs.
Qed.

Lemma tensors_kept_trans w1 w2 w3 :
  tensors_kept w1 w2 → tensors_kept w2 w3 → tensors_kept w1 w3.
Proof.
  intros (Ha & Hc & Hs) (Ha' & Hc' & Hs'). split; [congruence|].
  split; [by etransitivity|]. intros s i Hi.
  destruct (Hs s i Hi) as (i' & Hi' & Hm). destruct (Hs' s i' Hi') as (i'' & Hi'' & Hm').
  exists i''. split; [done|congruence].
Qed.

Lemma only_values_ret {A} (a : A) : only_values (ret a).
Proof. intros w. apply tensors_kept_refl. Qed.

Lemma only_values_die {A} k : only_values (@die A k).
Proof. intros w. apply tensors_kept_refl. Qed.

Lemma only_values_bind {A B} (m : M A) (k : A → M B) :
  only_values m → (∀ a, only_values (k a)) → only_values (bind m k).
Proof.
  intros Hm Hk w. unfold bind. specialize (Hm w).
  destruct (m w) as [a w1|e w1]; simpl in *; [|done].
  eapply tensors_kept_trans; [exact Hm|apply Hk].
Qed.

Lemma only_values_loop_until {A R} (l : list A) (body : A → M (option R)) :
  (∀ x, only_values (body x)) → only_values (loop_until l body).
Proof.
  intros Hb. induction l as [|x l IH]; [apply only_values_ret|]. simpl.
  apply only_values_bind; [done|]. intros [r|]; [apply only_values_ret|apply IH].
Qed.

Lemma only_values_for_each {A S} (l : list A) (body : S → A → M S) s :
  (∀ s x, only_values (body s x)) → only_values (for_each l body s).
Proof.
  intros Hb. revert s. induction l as [|x l IH]; intros s; [apply only_values_ret|].
  simpl. apply only_values_bind; [done|]. intros s'. apply IH.
Qed.

Lemma only_values_deref a : only_values (deref a).
Proof. intros w. unfold deref. destruct (stores w !! a); apply tensors_kept_refl. Qed.

Lemma only_values_read_map a : only_values (read_map a).
Proof. intros w. apply tensors_kept_refl. Qed.

Lemma only_values_locked {A} m (body : M A) : only_values body → only_values (locked m body).
Proof.
  intros Hb. unfold locked. apply only_values_bind.
  { intros w. unfold Lock. by destruct (mutexes w !! m) as [[]|]; apply tensors_kept_same. }
  intros _. apply only_values_bind; [done|]. intros r. apply only_values_bind.
  { intros w. unfold Unlock. by destruct (mutexes w !! m) as [[]|]; apply tensors_kept_same. }
  intros _. apply only_values_ret.
Qed.

Lemma only_values_new_tensor i : only_values (new_tensor i).
Proof.
  intros w. split; [done|]. split.
  - simpl. apply insert_fresh_subseteq.
  - intros s i0 Hs. exists i0. split; [|done]. simpl.
    rewrite lookup_insert_ne; [done|].
    intros <-. pose proof (fresh_lookup (storage w)). congruence.
Qed.

Lemma only_values_Copy_ dst src : only_values (Copy_ dst src).
Proof.
  intros w. unfold Copy_.
  destruct (impl_of w dst) as [[d di]|] eqn:Hd; [|apply tensors_kept_refl].
  destruct (impl_of w src) as [[s si]|]; [|apply tensors_kept_refl].
  case_decide; [|apply tensors_kept_refl].
  apply impl_of_Some in Hd as (_ & _ & _ & Hd).
  split; [done|]. split; [done|]. intros x i Hx. simpl.
  destruct (decide (x = d)) as [->|Hne].
  - rewrite lookup_insert_eq. eexists. split; [done|].
    rewrite Hd in Hx. by injection Hx as <-.
  - rewrite lookup_insert_ne by done. by exists i.
Qed.

Lemma only_values_NoGrad fn : only_values fn → only_values (NoGrad fn).
Proof.
  intros Hfn. unfold NoGrad. apply only_values_bind.
  { intros w. apply tensors_kept_refl. }
  intros w0. apply only_values_bind.
  { intros w. by apply tensors_kept_same. }
  intros _. apply only_values_bind; [done|]. intros _ w. by apply tensors_kept_same.
Qed.

Lemma only_values_To t dev : only_values (To t dev).
Proof.
  intros w. unfold To. destruct (impl_of w t) as [[s i]|]; [|apply tensors_kept_refl].
  destruct (device_ok w dev); [|apply tensors_kept_refl].
  apply (only_values_bind (new_tensor (on_device dev i))); [apply only_values_new_tensor|].
  intros r. apply only_values_ret.
Qed.

Lemma only_values_LoadMulti filepath dev : only_values (LoadMultiWithDevice filepath dev).
Proof.
  intros w. unfold LoadMultiWithDevice.
  destruct (files w !! filepath) as [es|]; [|apply tensors_kept_refl].
  assert (only_values (load_entries dev es)) as Hes.
  { induction es as [|[n i] es IH]; [apply only_values_ret|]. simpl.
    apply only_values_bind; [apply only_values_new_tensor|]. intros t.
    apply only_values_bind; [done|]. intros r. apply only_values_ret. }
  apply (only_values_bind (load_entries dev es)); [done|]. intros r. apply only_values_ret.
Qed.

(** X13. However it ends, and whatever the file holds, [Load] changes the
    values of tensors and nothing else: the store structs, the maps and
    the trainable lists stay as they were, every handle keeps its block,
    and every block its shape, element type, device and gradient flag. *)
Theorem Load_changes_values_only (vs : nat) (filepath : string) (w : World) :
  registry (world_of (VarStore_Load vs filepath w)) = registry w
  ∧ tensors_kept w (world_of (VarStore_Load vs filepath w)).
Proof.
  split; [apply Load_keeps_registry|]. revert w. change (only_values (VarStore_Load vs filepath)).
  unfold VarStore_Load. apply only_values_bind; [apply only_values_deref|]. intros v.
  apply only_values_bind; [apply only_values_LoadMulti|].
  intros [nts [e|]]; [apply only_values_ret|].
  apply only_values_locked, only_values_loop_until. intros nt.
  apply only_values_bind; [apply only_values_read_map|]. intros m.
  destruct (m !! nt_Name nt); [|apply only_values_ret].
  apply only_values_bind; [apply only_values_NoGrad, only_values_Copy_|].
  intros _. apply only_values_ret.
Qed.

(** X14. However it ends (also when it stops at a name the store does
    not have), [LoadPartial] changes the values of tensors and nothing
    else: the store structs, the maps and the trainable lists stay as they
    were, every handle keeps its block, and every block its shape,
    element type, device and gradient flag. *)
Theorem LoadPartial_changes_values_only (vs : nat) (filepath : string) (w : World) :
  registry (world_of (VarStore_LoadPartial vs filepath w)) = registry w
  ∧ tensors_kept w (world_of (VarStore_LoadPartial vs filepath w)).
Proof.
  split; [apply LoadPartial_keeps_registry|]. revert w.
  change (only_values (VarStore_LoadPartial vs filepath)).
  unfold VarStore_LoadPartial. apply only_values_bind; [apply only_values_deref|]. intros v.
  apply only_values_bind; [apply only_values_LoadMulti|].
  intros [nts [e|]]; [apply only_values_ret|].
  apply only_values_locked. apply only_values_bind; [|intros r; apply only_values_ret].
  apply only_values_for_each. intros acc nt.
  apply only_values_bind; [apply only_values_read_map|]. intros m.
  destruct (m !! nt_Name nt).
  - apply only_values_bind; [apply only_values_NoGrad, only_values_Copy_|].
    intros _. apply only_values_ret.
  - apply only_values_bind; [apply only_values_NoGrad, only_values_Copy_|].
    intros _. apply only_values_ret.
Qed.

(** X15. However it ends (a name the source lacks, a failed transfer to
    the device, a held mutex), [Copy] changes the values of tensors and
    nothing else, in the two stores and elsewhere: the store structs, the
    maps and the trainable lists stay as they were, every handle keeps
    its block, and every block its shape, element type, device and
    gradient flag. *)
Theorem Copy_changes_values_only (vs : nat) (src : VarStore) (order1 order2 : list string)
    (w : World) :
  registry (world_of (VarStore_Copy vs src order1 order2 w)) = registry w
  ∧ tensors_kept w (world_of (VarStore_Copy vs src order1 order2 w)).
Proof.
  split; [apply Copy_keeps_registry|]. revert w.
  change (only_values (VarStore_Copy vs src order1 order2)).
  unfold VarStore_Copy. apply only_values_bind; [apply only_values_deref|]. intros v.
  do 2 apply only_values_locked.
  apply only_values_bind; [apply only_values_read_map|]. intros sm.
  apply only_values_bind; [apply only_values_read_map|]. intros m.
  apply only_values_bind.
  { apply only_values_loop_until. intros kv.
    destruct (sm !! kv.1); apply only_values_ret. }
  intros [e|]; [apply only_values_ret|]. apply only_values_loop_until. intros kv.
  apply only_values_bind; [apply only_values_To|]. intros [t [e|]]; [apply only_values_ret|].
  apply only_values_bind; [apply only_values_NoGrad, only_values_Copy_|].
  intros _. apply only_values_ret.
Qed.

(** ** The trainable snapshot in general *)

Lemma slice_append_len {A} (zero : A) h s x :
  s_len (slice_append zero h s x).1 = S (s_len s).
Proof. unfold slice_append. by destruct (s_len s <? s_cap s). Qed.

Lemma slice_append_is_Some {A} (zero : A) h s x a :
  is_Some (h !! a) → is_Some ((slice_append zero h s x).2 !! a).
Proof.
  intros Ha. unfold slice_append.
  destruct (s_len s <? s_cap s); simpl; apply lookup_insert_is_Some'; by right.
Qed.

(** The loop of [TrainableVariables()], started with [ret] as the result
    slice: each turn reads element [i] of the registry's slice [sl],
    clones it and appends the clone to the result. *)
Lemma trainable_loop (sl : slice) (idx : list nat) : ∀ (ret0 : slice) (w : World),
  slice_ok (tensor_arrays w) ret0 →
  s_len sl ≤ s_len ret0 →
  is_Some (tensor_arrays w !! s_arr sl) ∨ s_len sl = 0 →
  (∀ i, i ∈ idx →
     i < s_len sl ∧ is_Some (impl_of w (slice_elems (tensor_arrays w) sl !!! i))) →
  ∃ r w' clones,
    for_each idx
      (λ retVal i,
         let* t := index_tensor sl i in
         let* c := MustShallowClone t in
         append_tensor retVal c) ret0 w = Ret r w'
    ∧ slice_elems (tensor_arrays w') r = slice_elems (tensor_arrays w) ret0 ++ clones
    ∧ slice_elems (tensor_arrays w') sl = slice_elems (tensor_arrays w) sl
    ∧ Forall2 (λ i c, block_of w' c = block_of w (slice_elems (tensor_arrays w) sl !!! i)
                      ∧ is_Some (block_of w' c) ∧ block_of w c = None) idx clones
    ∧ registry w' = registry w ∧ storage w' = storage w ∧ mutexes w' = mutexes w
    ∧ ctensors w ⊆ ctensors w'.
Proof.
  induction idx as [|i0 idx IH]; intros ret0 w Hok Hle Harr Hdef.
  { exists ret0, w, []. rewrite app_nil_r. by repeat split. }
  destruct (Hdef i0) as [Hi0 [[s im] Himpl]]; [by left|].
  set (orig := slice_elems (tensor_arrays w) sl) in *.
  assert ((tensor_arrays w !!! s_arr sl) !!! i0 = orig !!! i0) as Hread.
  { unfold orig, slice_elems. by rewrite lookup_total_take_lt. }
  set (c := fresh (dom (ctensors w))).
  set (w1 := upd_ctensors <[c := s]> w).
  set (ap := slice_append nil_tensor (tensor_arrays w) ret0 (MkTensor (Some c))).
  set (w2 := set_tensor_arrays ap.2 w1).
  assert (ctensors w ⊆ ctensors w2) as Hsub by apply insert_fresh_subseteq.
  assert (slice_elems (tensor_arrays w2) sl = orig) as Hsame.
  { unfold w2. wsimpl. unfold ap. by apply slice_append_frame. }
  destruct (IH ap.1 w2) as (r & w' & clones & Hrun & Hr & Hsl & Hall & Hreg & Hsto & Hmu & Hc).
  { unfold w2. wsimpl. by apply slice_append_ok. }
  { unfold ap. rewrite slice_append_len. lia. }
  { destruct Harr as [Harr|Harr]; [left|by right].
    unfold w2. wsimpl. by apply slice_append_is_Some. }
  { intros i Hi. destruct (Hdef i) as [Hlt [[s' im'] H']]; [by right|].
    split; [done|]. rewrite Hsame. exists (s', im').
    eapply impl_of_mono; [exact Hsub|done|exact H']. }
  exists r, w', (MkTensor (Some c) :: clones). split.
  { simpl. step by (unfold index_tensor; reflexivity).
    rewrite Hread.
    step by (eapply MustShallowClone_Ret; exact Himpl).
    step by (apply append_tensor_Ret). exact Hrun. }
  split.
  { rewrite Hr. unfold w2. wsimpl. unfold ap.
    rewrite slice_append_elems by done. by rewrite <- app_assoc. }
  split; [by rewrite Hsl|].
  split.
  { apply Forall2_cons. split.
    - apply impl_of_block in Himpl as [Hb _].
      assert (block_of w' (MkTensor (Some c)) = Some s) as Hbc.
      { eapply block_of_mono; [exact Hc|]. unfold block_of, w2. simpl.
        apply lookup_insert_eq. }
      rewrite Hbc. split; [by rewrite Hb|]. split; [by eexists|].
      apply fresh_lookup.
    - apply Forall2_same_length_lookup_2; [by eapply Forall2_length|].
      intros k i c' Hi Hc'.
      destruct (Forall2_lookup_lr _ _ _ _ _ _ Hall Hi Hc') as (Hb & Hsome & Hnew).
      rewrite Hsame in Hb.
      destruct (Hdef i) as [_ [[s' im'] [Hw _]%impl_of_block]];
        [right; by eapply list_elem_of_lookup_2|].
      assert (block_of w2 (orig !!! i) = Some s') as Hw2 by (by eapply block_of_mono).
      rewrite Hb, Hw2, Hw. split; [done|].
      split; [by eexists|by eapply block_of_weaken_None]. }
  split; [done|]. split; [done|]. split; [done|]. by etransitivity.
Qed.

(** X16. [TrainableVariables()] on any store whose trainable handles are
    live: the result starts with the registry's own handles, which are
    followed by one new handle for each of them, on the same block; it
    is twice as long as the trainable list.  The registry, the trainable
    list, the blocks and the mutexes are as before the call. *)
Theorem TrainableVariables_appends_clones (w : World) (vs : nat) (v : VarStore) :
  stores w !! vs = Some v →
  mutexes w !! mutex (Vars v) = Some false →
  slice_ok (tensor_arrays w) (TrainableVariables (Vars v)) →
  (∀ t, t ∈ trainable_of w vs → is_Some (impl_of w t)) →
  ∃ r w' clones,
    VarStore_TrainableVariables vs w = Ret r w'
    ∧ slice_elems (tensor_arrays w') r = trainable_of w vs ++ clones
    ∧ length clones = length (trainable_of w vs)
    ∧ (∀ k t c, trainable_of w vs !! k = Some t → clones !! k = Some c →
         block_of w' c = block_of w t ∧ is_Some (block_of w' c) ∧ block_of w c = None)
    ∧ trainable_of w' vs = trainable_of w vs
    ∧ registry w' = registry w ∧ storage w' = storage w ∧ mutexes w' = mutexes w.
Proof.
  intros Hvs Hmu Hok Hdef.
  rewrite (trainable_of_eq _ _ _ Hvs) in *.
  set (sl := TrainableVariables (Vars v)) in *.
  set (orig := slice_elems (tensor_arrays w) sl) in *.
  pose proof (slice_elems_length _ _ Hok) as Hlen. fold orig in Hlen.
  set (w1 := upd_mutexes <[mutex (Vars v) := true]> w).
  destruct (trainable_loop sl (seq 0 (s_len sl)) sl w1)
    as (r & w' & clones & Hrun & Hr & Hsl & Hall & Hreg & Hsto & Hmu' & Hc).
  { exact Hok. }
  { done. }
  { destruct Hok as [Hl Hcap]. destruct (decide (s_len sl = 0)) as [|Hne]; [by right|].
    left. change (tensor_arrays w1) with (tensor_arrays w).
    rewrite lookup_total_alt in Hcap.
    destruct (tensor_arrays w !! s_arr sl); [done|]. simpl in Hcap. lia. }
  { intros i Hi. apply elem_of_seq in Hi as [_ Hi]. simpl in Hi. split; [done|].
    change (tensor_arrays w1) with (tensor_arrays w). fold orig.
    rewrite (impl_of_ext w w1) by done. apply Hdef.
    apply list_elem_of_lookup. exists i. apply list_lookup_lookup_total_lt. lia. }
  change (tensor_arrays w1) with (tensor_arrays w) in *. fold orig in Hr, Hsl, Hall.
  exists r, (upd_mutexes <[mutex (Vars v) := false]> w'), clones. split.
  { unfold VarStore_TrainableVariables.
    step by (by apply deref_Ret). unfold locked.
    step by (by apply Lock_Ret).
    step by (apply deref_Ret; exact Hvs).
    fold w1. fold sl. step by exact Hrun.
    step by (apply Unlock_Ret; rewrite Hmu'; unfold w1; wsimpl; apply lookup_insert_eq).
    done. }
  split; [exact Hr|].
  pose proof (Forall2_length _ _ _ Hall) as Hlc. rewrite length_seq in Hlc.
  split; [lia|]. split.
  { intros k t c Ht Hc'.
    assert (k < s_len sl) as Hk by (apply lookup_lt_Some in Ht; lia).
    destruct (Forall2_lookup_lr _ _ _ k k c Hall) as (Hb & Hs & Hn);
      [by apply lookup_seq_lt|done|].
    rewrite (list_lookup_total_correct _ _ _ Ht) in Hb. done. }
  split.
  { erewrite trainable_of_eq
      by (wsimpl; change (stores w') with (registry w').1; rewrite Hreg; exact Hvs).
    exact Hsl. }
  split; [exact Hreg|]. split; [exact Hsto|].
  wsimpl. rewrite Hmu'. unfold w1. wsimpl. by apply unlock_lock.
Qed.

Lemma TrainableVariables_appends_clones_witness :
  trainable_of store_a_b_world 0 = [MkTensor (Some 2); MkTensor (Some 5)]
  ∧ ∃ r w' clones,
      VarStore_TrainableVariables 0 store_a_b_world = Ret r w'
      ∧ slice_elems (tensor_arrays w') r
        = [MkTensor (Some 2); MkTensor (Some 5)] ++ clones
      ∧ length clones = 2.
Proof.
  split; [vm_compute; reflexivity|].
  destruct (TrainableVariables_appends_clones store_a_b_world 0
              (MkVarStore CPU (MkVariables 0 0 (Slice 1 2 2))))
    as (r & w' & clones & Hrun & Hr & Hlen & _);
    [vm_compute; reflexivity|vm_compute; reflexivity
    |split; [simpl; lia|vm_compute; lia]| |].
  { intros t Ht. change (t ∈ [MkTensor (Some 2); MkTensor (Some 5)]) in Ht.
    apply elem_of_cons in Ht as [->|Ht]; [eexists; vm_compute; reflexivity|].
    apply elem_of_cons in Ht as [->|Ht]; [eexists; vm_compute; reflexivity|].
    by apply elem_of_nil in Ht. }
  exists r, w', clones. split; [exact Hrun|]. split; [exact Hr|exact Hlen].
Defined.
